(** * dedupe_yara_rule.py: a shallow embedding and its verification

    The development follows the script top-down:
    - [PyStr]: the [str] methods the script calls (strip, splitlines,
      partition, split, join, the [in] operator);
    - [Re]: a backtracking matcher with the priorities of Python's [re]
      module, and the three compiled patterns of the script;
    - [PosixPath]: the [os.path] functions used to lay out the output tree;
    - the globals of the script, [write_file], [extract], [dedupe],
      [dedupe_threaded] and the aggregation code of [__main__].

    Characters are the 8-bit code points of [ascii] (Latin-1); text is
    [string]. *)

From Stdlib Require Import String Ascii List Arith Lia Bool.
From stdpp Require Import base option list gmap sets strings sorting.

Local Open Scope string_scope.
Local Open Scope list_scope.
Local Open Scope nat_scope.

(** ** Python [str] primitives *)
Module PyStr.

Definition LF : ascii := "010"%char.

(** [str.isspace] on one character, restricted to code points below 256:
    TAB, LF, VT, FF, CR, FS, GS, RS, US, SPACE, NEL and NBSP. *)
Definition isspace (c : ascii) : bool :=
  let n := nat_of_ascii c in
  (((9 <=? n) && (n <=? 13)) || ((28 <=? n) && (n <=? 32))
   || (n =? 133) || (n =? 160))%nat.

Definition mem_char (c : ascii) (chars : string) : bool :=
  existsb (Ascii.eqb c) (list_ascii_of_string chars).

(** [s.lstrip(chars)] / [s.rstrip(chars)] for a predicate on characters. *)
Fixpoint lstrip_by (p : ascii -> bool) (s : string) : string :=
  match s with
  | "" => ""
  | String c s' => if p c then lstrip_by p s' else s
  end.

Fixpoint rstrip_by (p : ascii -> bool) (s : string) : string :=
  match s with
  | "" => ""
  | String c s' =>
      match rstrip_by p s' with
      | "" => if p c then "" else String c ""
      | t => String c t
      end
  end.

Definition strip_by (p : ascii -> bool) (s : string) : string :=
  lstrip_by p (rstrip_by p s).

(** [s.strip()] *)
Definition strip (s : string) : string := strip_by isspace s.

(** [s.strip(chars)] *)
Definition strip_chars (chars : string) (s : string) : string :=
  strip_by (fun c => mem_char c chars) s.

(** [s.startswith(p)] *)
Fixpoint startswith (p s : string) : bool :=
  match p, s with
  | "", _ => true
  | String a p', String b s' => Ascii.eqb a b && startswith p' s'
  | String _ _, "" => false
  end.

(** [s.endswith(p)] *)
Definition endswith (p s : string) : bool :=
  startswith (String.rev p) (String.rev s).

(** [x in s] *)
Fixpoint contains (x s : string) : bool :=
  startswith x s ||
  match s with
  | "" => false
  | String _ s' => contains x s'
  end.

(** [sep.join(l)] *)
Fixpoint join (sep : string) (l : list string) : string :=
  match l with
  | [] => ""
  | [x] => x
  | x :: l' => x +:+ sep +:+ join sep l'
  end.

(** [c * n] for a one-character string. *)
Fixpoint repeat_char (c : ascii) (n : nat) : string :=
  match n with
  | 0 => ""
  | S n' => String c (repeat_char c n')
  end.

(** The text before the first character satisfying [p]. *)
Fixpoint before_by (p : ascii -> bool) (s : string) : string :=
  match s with
  | "" => ""
  | String a s' => if p a then "" else String a (before_by p s')
  end.

(** The text before the first occurrence of the character [c]: this is
    [s.partition(c)[0]] and also [s.split(c)[0]]. *)
Definition before_char (c : ascii) (s : string) : string :=
  before_by (Ascii.eqb c) s.

(** Line boundaries of [str.splitlines] below code point 256. *)
Definition is_linebreak (c : ascii) : bool :=
  let n := nat_of_ascii c in
  (((10 <=? n) && (n <=? 13)) || ((28 <=? n) && (n <=? 30))
   || (n =? 133))%nat.

(** [s.splitlines()[0]]: [None] stands for the [IndexError] raised on
    the empty string, whose [splitlines()] is the empty list. *)
Definition first_line (s : string) : option string :=
  match s with
  | "" => None
  | _ => Some (before_by is_linebreak s)
  end.

End PyStr.

Import PyStr.

(** ** The [re] module: backtracking matching and [findall] *)
Module Re.

(** Pattern syntax, as far as the three patterns of the script need it.
    [Star true r] is the greedy [r*], [Star false r] the lazy [r*?];
    [Bol] and [Eol] are [^] and [$] under [re.MULTILINE]; [Grp n r] is
    the capturing group number [n]. *)
Inductive regex : Type :=
| Eps
| Chr (c : ascii)
| Cls (p : ascii -> bool)
| Bol
| Eol
| Seq (r1 r2 : regex)
| Alt (r1 r2 : regex)
| Star (greedy : bool) (r : regex)
| Grp (n : nat) (r : regex).

(** [r+] *)
Definition Plus (r : regex) : regex := Seq r (Star true r).

(** A literal word. *)
Fixpoint Lit (w : string) : regex :=
  match w with
  | "" => Eps
  | String c w' => Seq (Chr c) (Lit w')
  end.

(** [.] under [re.DOTALL]. *)
Definition Any : regex := Cls (fun _ => true).

(** The matcher's position: the character before it (for [^]), the text
    still to read, and the groups captured so far, most recent first. *)
Record cursor : Type :=
  { prev : option ascii; rest : string; caps : list (nat * string) }.

Definition advance (a : ascii) (t : string) (s : cursor) : cursor :=
  {| prev := Some a; rest := t; caps := caps s |}.

(** The text read between a position whose remaining text is [from] and a
    later one whose remaining text is [to]. *)
Definition consumed (from to : string) : string :=
  substring 0 (String.length from - String.length to) from.

Definition set_cap (n : nat) (w : string) (s : cursor) : cursor :=
  {| prev := prev s; rest := rest s; caps := (n, w) :: caps s |}.

Definition at_bol (s : cursor) : bool :=
  match prev s with
  | None => true
  | Some c => Ascii.eqb c LF
  end.

Definition at_eol (s : cursor) : bool :=
  match rest s with
  | "" => true
  | String c _ => Ascii.eqb c LF
  end.

Definition or_else {A} (x y : option A) : option A :=
  match x with
  | Some _ => x
  | None => y
  end.

(** Backtracking matching in continuation-passing style: [run fuel r s k]
    tries the ways [r] can match at [s] in priority order and returns the
    first for which the continuation [k] succeeds. An iteration of a
    starred pattern has to read at least one character; [fuel] bounds the
    number of nested iterations and is spent only by them. *)
Fixpoint run (fuel : nat)
  : regex -> cursor -> (cursor -> option cursor) -> option cursor :=
  match fuel with
  | 0 => fun _ _ _ => None
  | S fuel' =>
      fix go (r : regex) (s : cursor) (k : cursor -> option cursor)
        {struct r} : option cursor :=
        match r with
        | Eps => k s
        | Chr c =>
            match rest s with
            | String a t => if Ascii.eqb a c then k (advance a t s) else None
            | "" => None
            end
        | Cls p =>
            match rest s with
            | String a t => if p a then k (advance a t s) else None
            | "" => None
            end
        | Bol => if at_bol s then k s else None
        | Eol => if at_eol s then k s else None
        | Seq r1 r2 => go r1 s (fun s1 => go r2 s1 k)
        | Alt r1 r2 => or_else (go r1 s k) (go r2 s k)
        | Star greedy r1 =>
            let again :=
              go r1 s (fun s1 =>
                if (String.length (rest s1) <? String.length (rest s))%nat
                then run fuel' (Star greedy r1) s1 k
                else None) in
            if greedy then or_else again (k s) else or_else (k s) again
        | Grp n r1 =>
            go r1 s (fun s1 => k (set_cap n (consumed (rest s) (rest s1)) s1))
        end
  end.

(** One attempt of [pattern.match] at a position. *)
Definition match_at (r : regex) (p : option ascii) (s : string)
  : option cursor :=
  run (S (String.length s)) r {| prev := p; rest := s; caps := [] |} Some.

Definition last_char (w : string) : option ascii :=
  match String.rev w with
  | "" => None
  | String c _ => Some c
  end.

(** One match: its text and its groups. *)
Definition hit : Type := (string * list (nat * string))%type.

(** The scan of [finditer]: leftmost match first, then on from its end;
    past an empty match the scan moves one character on. *)
Fixpoint scan (fuel : nat) (r : regex) (p : option ascii) (s : string)
  : list hit :=
  match fuel with
  | 0 => []
  | S fuel' =>
      let step :=
        match s with
        | "" => []
        | String a t => scan fuel' r (Some a) t
        end in
      match match_at r p s with
      | Some c =>
          match consumed s (rest c) with
          | "" => ("", caps c) :: step
          | w => (w, caps c) :: scan fuel' r (last_char w) (rest c)
          end
      | None => step
      end
  end.

Definition finditer (r : regex) (s : string) : list hit :=
  scan (S (String.length s)) r None s.

(** [m.group(n)], with the empty string for a group that took no part,
    as [findall] reports it. *)
Fixpoint group (n : nat) (cs : list (nat * string)) : string :=
  match cs with
  | [] => ""
  | (m, w) :: cs' => if (m =? n)%nat then w else group n cs'
  end.

(** [pattern.findall(s)] for a pattern with one group. *)
Definition findall1 (r : regex) (s : string) : list string :=
  map (fun h : hit => group 1 (snd h)) (finditer r s).

(** [pattern.findall(s)] for a pattern with [n > 1] groups: one tuple of
    the groups [1..n] per match. *)
Definition findall (n : nat) (r : regex) (s : string) : list (list string) :=
  map (fun h : hit => map (fun i => group i (snd h)) (seq 1 n)) (finditer r s).

End Re.

(** ** The compiled patterns of the script *)
Import Re.

Definition is_digit (c : ascii) : bool :=
  let n := nat_of_ascii c in ((48 <=? n) && (n <=? 57))%nat.

Definition is_alpha (c : ascii) : bool :=
  let n := nat_of_ascii c in
  (((97 <=? n) && (n <=? 122)) || ((65 <=? n) && (n <=? 90)))%nat.

(** [[\s+private\/\*]] *)
Definition rule_prefix_class (c : ascii) : bool :=
  isspace c || mem_char c "+private/*".

(** [[0-9a-zA-Z_\@\#\$\%\^\&\(\)\-\=\:\s]] *)
Definition rule_header_class (c : ascii) : bool :=
  is_digit c || is_alpha c || mem_char c "_@#$%^&()-=:" || isspace c.

(** [yara_rule_regex], compiled with [re.MULTILINE | re.DOTALL]:
    [(^[\s+private\/\*]*rule\s[0-9a-zA-Z_\@\#\$\%\^\&\(\)\-\=\:\s]+\{.*?condition.*?\s\})] *)
Definition rules_re : regex :=
  Grp 1
    (Seq Bol
    (Seq (Star true (Cls rule_prefix_class))
    (Seq (Lit "rule")
    (Seq (Cls isspace)
    (Seq (Plus (Cls rule_header_class))
    (Seq (Chr "{")
    (Seq (Star false Any)
    (Seq (Lit "condition")
    (Seq (Star false Any)
    (Seq (Cls isspace) (Chr "}"))))))))))).

Definition is_cr_lf (c : ascii) : bool :=
  Ascii.eqb c "013" || Ascii.eqb c LF.

(** [comments_regex], compiled with [re.MULTILINE | re.DOTALL]:
    [(/\*([^*]|[\r\n]|(\*+([^*/]|[\r\n])))*\*+/|^//.*?$)] *)
Definition comments_re : regex :=
  Grp 1
    (Alt
       (Seq (Lit "/*")
       (Seq (Star true
               (Grp 2
                  (Alt (Cls (fun c => negb (Ascii.eqb c "*")))
                  (Alt (Cls is_cr_lf)
                       (Grp 3
                          (Seq (Plus (Chr "*"))
                               (Grp 4
                                  (Alt (Cls (fun c => negb (mem_char c "*/")))
                                       (Cls is_cr_lf)))))))))
       (Seq (Plus (Chr "*")) (Chr "/"))))
       (Seq Bol (Seq (Lit "//") (Seq (Star false Any) Eol)))).

(** [imports_regex], compiled with [re.MULTILINE | re.DOTALL]:
    [(^import\s+.*?$)] *)
Definition import_re : regex :=
  Grp 1
    (Seq Bol
    (Seq (Lit "import")
    (Seq (Plus (Cls isspace))
    (Seq (Star false Any) Eol)))).

(** ** [os.path] on POSIX *)
Module PosixPath.

Definition has_slash (s : string) : bool := mem_char "/" s.

(** [(p[:i], p[i:])] for [i = p.rfind('/') + 1]. *)
Fixpoint rsplit (p : string) : string * string :=
  match p with
  | "" => ("", "")
  | String c t =>
      if has_slash t then (String c (fst (rsplit t)), snd (rsplit t))
      else if Ascii.eqb c "/" then ("/", t)
      else ("", String c t)
  end.

Definition basename (p : string) : string := snd (rsplit p).

Definition is_slash (c : ascii) : bool := Ascii.eqb c "/".

Definition dirname (p : string) : string :=
  let head := fst (rsplit p) in
  match lstrip_by is_slash head with
  | "" => head
  | _ => rstrip_by is_slash head
  end.

(** [os.path.join(a, b)] *)
Definition join2 (a b : string) : string :=
  if startswith "/" b then b
  else if String.eqb a "" || endswith "/" a then a +:+ b
  else a +:+ "/" +:+ b.

(** [p.split('/')] *)
Fixpoint split_slash (p : string) : list string :=
  match p with
  | "" => [""]
  | String c t =>
      if Ascii.eqb c "/" then "" :: split_slash t
      else match split_slash t with
           | [] => [String c ""]
           | x :: l => String c x :: l
           end
  end.

(** The loop of [normpath] over the components; [acc] is [new_comps]
    reversed. *)
Fixpoint norm_comps (abs : bool) (acc comps : list string) : list string :=
  match comps with
  | [] => rev acc
  | comp :: comps' =>
      if String.eqb comp "" || String.eqb comp "." then
        norm_comps abs acc comps'
      else if negb (String.eqb comp "..") then
        norm_comps abs (comp :: acc) comps'
      else
        match acc with
        | [] => if abs then norm_comps abs acc comps'
                else norm_comps abs (comp :: acc) comps'
        | top :: acc' =>
            if String.eqb top ".." then norm_comps abs (comp :: acc) comps'
            else norm_comps abs acc' comps'
        end
  end.

Definition normpath (p : string) : string :=
  match p with
  | "" => "."
  | _ =>
      let slashes :=
        if startswith "/" p then
          if startswith "//" p && negb (startswith "///" p) then 2 else 1
        else 0 in
      let body := PyStr.join "/" (norm_comps (negb (slashes =? 0)%nat) [] (split_slash p)) in
      match repeat_char "/" slashes +:+ body with
      | "" => "."
      | q => q
      end
  end.

End PosixPath.

Definition nl : string := String LF "".

(** ** Globals, output tree and the environment of a run *)

(** The module-level state that [dedupe] declares [global]. *)
Record globals : Type :=
  { all_imports : gset string;
    all_yara_rules : gset string;
    rule_names : gset string;
    total_duplicate_rules : nat;
    total_rules : nat;
    rule_dict : gmap string (list string) }.

(** The output tree: directories and regular files, by normalised path. *)
Record filesystem : Type :=
  { dirs : gset string; files : gmap string string }.

(** Everything the workers share. [lock_held] records that [lock] was
    acquired by a region that raised before its [lock.release()]. [stdout]
    holds the diagnostics of [write_file]. *)
Record world : Type :=
  { glob : globals; fs : filesystem; stdout : list string; lock_held : bool }.

Definition set_glob (g : globals) (w : world) : world :=
  {| glob := g; fs := fs w; stdout := stdout w; lock_held := lock_held w |}.
Definition set_fs (f : filesystem) (w : world) : world :=
  {| glob := glob w; fs := f; stdout := stdout w; lock_held := lock_held w |}.
Definition print (m : string) (w : world) : world :=
  {| glob := glob w; fs := fs w; stdout := stdout w ++ [m]; lock_held := lock_held w |}.
Definition leak_lock (w : world) : world :=
  {| glob := glob w; fs := fs w; stdout := stdout w; lock_held := true |}.

Definition globals0 : globals :=
  {| all_imports := ∅; all_yara_rules := ∅; rule_names := ∅;
     total_duplicate_rules := 0; total_rules := 0; rule_dict := ∅ |}.

Inductive encoding : Type := utf_8 | cp1252 | windows_1250 | windows_1252 | ascii_codec.

Definition encodings : list encoding :=
  [utf_8; cp1252; windows_1250; windows_1252; ascii_codec].

(** What opening and reading an input file gives: [io.open] raises, or
    the file is opened and [rule_file.read()] raises, or it returns the
    decoded text. *)
Inductive opened : Type :=
| NotOpened
| NotDecoded
| Decoded (content : string).

(** What a run takes from outside:
    - [decode f e]: what [io.open(f, "r", encoding=e)] and
      [rule_file.read()] give for the file [f] and the encoding [e];
    - [now]: the time stamp [time.strftime] returns;
    - [denied p]: [os.mkdir(p)] and [io.open(p, 'w')] raise [OSError];
    - [write_error p]: [Some msg] when one of the two calls of [f.write] on
      the open file [p] raises an exception whose text is [msg];
    - [flushed p]: how many characters of the text reach the file [p] when
      writing or closing it fails (the header, if the second [f.write] fails
      before anything is flushed);
    - [close_error p]: closing the file [p] at the end of the [with] block
      raises [OSError];
    - [set_order s]: the order in which this process iterates over the
      set [s] (it depends on the hash seed of the process);
    - [walk t top]: what [os.walk(top)] yields on the tree [t], as the
      pairs of a directory and the names of its regular files. *)
Record env : Type :=
  { decode : string -> encoding -> opened;
    now : string;
    denied : string -> bool;
    write_error : string -> option string;
    flushed : string -> nat;
    close_error : string -> bool;
    set_order : gset string -> list string;
    walk : filesystem -> string -> list (string * list string) }.

Inductive exn : Type :=
| OSError (path : string)
| FileExistsError (path : string)
| IndexError
| ZeroDivisionError
| SystemExit.

(** What a call gives: the value it returns, or the exception it raises. *)
Inductive result (A : Type) : Type :=
| Ok (a : A)
| Error (e : exn).
Arguments Ok {A} a.
Arguments Error {A} e.

(** A worker's code: a tree of atomic steps on the shared [world]. A step
    flagged [true] is a region between [lock.acquire()] and
    [lock.release()]; it can only be taken while the lock is free. *)
Inductive prog (A : Type) : Type :=
| Ret (a : A)
| Raise (e : exn)
| Act (locked : bool) (effect : world -> world) (next : world -> prog A).
Arguments Ret {A} a.
Arguments Raise {A} e.
Arguments Act {A} locked effect next.

(** One step given as a single function of the world it is taken in. *)
Definition step {A} (locked : bool) (f : world -> world * prog A) : prog A :=
  Act locked (fun w => fst (f w)) (fun w => snd (f w)).

Fixpoint prog_bind {A B} (k : A -> prog B) (p : prog A) : prog B :=
  match p with
  | Ret a => k a
  | Raise e => Raise e
  | Act l effect next => Act l effect (fun w => prog_bind k (next w))
  end.

#[global] Instance prog_ret : MRet prog := @Ret.
#[global] Instance prog_mbind : MBind prog := @prog_bind.

Inductive outcome (A : Type) : Type :=
| Returned (a : A)
| Raised (e : exn)
| Blocked.
Arguments Returned {A} a.
Arguments Raised {A} e.
Arguments Blocked {A}.

(** The code run by the main thread alone. *)
Fixpoint run {A} (p : prog A) (w : world) : world * outcome A :=
  match p with
  | Ret a => (w, Returned a)
  | Raise e => (w, Raised e)
  | Act l effect next =>
      if l && lock_held w then (w, Blocked) else run (next w) (effect w)
  end.

(** *** The file system calls *)
Definition fs_isdir (p : string) (w : world) : bool :=
  bool_decide (PosixPath.normpath p ∈ dirs (fs w)).

Definition fs_exists (p : string) (w : world) : bool :=
  fs_isdir p w || bool_decide (is_Some (files (fs w) !! PosixPath.normpath p)).

Definition put_file (p c : string) (w : world) : world :=
  set_fs {| dirs := dirs (fs w); files := <[PosixPath.normpath p := c]> (files (fs w)) |} w.

Definition add_dir (p : string) (w : world) : world :=
  set_fs {| dirs := {[PosixPath.normpath p]} ∪ dirs (fs w); files := files (fs w) |} w.

Section Code.
Context (E : env).

(** [os.mkdir(p)], as a function on the world. *)
Definition os_mkdir (p : string) (w : world) : world * option exn :=
  if fs_exists p w then (w, Some (FileExistsError p))
  else if denied E p then (w, Some (OSError p))
  else (add_dir p w, None).

(** The two argument types [write_file] accepts. *)
Inductive contents : Type :=
| Lines (l : list string)
| Text (s : string).

Definition header : string :=
  "/* file generated by yara deduper 0.2 @ " +:+ now E +:+ " */" +:+ nl +:+ nl.

(** The text the two calls of [f.write] in [write_file] send to the file:
    the header, then the contents, a list joined by empty lines without its
    blank members. *)
Definition file_text (c : contents) : string :=
  header +:+
  match c with
  | Lines l =>
      PyStr.join (nl +:+ nl)
        (filter (fun x => x ≠ "") (map strip l))
  | Text s => s
  end.

(** [write_file(filepath, contents)]. [io.open] and the end of the [with]
    block, which closes the file, are outside the [try]: an error there
    leaves [write_file]. An exception of [f.write] is caught and reported;
    the file is closed all the same, and holds what had reached it. *)
Definition write_file (filepath : string) (c : contents) : prog unit :=
  step false (fun w =>
    if fs_isdir filepath w || denied E filepath then (w, Raise (OSError filepath))
    else
      let partly :=
        put_file filepath (substring 0 (flushed E filepath) (file_text c)) w in
      match write_error E filepath with
      | Some err =>
          (print (nl +:+ "[!] Error writing " +:+ filepath +:+ ": " +:+ err)
             partly,
           if close_error E filepath then Raise (OSError filepath) else Ret tt)
      | None =>
          if close_error E filepath then (partly, Raise (OSError filepath))
          else (put_file filepath (file_text c) w, Ret tt)
      end).

(** The loop of [extract] over [encodings]: the first codec under which
    the read succeeds gives the content. [io.open] is outside the [try]: when
    it raises, the [OSError] leaves the loop and [extract]. *)
Fixpoint read_content (yara_file : string) (es : list encoding)
  : result (option string) :=
  match es with
  | [] => Ok None
  | e :: es' =>
      match decode E yara_file e with
      | NotOpened => Error (OSError yara_file)
      | Decoded content => Ok (Some content)
      | NotDecoded => read_content yara_file es'
      end
  end.

(** [rule.strip().strip("*/").strip().strip("/*").strip()] *)
Definition clean (rule : string) : string :=
  strip (strip_chars "/*" (strip (strip_chars "*/" (strip rule)))).

Definition is_comment (c : string) : bool :=
  startswith "/*" (strip c) || startswith "//" (strip c).

(** [extract(yara_file)]; [Ok None] is the tuple [(None, None, None)],
    [Error] the [OSError] of an [io.open] that fails. *)
Definition extract (yara_file : string)
  : result (option (list string * list string * list string)) :=
  match read_content yara_file encodings with
  | Error e => Error e
  | Ok None | Ok (Some "") => Ok None
  | Ok (Some content) =>
      match findall1 rules_re content with
      | [] => Ok (Some ([], [], []))
      | found =>
          let yara_rules := map clean found in
          let imports := findall1 import_re content in
          match findall 4 comments_re content with
          | [] => Ok (Some (imports, yara_rules, []))
          | subs =>
              let commented_yar_rules :=
                filter (fun c => c ≠ "")
                  (filter (fun c => is_comment c = true) (concat subs)) in
              Ok (Some (imports,
                        filter (fun x => contains x (PyStr.join "" commented_yar_rules) = false)
                          yara_rules,
                        commented_yar_rules))
          end
      end
  end.

(** [not l] for a list. *)
Definition falsy {A} (l : list A) : bool :=
  match l with
  | [] => true
  | _ => false
  end.

(** Lines 231-232: the name under which a rule block is registered.
    [None] is the [IndexError] of [splitlines()[0]]. *)
Definition rulename (r : string) : option string :=
  match first_line (strip r) with
  | None => None
  | Some line =>
      let name := strip (before_char "{" (strip line)) in
      Some (if contains ":" name then strip (before_char ":" r) else name)
  end.

(** The entry of [all_yara_rules] for the block [r] of the file [yf]. *)
Definition annotate (yf r : string) : string :=
  nl +:+ "// rule from: " +:+ yf +:+ nl +:+ strip r +:+ nl.

(** Lines 234-242, the region in which one block is registered. *)
Definition register (rulename yf r : string) (g : globals) : globals :=
  let d := <[rulename := default [] (rule_dict g !! rulename) ++ [yf]]> (rule_dict g) in
  if bool_decide (rulename ∈ rule_names g) then
    {| all_imports := all_imports g;
       all_yara_rules := all_yara_rules g;
       rule_names := rule_names g;
       total_duplicate_rules := total_duplicate_rules g + 1;
       total_rules := total_rules g;
       rule_dict := d |}
  else
    {| all_imports := all_imports g;
       all_yara_rules := {[annotate yf r]} ∪ all_yara_rules g;
       rule_names := {[rulename]} ∪ rule_names g;
       total_duplicate_rules := total_duplicate_rules g;
       total_rules := total_rules g;
       rule_dict := d |}.

(** Lines 209: [all_imports.update(imports)] *)
Definition update_imports (imports : list string) (g : globals) : globals :=
  {| all_imports := list_to_set imports ∪ all_imports g;
     all_yara_rules := all_yara_rules g;
     rule_names := rule_names g;
     total_duplicate_rules := total_duplicate_rules g;
     total_rules := total_rules g;
     rule_dict := rule_dict g |}.

(** Line 225: [total_rules += len(yar_rules)] *)
Definition count_rules (n : nat) (g : globals) : globals :=
  {| all_imports := all_imports g;
     all_yara_rules := all_yara_rules g;
     rule_names := rule_names g;
     total_duplicate_rules := total_duplicate_rules g;
     total_rules := total_rules g + n;
     rule_dict := rule_dict g |}.

(** The loop of lines 230-243; [deduped_content] is the local buffer. *)
Fixpoint register_all (yf : string) (yar_rules : list string)
    (deduped_content : string) : prog string :=
  match yar_rules with
  | [] => Ret deduped_content
  | r :: rest =>
      match rulename r with
      | None => Raise IndexError
      | Some name =>
          Act true
            (fun w => set_glob (register name yf r (glob w)) w)
            (fun w =>
               register_all yf rest
                 (if bool_decide (name ∈ rule_names (glob w))
                  then deduped_content
                  else deduped_content +:+ strip r +:+ nl +:+ nl))
      end
  end.

(** [if not os.path.exists(d): os.mkdir(d)], outside any region. *)
Definition ensure_dir (d : string) : prog unit :=
  step false (fun w =>
    (w, if fs_exists d w then Ret tt
        else step false (fun w' =>
               match os_mkdir d w' with
               | (w'', None) => (w'', Ret tt)
               | (w'', Some e) => (w'', Raise e)
               end))).

(** Lines 224-228: the region that counts the rules of a file and makes
    its output directory. An [os.mkdir] that raises leaves the region
    before [lock.release()]. *)
Definition count_and_mkdir (n : nat) (d : string) : prog unit :=
  step true (fun w =>
    let w1 := set_glob (count_rules n (glob w)) w in
    if fs_isdir d w1 then (w1, Ret tt)
    else match os_mkdir d w1 with
         | (w2, None) => (w2, Ret tt)
         | (w2, Some e) => (leak_lock w2, Raise e)
         end).

(** Lines 186-196: where the output for the file [yf] goes. *)
Definition yara_deduped_rules_path (yara_output_path : string) : string :=
  PosixPath.join2 yara_output_path "deduped_rules".
Definition yara_commeted_rules_path (yara_output_path : string) : string :=
  PosixPath.join2 yara_output_path "commented_rules".
Definition yf_rule_dir (yf : string) : string :=
  PosixPath.basename (PosixPath.normpath (PosixPath.dirname yf)).
Definition new_yf_rule_dir (yara_output_path yf : string) : string :=
  PosixPath.join2 (yara_deduped_rules_path yara_output_path) (yf_rule_dir yf).
Definition new_yf_commented_rule_dir (yara_output_path yf : string) : string :=
  PosixPath.join2 (yara_commeted_rules_path yara_output_path) (yf_rule_dir yf).
Definition yf_file_name (yf : string) : string := PosixPath.basename yf.

(** Lines 206-212: the imports of the file go to [all_imports]; the
    result is the local buffer [deduped_content]. *)
Definition merge_imports (imports : list string) : prog string :=
  if falsy imports then Ret ""
  else
    Act true (fun w => set_glob (update_imports imports (glob w)) w)
      (fun _ => Ret (PyStr.join "" imports +:+ nl +:+ nl +:+ nl)).

(** Lines 214-221: the commented rules are written to the tree of
    commented rules. *)
Definition write_commented (yara_output_path yf : string)
    (imports commented_yar_rules : list string) : prog unit :=
  if falsy commented_yar_rules then Ret tt
  else
    ensure_dir (new_yf_commented_rule_dir yara_output_path yf);;
    write_file
      (PosixPath.join2 (new_yf_commented_rule_dir yara_output_path yf)
         (yf_file_name yf))
      (Lines (if falsy imports then commented_yar_rules
              else imports ++ commented_yar_rules)).

(** Lines 223-246: the rules are counted, registered one by one, and
    those registered first are written to the tree of deduped rules. *)
Definition dedupe_rules (yara_output_path yf : string)
    (yar_rules : list string) (deduped_content : string) : prog unit :=
  if falsy yar_rules then Ret tt
  else
    count_and_mkdir (length yar_rules) (new_yf_rule_dir yara_output_path yf);;
    deduped_content ← register_all yf yar_rules deduped_content;
    write_file
      (PosixPath.join2 (new_yf_rule_dir yara_output_path yf) (yf_file_name yf))
      (Text deduped_content).

(** The body of the loop of [dedupe] for one file [yf]. *)
Definition dedupe_file (yara_output_path yf : string) : prog unit :=
  match extract yf with
  | Error e => Raise e
  | Ok None => Ret tt
  | Ok (Some (imports, yar_rules, commented_yar_rules)) =>
      if falsy imports && falsy yar_rules && falsy commented_yar_rules
      then Ret tt
      else
        deduped_content ← merge_imports imports;
        write_commented yara_output_path yf imports commented_yar_rules;;
        dedupe_rules yara_output_path yf yar_rules deduped_content
  end.

(** [dedupe(yara_files, yara_output_path)] *)
Fixpoint dedupe (yara_files : list string) (yara_output_path : string)
  : prog unit :=
  match yara_files with
  | [] => Ret tt
  | yf :: rest =>
      dedupe_file yara_output_path yf;; dedupe rest yara_output_path
  end.

(** [range(0, n, k)] for [k > 0]. *)
Definition py_range (n k : nat) : list nat :=
  map (fun j => j * k) (seq 0 ((n + k - 1) / k)).

(** Lines 258-265 of [dedupe_threaded]: the shards handed to the
    threads. [None] is the [ZeroDivisionError] or [ValueError] raised when
    the thread count or the shard size is zero. *)
Definition shards (spin_threads : nat) (yara_files : list string)
  : option (list (list string)) :=
  let total_items := length yara_files in
  let spin_threads :=
    if (total_items <=? spin_threads)%nat then total_items else spin_threads in
  match spin_threads with
  | 0 => None
  | _ =>
      let each_thread_items_count := total_items / spin_threads in
      match each_thread_items_count with
      | 0 => None
      | _ =>
          Some (map (fun i => take each_thread_items_count (drop i yara_files))
                  (py_range total_items each_thread_items_count))
      end
  end.

(** *** Threads *)

(** One step of a thread, when it can take one. *)
Definition thread_step (w : world) (p : prog unit) : world * prog unit :=
  match p with
  | Act l effect next => if l && lock_held w then (w, p) else (effect w, next w)
  | _ => (w, p)
  end.

(** The threads run one step at a time, in the order of [schedule]. *)
Fixpoint exec (schedule : list nat) (w : world) (threads : list (prog unit))
  : world * list (prog unit) :=
  match schedule with
  | [] => (w, threads)
  | i :: schedule' =>
      match threads !! i with
      | Some p =>
          exec schedule' (fst (thread_step w p))
            (<[i := snd (thread_step w p)]> threads)
      | None => exec schedule' w threads
      end
  end.

(** [join()] returns for a thread that returned or died of an exception. *)
Definition finished (p : prog unit) : bool :=
  match p with
  | Act _ _ _ => false
  | _ => true
  end.

Definition returned (p : prog unit) : bool :=
  match p with
  | Ret _ => true
  | _ => false
  end.

(** The threads [dedupe_threaded] starts. *)
Definition dedupe_threads (spin_threads : nat) (yara_files : list string)
    (out : string) : option (list (prog unit)) :=
  map (fun shard => dedupe shard out) <$> shards spin_threads yara_files.

(** *** After the dedupe: report, merged file and indexes *)

(** The three numbers of the final report: total rules, total rules
    after dedupe, total duplicate rules. *)
Definition report (g : globals) : nat * nat * nat :=
  (total_rules g, size (all_yara_rules g), total_duplicate_rules g).

(** [sorted(s)] for a set of strings. *)
Definition sorted (s : gset string) : list string :=
  merge_sort String.le (set_order E s).

(** Line 362: the text of [all_in_one.yar]. *)
Definition all_in_one (g : globals) : string :=
  PyStr.join nl (set_order E (all_imports g)) +:+ nl +:+ nl +:+
  PyStr.join (nl +:+ nl) (sorted (all_yara_rules g)).

Definition index_eligible (f : string) : bool :=
  negb (contains "all_in_one_rules.yar" f)
  && (endswith ".yar" f || endswith ".yara" f).

(** Lines 378-379: the files the indexes list. *)
Definition index_paths (listing : list (string * list string)) : list string :=
  flat_map (fun d => map (PosixPath.join2 (fst d)) (filter (fun f => index_eligible f = true) (snd d)))
    listing.

Definition dquote : string := String "034"%char "".

Definition include_line (f : string) : string :=
  "include " +:+ dquote +:+ f +:+ dquote.

(** Line 380 *)
Definition index_files (yara_files : list string) : string :=
  PyStr.join nl (map include_line yara_files).

(** [itertools.groupby]: runs of consecutive elements with equal keys. *)
Fixpoint groupby {A} (key : A -> string) (l : list A) : list (string * list A) :=
  match l with
  | [] => []
  | x :: l' =>
      match groupby key l' with
      | (k, g) :: gs =>
          if String.eqb (key x) k then (k, x :: g) :: gs
          else (key x, [x]) :: (k, g) :: gs
      | [] => [(key x, [x])]
      end
  end.

(** Lines 384-389: one index per directory. *)
Fixpoint write_dir_indexes (deduped : string)
    (groups : list (string * list (string * string))) : prog unit :=
  match groups with
  | [] => Ret tt
  | (key, group) :: rest =>
      write_file (PosixPath.join2 deduped (PosixPath.basename key +:+ "_index.yar"))
        (Text (PyStr.join nl
                 (map (fun file => include_line (fst file +:+ "/" +:+ snd file)) group)));;
      write_dir_indexes deduped rest
  end.

(** Lines 346-389 of [__main__], without the calls to [yara]. *)
Definition post_dedupe (out : string) : prog (nat * nat * nat) :=
  let yara_deduped_rules_path := yara_deduped_rules_path out in
  Act false (fun w => w) (fun w =>
    write_file (PosixPath.join2 yara_deduped_rules_path "all_in_one.yar")
      (Text (all_in_one (glob w)));;
    Act false (fun w' => w') (fun w' =>
      let yara_files := index_paths (walk E (fs w') yara_deduped_rules_path) in
      write_file (PosixPath.join2 yara_deduped_rules_path "index.yar")
        (Text (index_files yara_files));;
      write_dir_indexes yara_deduped_rules_path
        (groupby fst (map (fun fp => (PosixPath.dirname fp, PosixPath.basename fp)) yara_files));;
      Ret (report (glob w)))).

(** [__spin_threads__] *)
Definition spin_threads : nat := 10.

(** [__main__] from line 333 on, for the enumerated [yara_files].
    [threaded] is [None] without [-t]; with [-t] it carries the order in
    which the threads take their steps. [Blocked] is a main thread that
    waits for ever in [join()]. *)
Definition main (threaded : option (list nat)) (yara_files : list string)
    (out : string) (w : world) : world * outcome (nat * nat * nat) :=
  if falsy yara_files then (w, Raised SystemExit)
  else
    match threaded with
    | None => run (dedupe yara_files out;; post_dedupe out) w
    | Some schedule =>
        match dedupe_threads spin_threads yara_files out with
        | None => (w, Raised ZeroDivisionError)
        | Some threads =>
            let r := exec schedule w threads in
            if forallb finished (snd r) then run (post_dedupe out) (fst r)
            else (fst r, Blocked)
        end
    end.

End Code.

(** ** Concrete runs *)

(** A listing of the output tree in the manner of [os.walk]: the directory
    [top] with its regular files, then each directory directly below it
    with its regular files. *)
Definition strip_prefix (pre s : string) : option string :=
  if startswith pre s
  then Some (substring (String.length pre) (String.length s - String.length pre) s)
  else None.

Definition names_in (d : string) (paths : list string) : list string :=
  omap (fun p =>
          match strip_prefix (d +:+ "/") p with
          | Some f => if PosixPath.has_slash f then None else Some f
          | None => None
          end) paths.

Definition walk_tree (t : filesystem) (top : string) : list (string * list string) :=
  let paths := (map_to_list (files t)).*1 in
  (top, names_in top paths)
  :: map (fun d => (top +:+ "/" +:+ d, names_in (top +:+ "/" +:+ d) paths))
       (names_in top (elements (dirs t))).

(** A file that every codec reads as the same text, or that no codec can
    read. *)
Definition decoded (text : option string) : opened :=
  match text with
  | Some content => Decoded content
  | None => NotDecoded
  end.

(** An environment without faults, in which every codec reads the same
    text and sets are iterated in the order of [elements]. *)
Definition plain_env (source : string -> option string) : env :=
  {| decode := fun f _ => decoded (source f);
     now := "Nov 04, 2026 10:00:00 AM UTC";
     denied := fun _ => false;
     write_error := fun _ => None;
     flushed := fun _ => 0;
     close_error := fun _ => false;
     set_order := elements;
     walk := walk_tree |}.

(** The world at line 333: nothing registered, the three output directories
    made by the lines 313-325. *)
Definition start (out : string) : world :=
  {| glob := globals0;
     fs := {| dirs := {[PosixPath.normpath out;
                        PosixPath.normpath (PosixPath.join2 out "commented_rules");
                        PosixPath.normpath (PosixPath.join2 out "deduped_rules")]};
              files := ∅ |};
     stdout := [];
     lock_held := false |}.

(** * Vocabulary of the statements *)

(** The definitions below are not part of the program: they are the
    notions the theorems are stated with, and the inputs of the concrete
    runs. *)

Definition empty_file_env : env :=
  plain_env (fun f => if String.eqb f "rules/empty.yar" then Some "" else None).

(** The slices [l[i:i+k]] for [i] in [range(0, len(l), k)]. *)
Definition slices {A} (k : nat) (l : list A) : list (list A) :=
  map (fun i => take k (drop i l)) (py_range (length l) k).

Definition eleven_files : list string :=
  ["r/a.yar"; "r/b.yar"; "r/c.yar"; "r/d.yar"; "r/e.yar"; "r/f.yar";
   "r/g.yar"; "r/h.yar"; "r/i.yar"; "r/j.yar"; "r/k.yar"].

Definition chars (s : string) : list ascii := list_ascii_of_string s.

(** Where the name of a block stops: at the first colon, opening brace
    or line boundary. *)
Definition name_stop (c : ascii) : bool :=
  Ascii.eqb ":" c || (Ascii.eqb "{" c || is_linebreak c).

(** [matches r s w s']: read from the position [s], the pattern [r] can
    match the text [w] and end at the position [s']. *)
Inductive matches : regex → cursor → string → cursor → Prop :=
| m_eps (s : cursor) : matches Eps s "" s
| m_chr (c : ascii) (t : string) (s : cursor) :
    rest s = String c t → matches (Chr c) s (String c "") (advance c t s)
| m_cls (p : ascii → bool) (a : ascii) (t : string) (s : cursor) :
    rest s = String a t → p a = true →
    matches (Cls p) s (String a "") (advance a t s)
| m_bol s : at_bol s = true → matches Bol s "" s
| m_eol s : at_eol s = true → matches Eol s "" s
| m_seq r1 r2 s w1 s1 w2 s2 :
    matches r1 s w1 s1 → matches r2 s1 w2 s2 →
    matches (Seq r1 r2) s (w1 +:+ w2) s2
| m_alt_l r1 r2 s w s' : matches r1 s w s' → matches (Alt r1 r2) s w s'
| m_alt_r r1 r2 s w s' : matches r2 s w s' → matches (Alt r1 r2) s w s'
| m_star_0 g r s : matches (Star g r) s "" s
| m_star_S g r s w1 s1 w2 s2 :
    matches r s w1 s1 → w1 ≠ "" → matches (Star g r) s1 w2 s2 →
    matches (Star g r) s (w1 +:+ w2) s2
| m_grp n r s w s' :
    matches r s w s' → matches (Grp n r) s w (set_cap n w s').

(** The rule blocks of a text: the matches of [rules_re], cleaned. *)
Definition rule_blocks (content : string) : list string :=
  map clean (findall1 rules_re content).

(** The comment blocks of a text: the matches of [comments_re]. *)
Definition comment_blocks (content : string) : list string :=
  findall1 comments_re content.

(** The comments [extract] keeps: the groups of the matches of
    [comments_re] that, trimmed, start with a comment opener. *)
Definition commented_of (content : string) : list string :=
  filter (fun c => c ≠ "")
    (filter (fun c => is_comment c = true)
       (concat (findall 4 comments_re content))).

(** The rule blocks [extract] keeps: those that do not occur in the
    concatenation of the kept comments. *)
Definition live_blocks (content : string) : list string :=
  filter (fun x => contains x (PyStr.join "" (commented_of content)) = false)
    (rule_blocks content).









(** Two environments that read the same sources, refuse the same paths
    and close the same files; they may differ in the clock, in the errors
    of [f.write] and what these leave in the file, in the order of sets and
    in the listing of directories. *)
Definition same_inputs (E E' : env) : Prop :=
  (∀ f e, decode E f e = decode E' f e) ∧ (∀ p, denied E p = denied E' p)
  ∧ (∀ p, close_error E p = close_error E' p).

(** Two worlds with the same globals, the same lock state, the same
    directories and files of the same names; the texts of the files and of
    the diagnostics may differ. *)
Definition same_shape (w w' : world) : Prop :=
  glob w = glob w' ∧ lock_held w = lock_held w'
  ∧ dirs (fs w) = dirs (fs w') ∧ dom (files (fs w)) = dom (files (fs w')).

(** Two programs that take the same steps on worlds of the same shape. *)
Fixpoint alike {A} (p p' : prog A) : Prop :=
  match p, p' with
  | Ret a, Ret a' => a = a'
  | Raise e, Raise e' => e = e'
  | Act l effect next, Act l' effect' next' =>
      l = l' ∧ ∀ w w', same_shape w w' →
                 same_shape (effect w) (effect' w') ∧ alike (next w) (next' w')
  | _, _ => False
  end.

(** The two files of the scenario of the specification. *)
Definition two_files (f : string) : option string :=
  if String.eqb f "a/x.yar" then Some "rule Foo { condition: true }"
  else if String.eqb f "b/y.yar" then
    Some ("rule Foo { condition: false }" +:+ nl +:+ "rule Bar { condition: true }")
  else None.

(** Every write of the contents to an open file fails; the header stays in
    the file. *)
Definition disk_full_env : env :=
  {| decode := fun f _ => decoded (two_files f);
     now := "Nov 04, 2026 10:00:00 AM UTC";
     denied := fun _ => false;
     write_error := fun _ => Some "[Errno 28] No space left on device";
     flushed := fun _ => String.length (header (plain_env two_files));
     close_error := fun _ => false;
     set_order := elements;
     walk := walk_tree |}.

(** The directory for the first file cannot be made. *)
Definition no_mkdir_env : env :=
  {| decode := fun f _ => decoded (two_files f);
     now := "Nov 04, 2026 10:00:00 AM UTC";
     denied := fun p => String.eqb p "out/deduped_rules/a";
     write_error := fun _ => None;
     flushed := fun _ => 0;
     close_error := fun _ => false;
     set_order := elements;
     walk := walk_tree |}.

(** The output file for the first file cannot be opened. *)
Definition no_open_env : env :=
  {| decode := fun f _ => decoded (two_files f);
     now := "Nov 04, 2026 10:00:00 AM UTC";
     denied := fun p => String.eqb p "out/deduped_rules/a/x.yar";
     write_error := fun _ => None;
     flushed := fun _ => 0;
     close_error := fun _ => false;
     set_order := elements;
     walk := walk_tree |}.

(** Closing the output file for the first file fails, with nothing
    flushed. *)
Definition no_close_env : env :=
  {| decode := fun f _ => decoded (two_files f);
     now := "Nov 04, 2026 10:00:00 AM UTC";
     denied := fun _ => false;
     write_error := fun _ => None;
     flushed := fun _ => 0;
     close_error := fun p => String.eqb p "out/deduped_rules/a/x.yar";
     set_order := elements;
     walk := walk_tree |}.

(** The first file cannot be opened for reading. *)
Definition no_read_env : env :=
  {| decode := fun f _ => if String.eqb f "a/x.yar" then NotOpened
                          else decoded (two_files f);
     now := "Nov 04, 2026 10:00:00 AM UTC";
     denied := fun _ => false;
     write_error := fun _ => None;
     flushed := fun _ => 0;
     close_error := fun _ => false;
     set_order := elements;
     walk := walk_tree |}.

(** Every step of the program keeps the property [I] of the world. *)
Fixpoint preserves (I : world → Prop) {A} (p : prog A) : Prop :=
  match p with
  | Act _ effect next => ∀ w, I w → I (effect w) ∧ preserves I (next w)
  | _ => True
  end.

(** A path without line feed. *)
Definition newline_free (p : string) : Prop :=
  existsb (Ascii.eqb LF) (chars p) = false.

(** What the globals record of the blocks registered first: a list of
    triples (name, file, block), one per name. *)
Definition kept_blocks (P : string → Prop) (g : globals)
    (l : list (string * (string * string))) : Prop :=
  NoDup l.*1
  ∧ rule_names g = list_to_set l.*1
  ∧ all_yara_rules g = list_to_set ((fun k => annotate k.2.1 k.2.2) <$> l)
  ∧ dom (rule_dict g) = rule_names g
  ∧ Forall (fun k => rulename k.2.2 = Some k.1 ∧ P k.2.1
                     ∧ ∃ rest, rule_dict g !! k.1 = Some (k.2.1 :: rest)) l.

Definition registry_ok (P : string → Prop) (w : world) : Prop :=
  ∃ l, kept_blocks P (glob w) l.

(** The kept set has as many entries as there are names; every name has
    the entry of a block of that name from the first file recorded for the
    name; and every entry is such an entry. *)
Definition one_entry_per_name (g : globals) : Prop :=
  size (all_yara_rules g) = size (rule_names g)
  ∧ (∀ name, name ∈ rule_names g →
       ∃ yf r rest, rulename r = Some name
                    ∧ rule_dict g !! name = Some (yf :: rest)
                    ∧ annotate yf r ∈ all_yara_rules g)
  ∧ (∀ e, e ∈ all_yara_rules g →
       ∃ name yf r rest, e = annotate yf r
                         ∧ rulename r = Some name
                         ∧ name ∈ rule_names g
                         ∧ rule_dict g !! name = Some (yf :: rest)).

(** A registration: the name, the file and the text of a block that
    reaches the lines 233-243. *)
Abbreviation registration := (string * (string * string))%type.

(** The blocks of a file in the order in which the loop of line 230 takes
    them, each with the name line 231 computes for it. *)
Definition file_blocks (E : env) (yf : string) : list registration :=
  match extract E yf with
  | Ok (Some (_, yar_rules, _)) =>
      omap (fun r => (fun name => (name, (yf, r))) <$> rulename r) yar_rules
  | _ => []
  end.

(** The blocks of a list of files, file after file. *)
Definition blocks_of (E : env) (yara_files : list string) : list registration :=
  concat (map (file_blocks E) yara_files).

(** The block [b] is at the place [i] of the log, and no block before it
    has its name. *)
Definition is_first (log : list registration) (i : nat) (b : registration)
  : Prop :=
  log !! i = Some b ∧ ∀ j b', j < i → log !! j = Some b' → b'.1 ≠ b.1.

(** The globals after the registrations of [log], in this order: the
    names are the names of the log; the kept set holds the entry of the
    first block of every name and nothing else; every other block of the
    log was counted as a duplicate. *)
Definition logged (log : list registration) (g : globals) : Prop :=
  (∀ name, name ∈ rule_names g ↔ ∃ b, b ∈ log ∧ b.1 = name)
  ∧ (∀ e, e ∈ all_yara_rules g
          ↔ ∃ i b, is_first log i b ∧ e = annotate b.2.1 b.2.2)
  ∧ total_duplicate_rules g + size (rule_names g) = length log.

(** [merges ds log]: the log is made of the lists [ds], one per thread,
    each in its own order. *)
Inductive merges {A} : list (list A) → list A → Prop :=
| merges_nil n : merges (replicate n []) []
| merges_snoc ds log i d b :
    merges ds log → ds !! i = Some d →
    merges (<[i := d ++ [b]]> ds) (log ++ [b]).

(** The names, the kept set and the count of duplicates are the same. *)
Definition same_registry (g g' : globals) : Prop :=
  rule_names g' = rule_names g
  ∧ all_yara_rules g' = all_yara_rules g
  ∧ total_duplicate_rules g' = total_duplicate_rules g.

(** [registers l p]: the steps of [p] that touch the registry are the
    registrations of [l], in this order; [p] returns only after the last
    one. *)
Fixpoint registers (l : list registration) {A} (p : prog A) : Prop :=
  match p with
  | Ret _ => l = []
  | Raise _ => True
  | Act _ effect next =>
      ∀ w, (same_registry (glob w) (glob (effect w)) ∧ registers l (next w))
           ∨ ∃ b l', l = b :: l'
                     ∧ glob (effect w) = register b.1 b.2.1 b.2.2 (glob w)
                     ∧ registers l' (next w)
  end.

(** What the threads have registered and what they still have to. *)
Definition threads_log (bs : list (list registration))
    (ds : list (list registration)) (threads : list (prog unit)) : Prop :=
  length ds = length bs ∧ length threads = length bs
  ∧ ∀ i bsi, bs !! i = Some bsi →
      ∃ d l p, ds !! i = Some d ∧ threads !! i = Some p
               ∧ bsi = d ++ l ∧ registers l p.

(** Two files in one directory, the name of the second with a line feed
    in it: [d/x.yar] holds a block named [rule a] whose text goes on, after
    its first line [rule a {.yar], with the block [rule b { condition: true }];
    the file named [d/x.yar], line feed, [rule a {.yar] holds that block
    [rule b] alone. *)
Definition colliding_path : string := "d/x.yar" +:+ nl +:+ "rule a {.yar".

Definition colliding_files (f : string) : option string :=
  if String.eqb f "d/x.yar" then
    Some ("rule a {.yar" +:+ nl +:+ "rule b { condition: true }")
  else if String.eqb f colliding_path then Some "rule b { condition: true }"
  else None.

(** The registrations counted so far: names and duplicates. *)
Definition registered (g : globals) : nat :=
  size (rule_names g) + total_duplicate_rules g.

(** [owes Q d p]: the thread running [p] has counted [d] rules in
    [total_rules] that it has not registered yet; every step moves the
    difference between [total_rules] and the registrations by as much as
    it moves the debt, and when [p] returns [a] the debt left satisfies
    [Q a]. *)
Fixpoint owes {A} (Q : A → nat → Prop) (d : nat) (p : prog A) : Prop :=
  match p with
  | Ret a => Q a d
  | Raise _ => True
  | Act _ effect next =>
      ∀ w, ∃ d',
        total_rules (glob (effect w)) + registered (glob w) + d
        = total_rules (glob w) + registered (glob (effect w)) + d'
        ∧ owes Q d' (next w)
  end.

Definition settled (_ : unit) (d : nat) : Prop := d = 0.


Definition import_pe : string := "import " +:+ dquote +:+ "pe" +:+ dquote.

Definition import_math : string := "import " +:+ dquote +:+ "math" +:+ dquote.




(** An environment that iterates over sets in an order of its own. *)
Definition ordered_env (order : gset string → list string)
    (source : string → option string) : env :=
  {| decode := fun f _ => decoded (source f);
     now := "Nov 04, 2026 10:00:00 AM UTC";
     denied := fun _ => false;
     write_error := fun _ => None;
     flushed := fun _ => 0;
     close_error := fun _ => false;
     set_order := order;
     walk := walk_tree |}.

Definition two_imports (f : string) : option string :=
  if String.eqb f "a/x.yar" then
    Some (import_math +:+ nl +:+ import_pe +:+ nl
          +:+ "rule Foo { condition: true }")
  else None.

Definition three_files (f : string) : option string :=
  if String.eqb f "a/x.yar" then Some "rule Foo { condition: true }"
  else if String.eqb f "b/y.yar" then Some "rule Bar { condition: true }"
  else if String.eqb f "c/z.yar" then Some "rule Foo { condition: false }"
  else None.

(** ** Notions of the further properties *)

(** Every exception the program can end with satisfies [Q]. *)
Fixpoint raises_only {A} (Q : exn → Prop) (p : prog A) : Prop :=
  match p with
  | Ret _ => True
  | Raise e => Q e
  | Act _ _ next => ∀ w, raises_only Q (next w)
  end.

(** The errors of [os.mkdir] and [io.open]. *)
Definition is_os_error (e : exn) : Prop :=
  match e with
  | OSError _ | FileExistsError _ => True
  | _ => False
  end.

(** The exception a program has just ended with. *)
Definition raised {A} (p : prog A) : option exn :=
  match p with
  | Raise e => Some e
  | _ => None
  end.

(** [every_step R p]: every atomic step of [p], flagged [l], that leads
    from a world [w] to a world [w'] and leaves a program that has ended
    with the exception [r] or has not ([None]), satisfies [R l w w' r]. *)
Fixpoint every_step {A} (R : bool → world → world → option exn → Prop)
    (p : prog A) : Prop :=
  match p with
  | Act l effect next =>
      ∀ w, R l w (effect w) (raised (next w)) ∧ every_step R (next w)
  | _ => True
  end.

(** The two directories and the two files of the output tree that belong
    to the input file [yf]. *)
Definition out_dirs (out yf : string) : list string :=
  [new_yf_commented_rule_dir out yf; new_yf_rule_dir out yf].

Definition out_files (out yf : string) : list string :=
  [PosixPath.join2 (new_yf_commented_rule_dir out yf) (yf_file_name yf);
   PosixPath.join2 (new_yf_rule_dir out yf) (yf_file_name yf)].

(** The atomic steps of the body of the loop of [dedupe] for the file
    [yf]: what a step does to the world, whether it is taken under the lock,
    and whether it ends the pass with an exception. *)
Inductive dedupe_step (E : env) (out yf : string)
  : bool → world → world → option exn → Prop :=
| step_imports imports yar_rules commented w r :
    extract E yf = Ok (Some (imports, yar_rules, commented)) →
    dedupe_step E out yf true
      w (set_glob (update_imports imports (glob w)) w) r
| step_probe w r :
    dedupe_step E out yf false w w r
| step_fail w e :
    is_os_error e →
    dedupe_step E out yf false w w (Some e)
| step_mkdir d w r :
    d ∈ out_dirs out yf →
    dedupe_step E out yf false w (add_dir d w) r
| step_write p c w r :
    p ∈ out_files out yf →
    write_error E p = None →
    dedupe_step E out yf false w (put_file p c w) r
| step_write_error p c err w r :
    p ∈ out_files out yf →
    write_error E p = Some err →
    dedupe_step E out yf false
      w (print (nl +:+ "[!] Error writing " +:+ p +:+ ": " +:+ err)
           (put_file p c w)) r
| step_count n w r :
    dedupe_step E out yf true
      w (set_glob (count_rules n (glob w)) w) r
| step_count_mkdir n d w r :
    d ∈ out_dirs out yf →
    dedupe_step E out yf true
      w (add_dir d (set_glob (count_rules n (glob w)) w)) r
| step_count_fail n w e :
    is_os_error e →
    dedupe_step E out yf true
      w (leak_lock (set_glob (count_rules n (glob w)) w)) (Some e)
| step_register name r imports yar_rules commented w x :
    rulename r = Some name →
    extract E yf = Ok (Some (imports, yar_rules, commented)) →
    r ∈ yar_rules →
    dedupe_step E out yf true
      w (set_glob (register name yf r (glob w)) w) x.

(** What a step does to the files and to the diagnostics of [write_file]:
    nothing, or it writes one file whose [f.write] does not fail and reports
    nothing, or it writes a file whose [f.write] fails and prints the
    message of [write_file] for this file and this error. *)
Inductive reported (E : env) : world → world → Prop :=
| reported_none w w' :
    files (fs w') = files (fs w) → stdout w' = stdout w → reported E w w'
| reported_written p c w :
    write_error E p = None → reported E w (put_file p c w)
| reported_failed p c err w :
    write_error E p = Some err →
    reported E w (print (nl +:+ "[!] Error writing " +:+ p +:+ ": " +:+ err)
                    (put_file p c w)).

(** A step leaves the lock as it is, unless it ends its thread with an
    exception. *)
Definition lock_kept (l : bool) (w w' : world) (r : option exn) : Prop :=
  lock_held w' = lock_held w ∨ r ≠ None.

(** The steps of a pass over the files [yara_files]. *)
Definition pass_step (E : env) (out : string) (yara_files : list string)
    (l : bool) (w w' : world) (r : option exn) : Prop :=
  ∃ yf, yf ∈ yara_files ∧ dedupe_step E out yf l w w' r.

(** The globals [g] hold all that the globals [g0] held: the sets have
    only gained elements, the counters have not gone down, and every list of
    [rule_dict] has only been extended at its end. *)
Definition grows (g0 g : globals) : Prop :=
  all_imports g0 ⊆ all_imports g
  ∧ all_yara_rules g0 ⊆ all_yara_rules g
  ∧ rule_names g0 ⊆ rule_names g
  ∧ total_duplicate_rules g0 ≤ total_duplicate_rules g
  ∧ total_rules g0 ≤ total_rules g
  ∧ ∀ name l, rule_dict g0 !! name = Some l →
              ∃ l', rule_dict g !! name = Some (l ++ l').

(** The tree [t] is the tree [t0] with directories and files made or
    rewritten at the places of the output tree that belong to the files
    [yara_files], and nowhere else; nothing of [t0] is gone. *)
Definition tree_extends (out : string) (yara_files : list string)
    (t0 t : filesystem) : Prop :=
  dirs t0 ⊆ dirs t
  ∧ dom (files t0) ⊆ dom (files t)
  ∧ (∀ d, d ∈ dirs t →
       d ∈ dirs t0
       ∨ ∃ yf d', yf ∈ yara_files ∧ d' ∈ out_dirs out yf
                  ∧ d = PosixPath.normpath d')
  ∧ (∀ p, files t !! p = files t0 !! p
          ∨ ∃ yf p', yf ∈ yara_files ∧ p' ∈ out_files out yf
                     ∧ p = PosixPath.normpath p').

(** The files [rule_dict] records beyond the first one of each name:
    these are the occurrences the report lists as duplicates. *)
Definition surplus (g : globals) : nat :=
  sum_list_with (fun kv : string * list string => length kv.2 - 1)
    (map_to_list (rule_dict g)).

(** The books of the registry agree: the keys of [rule_dict] are the
    names, no name has an empty list of files, and the files beyond the
    first of each name are as many as [total_duplicate_rules]. *)
Definition ledger_ok (g : globals) : Prop :=
  dom (rule_dict g) = rule_names g
  ∧ (∀ name l, rule_dict g !! name = Some l → l ≠ [])
  ∧ surplus g = total_duplicate_rules g.

(** [captures r n w]: the text [w] is matched by a group of number [n]
    inside the pattern [r]. *)
Fixpoint captures (r : regex) (n : nat) (w : string) : Prop :=
  match r with
  | Grp m r' => (m = n ∧ ∃ s s', matches r' s w s') ∨ captures r' n w
  | Seq r1 r2 | Alt r1 r2 => captures r1 n w ∨ captures r2 n w
  | Star _ r' => captures r' n w
  | _ => False
  end.

(** What the globals [g] hold beyond the globals [g0] was found in the
    files [yara_files]: an import is an import [extract] returns for one of
    the files, a kept entry is the annotated text of a rule block [extract]
    returns for one of them, and a name is the name of such a block. *)
Definition found_in (E : env) (yara_files : list string) (g0 g : globals)
  : Prop :=
  (∀ i, i ∈ all_imports g →
     i ∈ all_imports g0
     ∨ ∃ yf imports yar_rules commented,
         yf ∈ yara_files
         ∧ extract E yf = Ok (Some (imports, yar_rules, commented))
         ∧ i ∈ imports)
  ∧ (∀ e, e ∈ all_yara_rules g →
       e ∈ all_yara_rules g0
       ∨ ∃ yf imports yar_rules commented r,
           yf ∈ yara_files
           ∧ extract E yf = Ok (Some (imports, yar_rules, commented))
           ∧ r ∈ yar_rules ∧ e = annotate yf r)
  ∧ (∀ name, name ∈ rule_names g →
       name ∈ rule_names g0
       ∨ ∃ yf imports yar_rules commented r,
           yf ∈ yara_files
           ∧ extract E yf = Ok (Some (imports, yar_rules, commented))
           ∧ r ∈ yar_rules ∧ rulename r = Some name).

(** The number of steps a program takes when it is run alone from the
    world [w], and the program that is left of it then. *)
Fixpoint steps {A} (p : prog A) (w : world) : nat :=
  match p with
  | Act l effect next =>
      if l && lock_held w then 0 else S (steps (next w) (effect w))
  | _ => 0
  end.

Fixpoint rest_of {A} (p : prog A) (w : world) : prog A :=
  match p with
  | Act l effect next =>
      if l && lock_held w then p else rest_of (next w) (effect w)
  | _ => p
  end.

(** The schedule in which the thread [i] runs as far as it can, then the
    thread [i + 1], and so on. *)
Fixpoint one_by_one (i : nat) (threads : list (prog unit)) (w : world)
  : list nat :=
  match threads with
  | [] => []
  | p :: threads' =>
      replicate (steps p w) i ++ one_by_one (S i) threads' (run p w).1
  end.

(** The shape of a rule block: some qualifier text, the keyword, a white
    space, a header, an opening brace, a body that holds the word
    [condition], a white space and the closing brace. *)
Definition rule_shaped (r : string) : Prop :=
  ∃ pre a hdr body tail b,
    r = pre +:+ "rule" +:+ String a hdr +:+ "{" +:+ body +:+ "condition"
          +:+ tail +:+ String b "}"
    ∧ forallb rule_prefix_class (chars pre) = true
    ∧ isspace a = true
    ∧ hdr ≠ ""
    ∧ forallb rule_header_class (chars hdr) = true
    ∧ isspace b = true.

(** The name of a directory as a path component: not empty, without a
    slash, and neither [.] nor [..]. *)
Definition plain_name (d : string) : Prop :=
  PosixPath.has_slash d = false ∧ d ≠ "" ∧ d ≠ "." ∧ d ≠ "..".

(** The blocks of a file that are registered first when the names
    [names] are taken already: a block whose name is among them, or is the
    name of an earlier block of the file, is a duplicate. *)
Fixpoint first_registered (names : gset string) (yar_rules : list string)
  : list string :=
  match yar_rules with
  | [] => []
  | r :: rest =>
      match rulename r with
      | Some name =>
          if bool_decide (name ∈ names) then first_registered names rest
          else r :: first_registered ({[name]} ∪ names) rest
      | None => []
      end
  end.

(** The text of the blocks in the artifact of a file: each block trimmed
    and followed by an empty line. *)
Fixpoint blocks_text (blocks : list string) : string :=
  match blocks with
  | [] => ""
  | r :: rest => strip r +:+ nl +:+ nl +:+ blocks_text rest
  end.

(** A text with a comment and a rule block. *)
Definition comment_and_rule_text : string :=
  "/* note */" +:+ nl +:+ "rule Foo { condition: true }".

Definition comment_and_rule_env : env :=
  plain_env (fun f =>
    if String.eqb f "rules/n.yar" then Some comment_and_rule_text else None).

(** A text with an import and a comment, and no rule block. *)
Definition note_only_text : string :=
  import_pe +:+ nl +:+ "// just a note".

Definition note_only_env : env :=
  plain_env (fun f =>
    if String.eqb f "rules/note.yar" then Some note_only_text else None).

(** * Verification *)

(** ** C10: files with empty content *)

Lemma read_content_first E yf (pre post : list encoding) e c :
  Forall (fun e' => decode E yf e' = NotDecoded) pre →
  decode E yf e = Decoded c →
  read_content E yf (pre ++ e :: post) = Ok (Some c).
Proof.
  induction 1 as [|e' pre He' _ IH]; simpl; intros Hc.
  - by rewrite Hc.
  - rewrite He'. auto.
Qed.

Lemma read_content_none E yf es :
  Forall (fun e => decode E yf e = NotDecoded) es → read_content E yf es = Ok None.
Proof. induction 1 as [|e es He _ IH]; simpl; [done|]. by rewrite He. Qed.

(** C10. A file that some codec of the list decodes, all earlier codecs
    failing, to the empty text gives [extract] the result (None, None,
    None), the result of a file that no codec decodes; the pass of [dedupe]
    over it takes no step at all: no file or directory is made and no
    counter moves. *)
Theorem C10_empty_content_is_skipped
    (E : env) (yf out : string) (pre post : list encoding) (e : encoding) :
  encodings = pre ++ e :: post →
  Forall (fun e' => decode E yf e' = NotDecoded) pre →
  decode E yf e = Decoded "" →
  extract E yf = Ok None
  ∧ (∀ E', Forall (fun e' => decode E' yf e' = NotDecoded) encodings →
           extract E' yf = extract E yf)
  ∧ dedupe_file E out yf = Ret tt
  ∧ ∀ w, run (dedupe E [yf] out) w = (w, Returned tt).
Proof.
  intros Henc Hpre He.
  assert (Hx : extract E yf = Ok None).
  { unfold extract. rewrite Henc, (read_content_first E yf pre post e ""); done. }
  assert (Hd : dedupe_file E out yf = Ret tt).
  { unfold dedupe_file. by rewrite Hx. }
  split; [done|]. split.
  - intros E' Hall. rewrite Hx. unfold extract.
    by rewrite (read_content_none E' yf encodings Hall).
  - split; [done|]. intros w. simpl. by rewrite Hd.
Qed.

Lemma C10_empty_content_is_skipped_witness :
  extract empty_file_env "rules/empty.yar" = Ok None
  ∧ run (dedupe empty_file_env ["rules/empty.yar"] "out") (start "out")
    = (start "out", Returned tt).
Proof.
  destruct (C10_empty_content_is_skipped empty_file_env "rules/empty.yar" "out"
              [] [cp1252; windows_1250; windows_1252; ascii_codec] utf_8)
    as (H1 & _ & _ & H4).
  - reflexivity.
  - constructor.
  - reflexivity.
  - split; [exact H1 | apply H4].
Defined.

(** ** C5: the shards of [dedupe_threaded] *)

Section Shards.
Context {A : Type}.
Implicit Types l : list A.

Lemma range_count_0 k : (0 + k - 1) / k = 0.
Proof.
  destruct k as [|k]; [done|]. apply Nat.div_small. lia.
Qed.

Lemma range_count_S n k :
  0 < k → 0 < n → (n + k - 1) / k = S ((n - k + k - 1) / k).
Proof.
  intros Hk Hn. destruct (decide (k ≤ n)) as [Hle|Hlt].
  - replace (n + k - 1) with ((n - k + k - 1) + 1 * k) by lia.
    rewrite Nat.div_add by lia. lia.
  - rewrite (Nat.div_small (n - k + k - 1) k) by lia.
    symmetry. apply (Nat.div_unique _ _ _ (n - 1)); lia.
Qed.

Lemma slices_nil k : slices k (@nil A) = [].
Proof. unfold slices, py_range. cbn [length]. by rewrite range_count_0. Qed.

Lemma slices_cons k l :
  0 < k → l ≠ [] → slices k l = take k l :: slices k (drop k l).
Proof.
  intros Hk Hl. unfold slices, py_range.
  assert (0 < length l) by (destruct l; simpl; [done|lia]).
  rewrite (range_count_S (length l) k) by done.
  rewrite length_drop. simpl. rewrite drop_0. f_equal.
  rewrite <- seq_shift, !map_map.
  apply map_ext. intros j. rewrite drop_drop. done.
Qed.

Lemma slices_concat k l : 0 < k → concat (slices k l) = l.
Proof.
  intros Hk. remember (length l) as n eqn:Hn.
  revert l Hn. induction (lt_wf n) as [n _ IH]. intros l ->.
  destruct l as [|a l]; [by rewrite slices_nil|].
  rewrite slices_cons by done. cbn [concat].
  rewrite (IH (length (drop k (a :: l)))); [apply take_drop| |done].
  rewrite length_drop. simpl. lia.
Qed.

Lemma slices_length k l : length (slices k l) = (length l + k - 1) / k.
Proof. unfold slices, py_range. by rewrite !length_map, length_seq. Qed.

Lemma slices_lookup k l i sh :
  slices k l !! i = Some sh → sh = take k (drop (i * k) l).
Proof.
  unfold slices, py_range. rewrite !list_lookup_fmap.
  destruct (seq 0 _ !! i) as [j|] eqn:Hj; [|done].
  apply lookup_seq in Hj as [-> _]. simpl. by intros [= <-].
Qed.

(** Every slice but the last is full; the last is not empty. *)
Lemma slices_lookup_length k l i sh :
  0 < k → slices k l !! i = Some sh →
  0 < length sh ≤ k ∧ (S i < length (slices k l) → length sh = k).
Proof.
  intros Hk Hi. pose proof (lookup_lt_Some _ _ _ Hi) as Hlt.
  apply slices_lookup in Hi as ->. rewrite slices_length in *.
  rewrite length_take, length_drop.
  assert (Hb : i * k < length l).
  { destruct (decide (i * k < length l)) as [|Hge]; [done|].
    assert ((length l + k - 1) / k < S i); [|lia].
    apply Nat.Div0.div_lt_upper_bound. nia. }
  split; [lia|]. intros HS.
  assert (S i * k ≤ length l); [|lia].
  destruct (decide (S i * k ≤ length l)) as [|Hgt]; [done|].
  assert ((length l + k - 1) / k < S (S i)); [|lia].
  apply Nat.Div0.div_lt_upper_bound. nia.
Qed.

End Shards.

Lemma shards_slices (spin : nat) (files : list string) :
  0 < spin → files ≠ [] →
  shards spin files = Some (slices (length files / (length files `min` spin)) files)
  ∧ 0 < length files / (length files `min` spin).
Proof.
  intros Hs Hf. unfold shards.
  assert (0 < length files) by (destruct files; simpl; [done|lia]).
  assert (Hm : (if length files <=? spin then length files else spin)
               = length files `min` spin).
  { destruct (Nat.leb_spec (length files) spin); lia. }
  rewrite Hm.
  assert (0 < length files / (length files `min` spin)) as Hpos.
  { apply Nat.div_str_pos. lia. }
  destruct (length files `min` spin) as [|m] eqn:Hmin; [lia|].
  destruct (length files / S m) as [|e] eqn:He; [lia|]. done.
Qed.

(** C5, as the code has it. For a positive thread count and a non-empty
    list of files, with [each = len(files) // min(len(files), threads)]:
    the shards are the consecutive slices of [each] files, in input order
    and together the whole list; there are [ceil(len(files) / each)] of
    them, each but the last of [each] files and the last of at least one;
    a single thread gets the whole list, and when there are no more files
    than threads every file is a shard of its own. *)
Theorem C5_shards_are_consecutive_slices (spin : nat) (files : list string) :
  0 < spin → files ≠ [] →
  let n := length files in
  let each := n / (n `min` spin) in
  ∃ shs,
    shards spin files = Some shs
    ∧ concat shs = files
    ∧ length shs = (n + each - 1) / each
    ∧ (∀ i sh, shs !! i = Some sh →
         sh = take each (drop (i * each) files)
         ∧ 0 < length sh ≤ each
         ∧ (S i < length shs → length sh = each))
    ∧ (spin = 1 → shs = [files])
    ∧ (n ≤ spin → length shs = n ∧ Forall (fun sh => length sh = 1) shs).
Proof.
  intros Hs Hf n each.
  destruct (shards_slices spin files Hs Hf) as [Hsh Hpos].
  fold n each in Hsh, Hpos.
  exists (slices each files). split; [done|].
  split; [by apply slices_concat|].
  split; [apply slices_length|].
  split.
  { intros i sh Hi. split; [by apply slices_lookup|].
    destruct (slices_lookup_length each files i sh Hpos Hi). done. }
  assert (0 < n) by (subst n; destruct files; simpl; [done|lia]).
  split.
  - intros ->. subst each. replace (n `min` 1) with 1 by lia.
    rewrite Nat.div_1_r. rewrite slices_cons by (done || lia).
    subst n. rewrite firstn_all, drop_all. by rewrite slices_nil.
  - intros Hle. assert (each = 1) as He.
    { subst each. replace (n `min` spin) with n by lia. apply Nat.div_same. lia. }
    rewrite He in *. split.
    + rewrite slices_length. fold n. replace (n + 1 - 1) with n by lia.
      apply Nat.div_1_r.
    + apply Forall_lookup. intros i sh Hi.
      destruct (slices_lookup_length 1 files i sh) as [? _]; [lia|done|lia].
Qed.

Lemma C5_shards_are_consecutive_slices_witness :
  ∃ shs, shards 4 eleven_files = Some shs ∧ concat shs = eleven_files
         ∧ length shs = 6.
Proof.
  destruct (C5_shards_are_consecutive_slices 4 eleven_files)
    as (shs & H1 & H2 & H3 & _).
  - lia.
  - discriminate.
  - exists shs. split; [exact H1|]. split; [exact H2|]. exact H3.
Defined.

(** With the ten threads of the script and eleven files, the claim asks
    for ten shards of one file with the eleventh file appended to the
    last; the code makes eleven shards. Twenty-five files give thirteen
    shards, and three files (no more files than threads) are not processed
    one after the other by one worker but get a thread each. *)
Lemma C5_shard_count_counterexample :
  (length <$> shards spin_threads eleven_files) = Some 11
  ∧ (length <$> shards spin_threads (eleven_files ++ eleven_files ++ ["r/x.yar"; "r/y.yar"; "r/z.yar"]))
    = Some 13
  ∧ shards spin_threads ["r/a.yar"; "r/b.yar"; "r/c.yar"]
    = Some [["r/a.yar"]; ["r/b.yar"]; ["r/c.yar"]].
Proof. vm_compute. done. Qed.

(** ** Facts about the [str] primitives *)

Section StrFacts.
Implicit Types (p q : ascii → bool) (s t : string) (c : ascii).

Lemma string_app_cons c s t : String c s +:+ t = String c (s +:+ t).
Proof. done. Qed.

Lemma string_app_nil_l s : "" +:+ s = s.
Proof. done. Qed.

Lemma string_app_assoc s t u : (s +:+ t) +:+ u = s +:+ (t +:+ u).
Proof.
  induction s as [|c s IH]; [done|]. by rewrite !string_app_cons, IH.
Qed.

Lemma string_app_nil_r s : s +:+ "" = s.
Proof. induction s as [|c s IH]; [done|]. by rewrite string_app_cons, IH. Qed.

Lemma string_app_length s t :
  String.length (s +:+ t) = String.length s + String.length t.
Proof.
  induction s as [|c s IH]; [done|]. rewrite string_app_cons. simpl.
  by rewrite IH.
Qed.

Lemma lstrip_by_idem p s : lstrip_by p (lstrip_by p s) = lstrip_by p s.
Proof.
  induction s as [|c s IH]; simpl; [done|].
  destruct (p c) eqn:Hc; [done|]. simpl. by rewrite Hc.
Qed.

Lemma rstrip_by_cons p c s :
  rstrip_by p (String c s) =
    match rstrip_by p s with
    | "" => if p c then "" else String c ""
    | t => String c t
    end.
Proof. done. Qed.

(** The first character of a right-stripped text is not stripped by the
    left strip unless the whole text is. *)
Lemma lstrip_rstrip_comm p s :
  lstrip_by p (rstrip_by p s) = rstrip_by p (lstrip_by p s).
Proof.
  induction s as [|c s IH]; [done|].
  rewrite rstrip_by_cons. simpl lstrip_by at 2.
  destruct (p c) eqn:Hc.
  - rewrite <- IH. destruct (rstrip_by p s) eqn:Hr; simpl; by rewrite ?Hc.
  - rewrite rstrip_by_cons.
    destruct (rstrip_by p s) eqn:Hr; simpl; by rewrite ?Hc.
Qed.

Lemma rstrip_by_idem p s : rstrip_by p (rstrip_by p s) = rstrip_by p s.
Proof.
  induction s as [|c s IH]; [done|].
  rewrite rstrip_by_cons.
  destruct (rstrip_by p s) as [|a t] eqn:Hr.
  - destruct (p c) eqn:Hc; [done|]. simpl. by rewrite Hc.
  - rewrite rstrip_by_cons, IH. done.
Qed.

Lemma strip_by_idem p s : strip_by p (strip_by p s) = strip_by p s.
Proof.
  unfold strip_by.
  by rewrite <- lstrip_rstrip_comm, rstrip_by_idem, lstrip_by_idem.
Qed.

Lemma strip_idem s : strip (strip s) = strip s.
Proof. apply strip_by_idem. Qed.

Lemma before_by_before_by p q s :
  before_by p (before_by q s) = before_by (fun c => p c || q c) s.
Proof.
  induction s as [|c s IH]; simpl; [done|].
  destruct (q c) eqn:Hq; simpl.
  - by rewrite orb_true_r.
  - rewrite orb_false_r. destruct (p c); [done|]. by rewrite IH.
Qed.

Lemma before_by_ext p q s :
  (∀ c, p c = q c) → before_by p s = before_by q s.
Proof.
  intros H. induction s as [|c s IH]; simpl; [done|].
  rewrite H, IH. done.
Qed.

(** Stripping characters that [p] never stops at commutes with
    [before_by p], up to a final strip. *)
Lemma before_by_lstrip p q s :
  (∀ c, p c = true → q c = false) →
  before_by p (lstrip_by q s) = lstrip_by q (before_by p s).
Proof.
  intros H. induction s as [|c s IH]; simpl; [done|].
  destruct (q c) eqn:Hq.
  - destruct (p c) eqn:Hp; [by rewrite (H c Hp) in Hq|].
    simpl. by rewrite Hq.
  - simpl. destruct (p c); [done|]. simpl. by rewrite Hq.
Qed.

Lemma rstrip_by_nil_before p q s :
  rstrip_by q s = "" → (∀ c, p c = true → q c = false) → before_by p s = s.
Proof.
  intros Hs H. induction s as [|c s IH]; simpl; [done|].
  rewrite rstrip_by_cons in Hs.
  destruct (rstrip_by q s) eqn:Hr; [|done].
  destruct (q c) eqn:Hq; [|done].
  destruct (p c) eqn:Hp; [by rewrite (H c Hp) in Hq|].
  by rewrite IH.
Qed.

Lemma before_by_rstrip p q s :
  (∀ c, p c = true → q c = false) →
  rstrip_by q (before_by p (rstrip_by q s)) = rstrip_by q (before_by p s).
Proof.
  intros H. induction s as [|c s IH]; [done|].
  rewrite rstrip_by_cons. simpl before_by at 2.
  destruct (p c) eqn:Hp.
  - pose proof (H c Hp) as Hq.
    destruct (rstrip_by q s); simpl; rewrite ?Hq; simpl; by rewrite Hp.
  - destruct (rstrip_by q s) as [|a t] eqn:Hr.
    + rewrite (rstrip_by_nil_before p q s Hr H).
      rewrite rstrip_by_cons, Hr.
      destruct (q c) eqn:Hq; simpl; [done|]. rewrite Hp. simpl. by rewrite Hq.
    + simpl before_by. rewrite Hp. rewrite !rstrip_by_cons.
      rewrite <- IH. done.
Qed.

Lemma strip_before_by_strip p q s :
  (∀ c, p c = true → q c = false) →
  strip_by q (before_by p (strip_by q s)) = strip_by q (before_by p s).
Proof.
  intros H. unfold strip_by.
  rewrite before_by_lstrip by done.
  rewrite lstrip_rstrip_comm, lstrip_by_idem, <- lstrip_rstrip_comm.
  by rewrite before_by_rstrip.
Qed.

End StrFacts.

(** ** The name of a rule block (lines 231-232) *)

Section RuleName.
Implicit Types (p q : ascii → bool) (s t r : string) (c : ascii).

Lemma contains_char c s : contains (String c "") s = existsb (Ascii.eqb c) (chars s).
Proof.
  induction s as [|a s IH]; [done|].
  cbn [contains startswith chars list_ascii_of_string existsb].
  fold (chars s). rewrite IH, andb_true_r. done.
Qed.

Lemma existsb_lstrip_by p q s :
  (∀ c, p c = true → q c = false) →
  existsb p (chars (lstrip_by q s)) = existsb p (chars s).
Proof.
  intros H. induction s as [|a s IH]; [done|]. simpl.
  destruct (q a) eqn:Hq; [|done].
  rewrite IH. destruct (p a) eqn:Hp; [|done].
  by rewrite (H a Hp) in Hq.
Qed.

Lemma existsb_rstrip_by p q s :
  (∀ c, p c = true → q c = false) →
  existsb p (chars (rstrip_by q s)) = existsb p (chars s).
Proof.
  intros H. induction s as [|a s IH]; [done|].
  rewrite rstrip_by_cons. cbn [chars list_ascii_of_string existsb].
  fold (chars s). rewrite <- IH.
  destruct (rstrip_by q s) as [|b t]; [|done].
  destruct (q a) eqn:Hq; simpl; [|by rewrite orb_false_r].
  destruct (p a) eqn:Hp; [|done]. by rewrite (H a Hp) in Hq.
Qed.

Lemma existsb_strip_by p q s :
  (∀ c, p c = true → q c = false) →
  existsb p (chars (strip_by q s)) = existsb p (chars s).
Proof.
  intros H. unfold strip_by.
  by rewrite existsb_lstrip_by, existsb_rstrip_by.
Qed.

(** When a [p]-character comes before the first [q]-character, the text
    before it is the text before the first [p]- or [q]-character. *)
Lemma before_by_first p q s :
  existsb p (chars (before_by q s)) = true →
  before_by p s = before_by (fun c => p c || q c) s.
Proof.
  induction s as [|a s IH]; [done|]. simpl.
  destruct (q a) eqn:Hq; [done|]. simpl.
  destruct (p a) eqn:Hp; [done|]. simpl.
  intros Hex. by rewrite IH.
Qed.

Lemma before_by_absent p q s :
  existsb p (chars (before_by q s)) = false →
  before_by q s = before_by (fun c => p c || q c) s.
Proof.
  induction s as [|a s IH]; [done|]. simpl.
  destruct (q a) eqn:Hq; [by rewrite orb_true_r|]. simpl.
  destruct (p a) eqn:Hp; [done|]. simpl.
  intros Hex. by rewrite IH.
Qed.

Lemma eqb_not_space (a c : ascii) :
  isspace a = false → Ascii.eqb a c = true → isspace c = false.
Proof. intros Ha Hc. apply Ascii.eqb_eq in Hc. by subst. Qed.

(** The name is the trimmed text of the trimmed block up to the first
    colon, opening brace or line boundary; the [IndexError] is raised
    for blocks of white space only. *)
Lemma rulename_spec r :
  rulename r =
    match strip r with
    | "" => None
    | s => Some (strip (before_by name_stop s))
    end.
Proof.
  unfold rulename, first_line.
  destruct (strip r) as [|a s'] eqn:Hs; [done|].
  rewrite <- Hs. clear a s' Hs. f_equal.
  set (s := strip r). unfold before_char.
  assert (Hname : strip (before_by (Ascii.eqb "{") (strip (before_by is_linebreak s)))
                = strip (before_by (fun c => Ascii.eqb "{" c || is_linebreak c) s)).
  { unfold strip. rewrite strip_before_by_strip.
    - by rewrite before_by_before_by.
    - intros c. by apply eqb_not_space. }
  rewrite Hname, contains_char.
  unfold strip at 1. rewrite existsb_strip_by by (intros c; by apply eqb_not_space).
  destruct (existsb _ _) eqn:Hex.
  - unfold strip. rewrite <- (strip_before_by_strip (Ascii.eqb ":") isspace r)
      by (intros c; by apply eqb_not_space).
    fold (strip r). fold s. f_equal. by apply before_by_first.
  - f_equal. by apply before_by_absent.
Qed.

Lemma rulename_strip r : rulename (strip r) = rulename r.
Proof. by rewrite !rulename_spec, strip_idem. Qed.

End RuleName.

(** ** What a match of the backtracking matcher is *)

Section Matching.
Implicit Types (s : cursor) (w : string) (r : regex).

Lemma matches_rest r s w s' : matches r s w s' → rest s = w +:+ rest s'.
Proof.
  induction 1 as [| | | | |r1 r2 s w1 s1 w2 s2 _ IH1 _ IH2| | |
                  |g r s w1 s1 w2 s2 _ IH1 _ _ IH2|]; try done.
  - by rewrite IH1, IH2, string_app_assoc.
  - by rewrite IH1, IH2, string_app_assoc.
Qed.

Lemma consumed_app w t : consumed (w +:+ t) t = w.
Proof.
  unfold consumed. rewrite string_app_length.
  replace (String.length w + String.length t - String.length t)
    with (String.length w) by lia.
  induction w as [|a w IH].
  - rewrite string_app_nil_l. by destruct t.
  - rewrite string_app_cons. simpl. by rewrite IH.
Qed.

Lemma matches_consumed r s w s' :
  matches r s w s' → consumed (rest s) (rest s') = w.
Proof. intros H. rewrite (matches_rest _ _ _ _ H). apply consumed_app. Qed.

Lemma or_else_Some {A} (x y : option A) (a : A) :
  or_else x y = Some a → x = Some a ∨ y = Some a.
Proof. destruct x; simpl; auto. Qed.

(** The equation of [run] for a positive [fuel]. *)
Lemma run_eq fuel r s k :
  Re.run (S fuel) r s k =
    match r with
    | Eps => k s
    | Chr c =>
        match rest s with
        | String a t => if Ascii.eqb a c then k (advance a t s) else None
        | "" => None
        end
    | Cls p =>
        match rest s with
        | String a t => if p a then k (advance a t s) else None
        | "" => None
        end
    | Bol => if at_bol s then k s else None
    | Eol => if at_eol s then k s else None
    | Seq r1 r2 => Re.run (S fuel) r1 s (fun s1 => Re.run (S fuel) r2 s1 k)
    | Alt r1 r2 => or_else (Re.run (S fuel) r1 s k) (Re.run (S fuel) r2 s k)
    | Star greedy r1 =>
        let again :=
          Re.run (S fuel) r1 s (fun s1 =>
            if String.length (rest s1) <? String.length (rest s)
            then Re.run fuel (Star greedy r1) s1 k
            else None) in
        if greedy then or_else again (k s) else or_else (k s) again
    | Grp n r1 =>
        Re.run (S fuel) r1 s
          (fun s1 => k (set_cap n (consumed (rest s) (rest s1)) s1))
    end.
Proof. by destruct r. Qed.

(** Whatever the matcher returns comes from a match of the pattern that
    the continuation accepted. *)
Lemma run_sound fuel r s k res :
  Re.run fuel r s k = Some res →
  ∃ w s', matches r s w s' ∧ k s' = Some res.
Proof.
  revert r s k res. induction fuel as [|fuel IHf]; [done|].
  induction r as [|c|p| | |r1 IH1 r2 IH2|r1 IH1 r2 IH2|g r1 IH1|n r1 IH1];
    intros s k res; rewrite run_eq.
  - intros H. exists "", s. split; [constructor|done].
  - destruct (rest s) as [|a t] eqn:Hr; [done|].
    destruct (Ascii.eqb a c) eqn:Hac; [|done].
    apply Ascii.eqb_eq in Hac as ->. intros H.
    exists (String c ""), (advance c t s). split; [by constructor|done].
  - destruct (rest s) as [|a t] eqn:Hr; [done|].
    destruct (p a) eqn:Hp; [|done]. intros H.
    exists (String a ""), (advance a t s). split; [by constructor|done].
  - destruct (at_bol s) eqn:Hb; [|done]. intros H.
    exists "", s. split; [by constructor|done].
  - destruct (at_eol s) eqn:Hb; [|done]. intros H.
    exists "", s. split; [by constructor|done].
  - intros H. apply IH1 in H as (w1 & s1 & Hm1 & H).
    apply IH2 in H as (w2 & s2 & Hm2 & H).
    exists (w1 +:+ w2), s2. split; [by econstructor|done].
  - intros H. apply or_else_Some in H as [H|H].
    + apply IH1 in H as (w & s' & Hm & H). exists w, s'.
      split; [by apply m_alt_l|done].
    + apply IH2 in H as (w & s' & Hm & H). exists w, s'.
      split; [by apply m_alt_r|done].
  - cbv zeta. intros H.
    assert (Hagain : ∀ res',
      Re.run (S fuel) r1 s
        (fun s1 =>
           if String.length (rest s1) <? String.length (rest s)
           then Re.run fuel (Star g r1) s1 k
           else None) = Some res' →
      ∃ w s', matches (Star g r1) s w s' ∧ k s' = Some res').
    { intros res' H'. apply IH1 in H' as (w1 & s1 & Hm1 & H').
      destruct (Nat.ltb_spec (String.length (rest s1)) (String.length (rest s)));
        [|done].
      apply IHf in H' as (w2 & s2 & Hm2 & H').
      exists (w1 +:+ w2), s2. split; [|done].
      eapply m_star_S; [done| |done].
      intros ->. apply matches_rest in Hm1.
      rewrite Hm1, string_app_nil_l in *. lia. }
    destruct g; apply or_else_Some in H as [H|H]; auto;
      exists "", s; (split; [constructor|done]).
  - intros H. apply IH1 in H as (w & s' & Hm & H).
    rewrite (matches_consumed _ _ _ _ Hm) in H.
    exists w, (set_cap n w s'). split; [by constructor|done].
Qed.

(** The fuel is enough: with more of it than there are characters left,
    the answer of the matcher does not depend on it. *)
Lemma run_fuel fuel fuel' r s (k k' : cursor → option cursor) :
  String.length (rest s) < fuel → String.length (rest s) < fuel' →
  (∀ s1, String.length (rest s1) ≤ String.length (rest s) → k s1 = k' s1) →
  Re.run fuel r s k = Re.run fuel' r s k'.
Proof.
  revert fuel' r s k k'. induction fuel as [|fuel IHf]; [lia|].
  intros [|fuel']; [lia|].
  induction r as [|c|p| | |r1 IH1 r2 IH2|r1 IH1 r2 IH2|g r1 IH1|n r1 IH1];
    intros s k k' Hf Hf' Hk;
    rewrite (run_eq fuel _ s k), (run_eq fuel' _ s k').
  - by apply Hk.
  - destruct (rest s) as [|a t] eqn:Hr; [done|].
    destruct (Ascii.eqb a c); [|done]. apply Hk. simpl. lia.
  - destruct (rest s) as [|a t] eqn:Hr; [done|].
    destruct (p a); [|done]. apply Hk. simpl. lia.
  - destruct (at_bol s); [|done]. by apply Hk.
  - destruct (at_eol s); [|done]. by apply Hk.
  - apply IH1; [done..|]. intros s1 Hs1.
    apply IH2; [lia..|]. intros s2 Hs2. apply Hk. lia.
  - rewrite (IH1 s k k'), (IH2 s k k'); done.
  - cbv zeta.
    assert (Hagain :
      Re.run (S fuel) r1 s
        (fun s1 => if String.length (rest s1) <? String.length (rest s)
                   then Re.run fuel (Star g r1) s1 k else None)
      = Re.run (S fuel') r1 s
          (fun s1 => if String.length (rest s1) <? String.length (rest s)
                     then Re.run fuel' (Star g r1) s1 k' else None)).
    { apply IH1; [done..|]. intros s1 Hs1.
      destruct (Nat.ltb_spec (String.length (rest s1)) (String.length (rest s)));
        [|done].
      apply IHf; [lia..|]. intros s2 Hs2. apply Hk. lia. }
    by rewrite Hagain, (Hk s).
  - apply IH1; [done..|]. intros s1 Hs1. by apply Hk.
Qed.

Lemma match_at_fuel (n : nat) (r : regex) (p : option ascii) (txt : string) :
  Re.run (S (String.length txt) + n) r
    {| prev := p; rest := txt; caps := [] |} Some
  = match_at r p txt.
Proof. unfold match_at. apply run_fuel; simpl; [lia..|done]. Qed.

End Matching.

(** ** What [findall] returns for the three patterns *)

Section Findall.
Implicit Types (s w : string) (r : regex) (h : hit).

Lemma match_at_sound r p s c :
  match_at r p s = Some c →
  ∃ w, matches r {| prev := p; rest := s; caps := [] |} w c.
Proof.
  unfold match_at. intros H.
  apply run_sound in H as (w & s' & Hm & [= <-]). by exists w.
Qed.

(** Every hit of the scan is a match of the pattern at some position; its
    text is the text the match read. *)
Lemma scan_hits fuel r p s h :
  h ∈ scan fuel r p s →
  ∃ p' s' c, matches r {| prev := p'; rest := s'; caps := [] |} (fst h) c
             ∧ snd h = caps c.
Proof.
  revert p s. induction fuel as [|fuel IH]; intros p s; simpl.
  { by intros ?%elem_of_nil. }
  assert (Hstep : h ∈ match s with
                      | "" => []
                      | String a t => scan fuel r (Some a) t
                      end →
          ∃ p' s' c, matches r {| prev := p'; rest := s'; caps := [] |} (fst h) c
                     ∧ snd h = caps c).
  { destruct s as [|a t]; [by intros ?%elem_of_nil|]. apply IH. }
  destruct (match_at r p s) as [c|] eqn:Hm; [|done].
  apply match_at_sound in Hm as (w & Hm).
  pose proof (matches_consumed _ _ _ _ Hm) as Hw. simpl in Hw. rewrite Hw.
  assert (Hhit : h = (w, caps c) →
          ∃ p' s' c, matches r {| prev := p'; rest := s'; caps := [] |} (fst h) c
                     ∧ snd h = caps c).
  { intros ->. by exists p, s, c. }
  destruct w as [|a w]; intros [->|Hin]%elem_of_cons; eauto.
Qed.

(** The fuel of the scan is enough as well. *)
Lemma scan_fuel (fuel fuel' : nat) (r : regex) (p : option ascii)
    (s : string) :
  String.length s < fuel → String.length s < fuel' →
  scan fuel r p s = scan fuel' r p s.
Proof.
  revert fuel' p s. induction fuel as [|fuel IH]; [lia|].
  intros [|fuel'] p s Hf Hf'; [lia|]. cbn [scan].
  assert (Hstep :
    match s with
    | "" => []
    | String a t => scan fuel r (Some a) t
    end
    = match s with
      | "" => []
      | String a t => scan fuel' r (Some a) t
      end).
  { destruct s as [|a t]; [done|]. simpl in *. apply IH; lia. }
  rewrite Hstep. destruct (match_at r p s) as [c|] eqn:Hm; [|done].
  apply match_at_sound in Hm as (w & Hm).
  pose proof (matches_consumed _ _ _ _ Hm) as Hw.
  pose proof (matches_rest _ _ _ _ Hm) as Hrest. simpl in Hw, Hrest.
  rewrite Hw. apply (f_equal String.length) in Hrest.
  rewrite string_app_length in Hrest.
  destruct w as [|a w]; [done|]. f_equal. simpl in Hrest.
  apply IH; lia.
Qed.

Lemma finditer_fuel (n : nat) (r : regex) (s : string) :
  scan (S (String.length s) + n) r None s = finditer r s.
Proof. unfold finditer. apply scan_fuel; lia. Qed.

Lemma finditer_hits r s h :
  h ∈ finditer r s →
  ∃ p' s' c, matches r {| prev := p'; rest := s'; caps := [] |} (fst h) c
             ∧ snd h = caps c.
Proof. apply scan_hits. Qed.

(** Inversion of a match along the fixed part of a pattern; the starred
    parts are left alone. *)
Ltac inv_matches :=
  repeat match goal with
    | H : matches Eps _ _ _ |- _ => inversion H; subst; clear H
    | H : matches (Chr _) _ _ _ |- _ => inversion H; subst; clear H
    | H : matches (Cls _) _ _ _ |- _ => inversion H; subst; clear H
    | H : matches Bol _ _ _ |- _ => inversion H; subst; clear H
    | H : matches Eol _ _ _ |- _ => inversion H; subst; clear H
    | H : matches (Seq _ _) _ _ _ |- _ => inversion H; subst; clear H
    | H : matches (Alt _ _) _ _ _ |- _ => inversion H; subst; clear H
    | H : matches (Grp _ _) _ _ _ |- _ => inversion H; subst; clear H
    end.

Ltac norm_app :=
  repeat first [rewrite string_app_cons | rewrite string_app_nil_l
               | rewrite string_app_assoc].

(** A match of [rules_re] ends with the closing brace, and its first
    group is the whole match. *)
Lemma rules_re_match (s0 c : cursor) w :
  matches rules_re s0 w c →
  group 1 (caps c) = w ∧ ∃ w', w = w' +:+ "}".
Proof.
  cbv [rules_re Plus Lit Any]. intros H. inv_matches.
  split; [done|].
  repeat rewrite <- string_app_assoc. eauto.
Qed.

(** A match of [comments_re] starts with a comment opener, and its first
    group is the whole match. *)
Lemma comments_re_match (s0 c : cursor) w :
  matches comments_re s0 w c →
  group 1 (caps c) = w ∧ (startswith "/*" w || startswith "//" w = true).
Proof.
  cbv [comments_re Plus Lit Any]. intros H. inv_matches.
  - split; [done|]. by norm_app.
  - split; [done|]. by norm_app.
Qed.


End Findall.

(** ** What [extract] returns *)

Section Extract.
Context (E : env).
Implicit Types (s w r content : string).

Lemma rstrip_by_keep p c s :
  p c = false → rstrip_by p (String c s) = String c (rstrip_by p s).
Proof.
  intros Hc. rewrite rstrip_by_cons, Hc. by destruct (rstrip_by p s).
Qed.

Lemma rstrip_by_last p w c :
  p c = false → rstrip_by p (w +:+ String c "") = w +:+ String c "".
Proof.
  intros Hc. induction w as [|a w IH].
  - rewrite string_app_nil_l. simpl. by rewrite Hc.
  - rewrite string_app_cons, rstrip_by_cons, IH.
    destruct w; by rewrite ?string_app_nil_l, ?string_app_cons.
Qed.

Lemma lstrip_by_last p w c :
  p c = false → ∃ w', lstrip_by p (w +:+ String c "") = w' +:+ String c "".
Proof.
  intros Hc. induction w as [|a w IH].
  - exists "". rewrite !string_app_nil_l. simpl. by rewrite Hc.
  - rewrite string_app_cons. simpl. destruct (p a); [done|].
    exists (String a w). by rewrite string_app_cons.
Qed.

(** Stripping does not touch a last character that is not stripped. *)
Lemma strip_by_last p w c :
  p c = false → ∃ w', strip_by p (w +:+ String c "") = w' +:+ String c "".
Proof.
  intros Hc. unfold strip_by. rewrite rstrip_by_last by done.
  by apply lstrip_by_last.
Qed.

Lemma clean_last w : ∃ w', clean (w +:+ "}") = w' +:+ "}".
Proof.
  unfold clean, strip, strip_chars.
  destruct (strip_by_last isspace w "}") as [w1 ->]; [done|].
  destruct (strip_by_last (fun c => mem_char c "*/") w1 "}") as [w2 ->]; [done|].
  destruct (strip_by_last isspace w2 "}") as [w3 ->]; [done|].
  destruct (strip_by_last (fun c => mem_char c "/*") w3 "}") as [w4 ->]; [done|].
  by apply strip_by_last.
Qed.

Lemma string_app_last_ne w c : w +:+ String c "" ≠ "".
Proof. by destruct w. Qed.

Lemma findall1_matches (re : regex) content w :
  w ∈ findall1 re content →
  ∃ h p' s' c, h ∈ finditer re content ∧ w = group 1 (snd h)
    ∧ matches re {| prev := p'; rest := s'; caps := [] |} (fst h) c
    ∧ snd h = caps c.
Proof.
  unfold findall1. intros (h & -> & Hh)%list_elem_of_fmap.
  destruct (finditer_hits _ _ _ Hh) as (p' & s' & c & Hm & Hc).
  by exists h, p', s', c.
Qed.

(** A rule block is never empty: it ends with the closing brace of the
    match. It is already trimmed, and it has a name. *)
Lemma rule_block_named content r :
  r ∈ rule_blocks content →
  (∃ r', r = r' +:+ "}") ∧ strip r = r ∧ is_Some (rulename r).
Proof.
  unfold rule_blocks. intros (w & -> & Hw)%list_elem_of_fmap.
  apply findall1_matches in Hw as (h & p' & s' & c & _ & -> & Hm & Hc).
  apply rules_re_match in Hm as [Hg [w' Hw']]. rewrite Hc, Hg, Hw'.
  destruct (clean_last w') as [r' Hr']. rewrite Hr'.
  assert (Hs : strip (r' +:+ "}") = r' +:+ "}").
  { rewrite <- Hr'. unfold clean. apply strip_idem. }
  split; [by exists r'|]. split; [done|].
  rewrite rulename_spec, Hs.
  destruct (r' +:+ "}") eqn:Hne; [by apply string_app_last_ne in Hne|done].
Qed.

Lemma filter_all {A} (P : A → Prop) `{∀ x, Decision (P x)} (l : list A) :
  Forall P l → filter P l = l.
Proof.
  induction 1 as [|x l Hx _ IH]; [done|].
  rewrite filter_cons, decide_True by done. by rewrite IH.
Qed.

Lemma live_blocks_no_comments content :
  commented_of content = [] → live_blocks content = rule_blocks content.
Proof.
  intros Hc. unfold live_blocks. rewrite Hc. apply filter_all.
  apply Forall_forall. intros x Hx.
  apply rule_block_named in Hx as [[r' ->] _].
  destruct (r' +:+ "}") eqn:Hne; [by apply string_app_last_ne in Hne|done].
Qed.

(** [extract] on a file that decodes to a non-empty text. *)
Lemma extract_spec yf content :
  read_content E yf encodings = Ok (Some content) → content ≠ "" →
  extract E yf =
    Ok (Some (match findall1 rules_re content with
              | [] => ([], [], [])
              | _ => (findall1 import_re content, live_blocks content,
                      commented_of content)
              end)).
Proof.
  intros Hread Hne. unfold extract. rewrite Hread.
  destruct content as [|a content']; [done|].
  set (content := String a content') in *.
  destruct (findall1 rules_re content) as [|w ws] eqn:Hrules; [done|].
  destruct (findall 4 comments_re content) as [|g gs] eqn:Hcomments.
  - assert (Hc : commented_of content = []).
    { unfold commented_of. by rewrite Hcomments. }
    rewrite Hc, live_blocks_no_comments by done.
    unfold rule_blocks. by rewrite Hrules.
  - unfold live_blocks, commented_of, rule_blocks.
    by rewrite Hcomments, Hrules.
Qed.

Lemma startswith_app x a b :
  startswith x a = true → startswith x (a +:+ b) = true.
Proof.
  revert a. induction x as [|c x IH]; intros a; [done|].
  destruct a as [|d a]; [done|]. rewrite string_app_cons. simpl.
  intros [-> Hx]%andb_true_iff. by rewrite IH.
Qed.



Lemma join_cons sep x y l :
  PyStr.join sep (x :: y :: l) = x +:+ sep +:+ PyStr.join sep (y :: l).
Proof. done. Qed.


Lemma is_comment_opener c :
  startswith "/*" c || startswith "//" c = true → is_comment c = true ∧ c ≠ "".
Proof.
  destruct c as [|a [|b x]]; [done| |].
  { simpl. by rewrite !andb_false_r. }
  intros H. split; [|done]. unfold is_comment, strip, strip_by.
  assert (Ha : a = "/"%char ∧ (b = "*"%char ∨ b = "/"%char)).
  { cbn [startswith] in H. rewrite !andb_true_r in H.
    apply orb_true_iff in H as [[?%Ascii.eqb_eq ?%Ascii.eqb_eq]%andb_true_iff
                               |[?%Ascii.eqb_eq ?%Ascii.eqb_eq]%andb_true_iff];
      auto. }
  destruct Ha as [-> [-> | ->]];
    rewrite !rstrip_by_keep by done; simpl; by rewrite ?orb_true_r.
Qed.


End Extract.

(** ** Running the code of a worker *)

Section Running.
Context (E : env).

Lemma run_bind {A B} (p : prog A) (k : A → prog B) (w : world) :
  run (p ≫= k) w =
    match run p w with
    | (w', Returned a) => run (k a) w'
    | (w', Raised e) => (w', Raised e)
    | (w', Blocked) => (w', Blocked)
    end.
Proof.
  revert w. induction p as [a|e|l effect next IH]; intros w; try done.
  change (Act l effect next ≫= k) with (Act l effect (fun w => next w ≫= k)).
  simpl. destruct (l && lock_held w); [done|]. apply IH.
Qed.

Lemma run_write_file path c w :
  run (write_file E path c) w =
    if fs_isdir path w || denied E path then (w, Raised (OSError path))
    else
      match write_error E path with
      | Some err =>
          (print (nl +:+ "[!] Error writing " +:+ path +:+ ": " +:+ err)
             (put_file path (substring 0 (flushed E path) (file_text E c)) w),
           if close_error E path then Raised (OSError path) else Returned tt)
      | None =>
          if close_error E path
          then (put_file path (substring 0 (flushed E path) (file_text E c)) w,
                Raised (OSError path))
          else (put_file path (file_text E c) w, Returned tt)
      end.
Proof.
  unfold write_file, step. simpl.
  destruct (fs_isdir path w || denied E path); [done|].
  by destruct (write_error E path), (close_error E path).
Qed.

Lemma run_ensure_dir d w :
  run (ensure_dir E d) w =
    if fs_exists d w then (w, Returned tt)
    else if denied E d then (w, Raised (OSError d))
    else (add_dir d w, Returned tt).
Proof.
  unfold ensure_dir, step. simpl.
  destruct (fs_exists d w) eqn:Hex; [done|]. simpl.
  unfold os_mkdir. rewrite Hex. by destruct (denied E d).
Qed.

End Running.

(** ** C4: rule blocks found in comments *)

Section CommentedOut.
Context (E : env).




(** The run of the lines 214-221. *)
Lemma run_write_commented out yf imports cs w :
  cs ≠ [] →
  run (write_commented E out yf imports cs) w =
    match run (ensure_dir E (new_yf_commented_rule_dir out yf)) w with
    | (w', Returned _) =>
        run (write_file E
               (PosixPath.join2 (new_yf_commented_rule_dir out yf) (yf_file_name yf))
               (Lines (if falsy imports then cs else imports ++ cs))) w'
    | (w', Raised e) => (w', Raised e)
    | (w', Blocked) => (w', Blocked)
    end.
Proof.
  intros Hcs. unfold write_commented. destruct cs; [done|]. simpl falsy.
  cbv iota. apply run_bind.
Qed.







End CommentedOut.




(** ** C2: the name under which a block is registered *)

Section Names.
Implicit Types (p : ascii → bool) (s t r : string).






End Names.




(** ** Two runs side by side *)

Section Alike.
Context (E E' : env) (HE : same_inputs E E').

Lemma alike_bind {A B} (p p' : prog A) (k k' : A → prog B) :
  alike p p' → (∀ a, alike (k a) (k' a)) → alike (p ≫= k) (p' ≫= k').
Proof.
  intros Hp Hk. revert p' Hp.
  induction p as [a|e|l effect next IH]; intros [a'|e'|l' effect' next'];
    try done.
  - intros <-. apply Hk.
  - intros [<- H]. split; [done|]. intros w w' Hw.
    destruct (H w w' Hw) as [H1 H2]. split; [done|]. by apply IH.
Qed.

Lemma alike_run {A} (p p' : prog A) w w' :
  alike p p' → same_shape w w' →
  same_shape (run p w).1 (run p' w').1 ∧ (run p w).2 = (run p' w').2.
Proof.
  revert p' w w'.
  induction p as [a|e|l effect next IH]; intros [a'|e'|l' effect' next'] w w';
    try done.
  - by intros <- Hw.
  - by intros <- Hw.
  - intros [<- H] Hw. simpl.
    destruct Hw as (Hg & Hl & Hd & Hf). rewrite <- Hl.
    destruct (l && lock_held w); [done|].
    destruct (H w w') as [H1 H2]; [done|]. by apply IH.
Qed.

Lemma same_shape_isdir p w w' :
  same_shape w w' → fs_isdir p w = fs_isdir p w'.
Proof. intros (_ & _ & Hd & _). unfold fs_isdir. by rewrite Hd. Qed.

Lemma same_shape_exists p w w' :
  same_shape w w' → fs_exists p w = fs_exists p w'.
Proof.
  intros Hw. unfold fs_exists. rewrite (same_shape_isdir p w w' Hw).
  destruct Hw as (_ & _ & _ & Hf). f_equal.
  apply bool_decide_ext. rewrite <- !elem_of_dom. by rewrite Hf.
Qed.

Lemma same_shape_put_file p c c' w w' :
  same_shape w w' → same_shape (put_file p c w) (put_file p c' w').
Proof.
  intros (Hg & Hl & Hd & Hf). repeat split; try done.
  simpl. by rewrite !dom_insert_L, Hf.
Qed.

Lemma same_shape_print m m' w w' :
  same_shape w w' → same_shape (print m w) (print m' w').
Proof. by intros (Hg & Hl & Hd & Hf). Qed.

Lemma same_shape_print_l m w w' :
  same_shape w w' → same_shape (print m w) w'.
Proof. by intros (Hg & Hl & Hd & Hf). Qed.

Lemma same_shape_print_r m w w' :
  same_shape w w' → same_shape w (print m w').
Proof. by intros (Hg & Hl & Hd & Hf). Qed.

Lemma same_shape_add_dir d w w' :
  same_shape w w' → same_shape (add_dir d w) (add_dir d w').
Proof.
  intros (Hg & Hl & Hd & Hf). repeat split; try done. simpl. by rewrite Hd.
Qed.

Lemma same_shape_set_glob (f : globals → globals) w w' :
  same_shape w w' →
  same_shape (set_glob (f (glob w)) w) (set_glob (f (glob w')) w').
Proof. intros (Hg & Hl & Hd & Hf). repeat split; try done. simpl. by rewrite Hg. Qed.

Lemma same_shape_leak_lock w w' :
  same_shape w w' → same_shape (leak_lock w) (leak_lock w').
Proof. by intros (Hg & Hl & Hd & Hf). Qed.

(** The text written and a write error do not change what follows. *)
Lemma alike_write_file path c c' :
  alike (write_file E path c) (write_file E' path c').
Proof.
  unfold write_file, step. split; [done|]. intros w w' Hw. simpl.
  rewrite (same_shape_isdir path w w' Hw), <- (proj1 (proj2 HE) path),
    <- (proj2 (proj2 HE) path).
  destruct (fs_isdir path w' || denied E path); [done|].
  destruct (write_error E path), (write_error E' path),
    (close_error E path); simpl;
    (split; [|done]);
    auto using same_shape_put_file, same_shape_print, same_shape_print_l,
      same_shape_print_r.
Qed.

Lemma same_shape_os_mkdir d w w' :
  same_shape w w' →
  same_shape (os_mkdir E d w).1 (os_mkdir E' d w').1
  ∧ (os_mkdir E d w).2 = (os_mkdir E' d w').2.
Proof.
  intros Hw. unfold os_mkdir.
  rewrite (same_shape_exists d w w' Hw), <- (proj1 (proj2 HE) d).
  destruct (fs_exists d w'); [done|].
  destruct (denied E d); [done|]. split; [|done]. by apply same_shape_add_dir.
Qed.

Lemma alike_ensure_dir d : alike (ensure_dir E d) (ensure_dir E' d).
Proof.
  unfold ensure_dir, step. split; [done|]. intros w w' Hw. simpl.
  split; [done|]. rewrite (same_shape_exists d w w' Hw).
  destruct (fs_exists d w'); [done|]. split; [done|].
  intros v v' Hv. simpl.
  destruct (same_shape_os_mkdir d v v' Hv) as [H1 H2].
  destruct (os_mkdir E d v) as [v1 o1], (os_mkdir E' d v') as [v1' o1'].
  simpl in *. subst o1'. by destruct o1.
Qed.

Lemma alike_count_and_mkdir n d :
  alike (count_and_mkdir E n d) (count_and_mkdir E' n d).
Proof.
  unfold count_and_mkdir, step. split; [done|]. intros w w' Hw.
  pose proof (same_shape_set_glob (count_rules n) w w' Hw) as Hw1.
  cbv zeta. rewrite (same_shape_isdir d _ _ Hw1).
  destruct (fs_isdir d _); [done|].
  destruct (same_shape_os_mkdir d _ _ Hw1) as [H1 H2].
  destruct (os_mkdir E d _) as [v1 o1], (os_mkdir E' d _) as [v1' o1'].
  simpl in *. subst o1'. destruct o1; simpl; [|done].
  split; [|done]. by apply same_shape_leak_lock.
Qed.

Lemma alike_register_all yf rs dc :
  alike (register_all yf rs dc) (register_all yf rs dc).
Proof.
  revert dc. induction rs as [|r rs IH]; intros dc; simpl; [done|].
  destruct (rulename r) as [name|]; [|done].
  split; [done|]. intros w w' Hw. split.
  - by apply (same_shape_set_glob (register name yf r)).
  - destruct Hw as (-> & _). apply IH.
Qed.

Lemma alike_merge_imports imports :
  alike (merge_imports imports) (merge_imports imports).
Proof.
  unfold merge_imports. destruct (falsy imports); [done|].
  split; [done|]. intros w w' Hw. split; [|done].
  by apply (same_shape_set_glob (update_imports imports)).
Qed.

Lemma read_content_same yf es : read_content E yf es = read_content E' yf es.
Proof.
  induction es as [|e es IH]; simpl; [done|].
  rewrite <- (proj1 HE yf e). by destruct (decode E yf e).
Qed.

Lemma extract_same yf : extract E yf = extract E' yf.
Proof. unfold extract. by rewrite read_content_same. Qed.

Lemma alike_dedupe_file out yf :
  alike (dedupe_file E out yf) (dedupe_file E' out yf).
Proof.
  unfold dedupe_file. rewrite <- extract_same.
  destruct (extract E yf) as [[[[imports rules] cs]|]|e]; [|done..].
  destruct (falsy imports && falsy rules && falsy cs); [done|].
  apply alike_bind; [apply alike_merge_imports|]. intros dc.
  apply alike_bind.
  - unfold write_commented. destruct (falsy cs); [done|].
    apply alike_bind; [apply alike_ensure_dir|]. intros _.
    apply alike_write_file.
  - intros _. unfold dedupe_rules. destruct (falsy rules); [done|].
    apply alike_bind; [apply alike_count_and_mkdir|]. intros _.
    apply alike_bind; [apply alike_register_all|]. intros dc'.
    apply alike_write_file.
Qed.

Lemma alike_dedupe files out : alike (dedupe E files out) (dedupe E' files out).
Proof.
  induction files as [|yf files IH]; simpl; [done|].
  apply alike_bind; [apply alike_dedupe_file|]. by intros _.
Qed.

End Alike.

(** ** The steps of a pass *)

Section EveryStep.
Context (R : bool → world → world → option exn → Prop).
Context (Hup : ∀ l w w' e, R l w w' None → R l w w' (Some e)).

Lemma every_step_raised l w w' (r r' : option exn) :
  R l w w' r → r = None ∨ r = r' → R l w w' r'.
Proof. intros HR [->| ->]; [|done]. destruct r'; [by apply Hup|done]. Qed.

Lemma raised_bind {A B} (p : prog A) (k : A → prog B) :
  raised p = None ∨ raised p = raised (p ≫= k).
Proof. destruct p; auto. Qed.

Lemma every_step_bind {A B} (p : prog A) (k : A → prog B) :
  every_step R p → (∀ a, every_step R (k a)) → every_step R (p ≫= k).
Proof.
  intros Hp Hk. induction p as [a|e|l effect next IH]; [apply Hk|done|].
  intros w. destruct (Hp w) as [H1 H2]. split; [|by apply IH].
  eapply every_step_raised; [exact H1|apply raised_bind].
Qed.

Lemma every_step_thread_step (p : prog unit) w :
  every_step R p → every_step R (thread_step w p).2.
Proof.
  destruct p as [a|e|l effect next]; try done.
  intros Hp. simpl. destruct (l && lock_held w); [done|]. apply Hp.
Qed.

Lemma every_step_exec_threads schedule w (threads : list (prog unit)) :
  Forall (every_step R) threads →
  Forall (every_step R) (exec schedule w threads).2.
Proof.
  revert w threads.
  induction schedule as [|i schedule IH]; intros w threads Hth; [done|].
  simpl. destruct (threads !! i) as [p|] eqn:Hp; [|by apply IH].
  apply IH, Forall_insert; [done|].
  apply every_step_thread_step. by eapply Forall_lookup_1.
Qed.

End EveryStep.

Lemma every_step_mono {A} (R R' : bool → world → world → option exn → Prop)
    (p : prog A) :
  (∀ l w w' r, R l w w' r → R' l w w' r) → every_step R p → every_step R' p.
Proof.
  intros HR. induction p as [a|e|l effect next IH]; try done.
  intros Hp w. destruct (Hp w) as [H1 H2]. split; [by apply HR|by apply IH].
Qed.

(** A property of the world that every step taken keeps holds all along
    a run, single-threaded or not. *)
Section StepInvariant.
Context (R : bool → world → world → option exn → Prop) (I : world → Prop).
Context (HI : ∀ l w w' r, R l w w' r → l && lock_held w = false → I w → I w').

Lemma every_step_run {A} (p : prog A) w :
  every_step R p → I w → I (run p w).1.
Proof.
  revert w. induction p as [a|e|l effect next IH]; intros w Hp Hw; try done.
  simpl. destruct (l && lock_held w) eqn:Hl; [done|].
  destruct (Hp w) as [H1 H2]. apply IH; [done|]. by eapply HI.
Qed.

Lemma every_step_exec schedule w (threads : list (prog unit)) :
  Forall (every_step R) threads → I w →
  I (exec schedule w threads).1.
Proof.
  revert w threads.
  induction schedule as [|i schedule IH]; intros w threads Hth Hw; [done|].
  simpl. destruct (threads !! i) as [p|] eqn:Hp; [|by apply IH].
  assert (Hstep : every_step R p) by by eapply Forall_lookup_1.
  apply IH.
  - apply Forall_insert; [done|].
    destruct p as [a|e|l effect next]; try done.
    simpl. destruct (l && lock_held w); [done|]. apply Hstep.
  - destruct p as [a|e|l effect next]; try done.
    simpl. destruct (l && lock_held w) eqn:Hl; [done|].
    destruct (Hstep w) as [H1 _]. by eapply HI.
Qed.

End StepInvariant.

Section DedupeSteps.
Context (E : env) (out : string).

Lemma dedupe_step_up yf l w w' e :
  dedupe_step E out yf l w w' None → dedupe_step E out yf l w w' (Some e).
Proof. inversion 1; subst; by econstructor. Qed.

Lemma every_step_write_file yf path c :
  path ∈ out_files out yf →
  every_step (dedupe_step E out yf) (write_file E path c).
Proof.
  intros Hp. unfold write_file, step. intros w. simpl.
  destruct (fs_isdir path w || denied E path); simpl.
  { split; [by apply step_fail|done]. }
  destruct (write_error E path) eqn:Herr, (close_error E path); simpl;
    (split; [|done]); by (apply step_write_error || apply step_write).
Qed.

Lemma every_step_ensure_dir yf d :
  d ∈ out_dirs out yf →
  every_step (dedupe_step E out yf) (ensure_dir E d).
Proof.
  intros Hd. unfold ensure_dir, step. intros w. simpl.
  split; [apply step_probe|].
  destruct (fs_exists d w); [done|]. intros v. simpl.
  unfold os_mkdir. destruct (fs_exists d v); simpl.
  { split; [by apply step_fail|done]. }
  destruct (denied E d); simpl.
  { split; [by apply step_fail|done]. }
  split; [by apply step_mkdir|done].
Qed.

Lemma every_step_count_and_mkdir yf n d :
  d ∈ out_dirs out yf →
  every_step (dedupe_step E out yf) (count_and_mkdir E n d).
Proof.
  intros Hd. unfold count_and_mkdir, step. intros w. cbv zeta.
  set (w1 := set_glob (count_rules n (glob w)) w).
  destruct (fs_isdir d w1); simpl.
  { split; [apply step_count|done]. }
  unfold os_mkdir. destruct (fs_exists d w1); simpl.
  { split; [by apply step_count_fail|done]. }
  destruct (denied E d); simpl.
  { split; [by apply step_count_fail|done]. }
  split; [by apply step_count_mkdir|done].
Qed.

Lemma every_step_register_all yf imports yar_rules commented rs dc :
  extract E yf = Ok (Some (imports, yar_rules, commented)) →
  (∀ r, r ∈ rs → r ∈ yar_rules) →
  every_step (dedupe_step E out yf) (register_all yf rs dc).
Proof.
  intros Hx. revert dc. induction rs as [|r rs IH]; intros dc Hrs; simpl; [done|].
  destruct (rulename r) as [name|] eqn:Hname; [|done].
  intros w. split.
  - eapply step_register; [done|exact Hx|]. apply Hrs. left.
  - apply IH. intros r' Hr'. apply Hrs. by right.
Qed.

Lemma every_step_merge_imports yf imports yar_rules commented :
  extract E yf = Ok (Some (imports, yar_rules, commented)) →
  every_step (dedupe_step E out yf) (merge_imports imports).
Proof.
  intros Hx. unfold merge_imports. destruct (falsy imports); [done|].
  intros w. split; [by eapply step_imports|done].
Qed.

Lemma every_step_dedupe_file yf :
  every_step (dedupe_step E out yf) (dedupe_file E out yf).
Proof.
  pose proof (dedupe_step_up yf) as Hup.
  unfold dedupe_file.
  destruct (extract E yf) as [[[[imports rules] cs]|]|e] eqn:Hx; [|done..].
  destruct (falsy imports && falsy rules && falsy cs); [done|].
  apply every_step_bind; [done|by eapply every_step_merge_imports|].
  intros dc.
  apply every_step_bind; [done| |].
  { unfold write_commented. destruct (falsy cs); [done|].
    apply every_step_bind; [done| |].
    - apply every_step_ensure_dir. unfold out_dirs. set_solver.
    - intros _. apply every_step_write_file. unfold out_files. set_solver. }
  intros _. unfold dedupe_rules. destruct (falsy rules); [done|].
  apply every_step_bind; [done| |].
  { apply every_step_count_and_mkdir. unfold out_dirs. set_solver. }
  intros _. apply every_step_bind; [done| |].
  { by eapply every_step_register_all. }
  intros dc'. apply every_step_write_file. unfold out_files. set_solver.
Qed.

Lemma pass_step_up yara_files l w w' e :
  pass_step E out yara_files l w w' None →
  pass_step E out yara_files l w w' (Some e).
Proof. intros (yf & Hyf & H). exists yf. split; [done|]. by apply dedupe_step_up. Qed.

Lemma every_step_dedupe yara_files :
  every_step (pass_step E out yara_files) (dedupe E yara_files out).
Proof.
  induction yara_files as [|yf yara_files IH]; simpl; [done|].
  apply every_step_bind; [apply pass_step_up| |].
  - eapply every_step_mono; [|apply every_step_dedupe_file].
    intros l w w' r H. exists yf. split; [left|done].
  - intros _. eapply every_step_mono; [|exact IH].
    intros l w w' r (yf' & Hyf' & H). exists yf'. split; [by right|done].
Qed.

(** The threads of a threaded run take steps of passes over the shards. *)
Lemma every_step_threads (shs : list (list string)) :
  Forall (every_step (pass_step E out (concat shs)))
    (map (fun sh => dedupe E sh out) shs).
Proof.
  apply Forall_forall. intros p (sh & -> & Hsh)%list_elem_of_fmap.
  eapply every_step_mono; [|apply every_step_dedupe].
  intros l w w' r (yf & Hyf & H). exists yf. split; [|done].
  apply list_elem_of_In, in_concat. exists sh.
  split; by apply list_elem_of_In.
Qed.

End DedupeSteps.

(** ** C9: errors while writing *)

Lemma dedupe_step_reported (E : env) out yf l w w' r :
  dedupe_step E out yf l w w' r → reported E w w'.
Proof.
  destruct 1; try (by apply reported_none);
    by (apply reported_written || apply reported_failed).
Qed.

(** C9, as the code has it. Every step of a pass of [dedupe] that writes
    to an output file whose [f.write] raises prints the message of
    [write_file] for this file and this error, and no other step reports a
    write error or changes a file. And a pass of [dedupe] ends the same way,
    with the same globals, the same directories and the same set of files,
    whatever [f.write] raises and whatever reaches the file then, in two
    environments that agree on the sources and on the errors of [os.mkdir],
    of [io.open] and of closing a file: these errors are not caught, they
    end the pass. *)
Theorem C9_write_errors_are_reported_and_skipped
    (E E' : env) (yara_files : list string) (out : string) (w : world) :
  same_inputs E E' →
  every_step (fun _ w1 w2 _ => reported E w1 w2) (dedupe E yara_files out)
  ∧ (let r := run (dedupe E yara_files out) w in
     let r' := run (dedupe E' yara_files out) w in
     r.2 = r'.2
     ∧ glob r.1 = glob r'.1
     ∧ dirs (fs r.1) = dirs (fs r'.1)
     ∧ dom (files (fs r.1)) = dom (files (fs r'.1))).
Proof.
  intros HE. split.
  - eapply every_step_mono; [|apply (every_step_dedupe E out)].
    intros l w1 w2 r (yf & _ & H). by eapply dedupe_step_reported.
  - intros r r'.
    destruct (alike_run (dedupe E yara_files out) (dedupe E' yara_files out) w w)
      as [(Hg & _ & Hd & Hf) Ho]; [by apply alike_dedupe|done|done].
Qed.

(** With every write of the contents failing, the pass over the two files
    of the scenario returns as it does without error, with the same
    registry; the two messages are printed and the output files hold the
    header only. *)
Lemma C9_write_errors_are_reported_and_skipped_witness :
  let r := run (dedupe disk_full_env ["a/x.yar"; "b/y.yar"] "out") (start "out") in
  let r' := run (dedupe (plain_env two_files) ["a/x.yar"; "b/y.yar"] "out") (start "out") in
  r.2 = r'.2 ∧ glob r.1 = glob r'.1
  ∧ r.2 = Returned tt
  ∧ stdout r.1 =
      [nl +:+ "[!] Error writing out/deduped_rules/a/x.yar: [Errno 28] No space left on device";
       nl +:+ "[!] Error writing out/deduped_rules/b/y.yar: [Errno 28] No space left on device"]
  ∧ files (fs r.1) !! "out/deduped_rules/a/x.yar" = Some (header disk_full_env).
Proof.
  destruct (C9_write_errors_are_reported_and_skipped disk_full_env
              (plain_env two_files) ["a/x.yar"; "b/y.yar"] "out" (start "out"))
    as (_ & H1 & H2 & _).
  - repeat split; intros; reflexivity.
  - split; [exact H1|]. split; [exact H2|]. clear H1 H2. vm_compute.
    repeat split; reflexivity.
Defined.

(** When [os.mkdir] raises for the output directory of the first file, or
    [io.open] for its output file, or closing this file, the pass is ended
    by the exception: the second file is never read, its two rule blocks are
    never registered, and [__main__] ends with the exception as well. *)
Lemma C9_mkdir_error_aborts_counterexample :
  let yara_files := ["a/x.yar"; "b/y.yar"] in
  (run (dedupe no_mkdir_env yara_files "out") (start "out")).2
    = Raised (OSError "out/deduped_rules/a")
  ∧ rule_names (glob (run (dedupe no_mkdir_env yara_files "out") (start "out")).1) = ∅
  ∧ (main no_mkdir_env None yara_files "out" (start "out")).2
    = Raised (OSError "out/deduped_rules/a")
  ∧ (run (dedupe no_open_env yara_files "out") (start "out")).2
    = Raised (OSError "out/deduped_rules/a/x.yar")
  ∧ elements (rule_names (glob (run (dedupe no_open_env yara_files "out") (start "out")).1))
    = ["rule Foo"]
  ∧ (run (dedupe no_close_env yara_files "out") (start "out")).2
    = Raised (OSError "out/deduped_rules/a/x.yar")
  ∧ elements (rule_names (glob (run (dedupe no_close_env yara_files "out") (start "out")).1))
    = ["rule Foo"]
  ∧ (main no_close_env None yara_files "out" (start "out")).2
    = Raised (OSError "out/deduped_rules/a/x.yar")
  ∧ elements (rule_names (glob (run (dedupe (plain_env two_files) yara_files "out") (start "out")).1))
    = ["rule Foo"; "rule Bar"].
Proof. vm_compute. done. Qed.

(** ** Invariants of the shared globals *)

Section Preserves.
Context (I : world → Prop).

Lemma preserves_bind {A B} (p : prog A) (k : A → prog B) :
  preserves I p → (∀ a, preserves I (k a)) → preserves I (p ≫= k).
Proof.
  intros Hp Hk. induction p as [a|e|l effect next IH]; [apply Hk|done|].
  intros w Hw. destruct (Hp w Hw) as [H1 H2]. split; [done|]. by apply IH.
Qed.

Lemma preserves_run {A} (p : prog A) w :
  preserves I p → I w → I (run p w).1.
Proof.
  revert w. induction p as [a|e|l effect next IH]; intros w Hp Hw; try done.
  simpl. destruct (l && lock_held w); [done|].
  destruct (Hp w Hw) as [H1 H2]. by apply IH.
Qed.

Lemma preserves_thread_step (p : prog unit) w :
  preserves I p → I w →
  I (thread_step w p).1 ∧ preserves I (thread_step w p).2.
Proof.
  destruct p as [a|e|l effect next]; try done.
  intros Hp Hw. simpl. destruct (l && lock_held w); [done|].
  apply (Hp w Hw).
Qed.

Lemma preserves_exec schedule w (threads : list (prog unit)) :
  Forall (preserves I) threads → I w →
  I (exec schedule w threads).1
  ∧ Forall (preserves I) (exec schedule w threads).2.
Proof.
  revert w threads.
  induction schedule as [|i schedule IH]; intros w threads Hth Hw; [done|].
  simpl. destruct (threads !! i) as [p|] eqn:Hp; [|by apply IH].
  destruct (preserves_thread_step p w) as [H1 H2]; [|done|].
  { by eapply Forall_lookup_1. }
  apply IH; [|done]. by apply Forall_insert.
Qed.

End Preserves.

(** A property [J] of the globals that the three updates of [dedupe] keep
    is kept by every step of [dedupe]; [ok] is what is known of the files
    the pass is run on. *)
Section GlobalInvariant.
Context (E : env) (J : globals → Prop) (ok : string → Prop).
Context (Hregister : ∀ name yf r g,
           rulename r = Some name → ok yf → J g → J (register name yf r g)).
Context (Himports : ∀ imports g, J g → J (update_imports imports g)).
Context (Hcount : ∀ n g, J g → J (count_rules n g)).

Local Abbreviation I := (fun w => J (glob w)).

Lemma preserves_write_file path c : preserves I (write_file E path c).
Proof.
  unfold write_file, step. intros w Hw. simpl.
  destruct (fs_isdir path w || denied E path); [done|].
  by destruct (write_error E path), (close_error E path).
Qed.

Lemma os_mkdir_glob d w : glob (os_mkdir E d w).1 = glob w.
Proof.
  unfold os_mkdir. destruct (fs_exists d w); [done|].
  by destruct (denied E d).
Qed.

Lemma preserves_ensure_dir d : preserves I (ensure_dir E d).
Proof.
  unfold ensure_dir, step. intros w Hw. simpl. split; [done|].
  destruct (fs_exists d w); [done|]. intros v Hv. simpl.
  pose proof (os_mkdir_glob d v) as Hg.
  destruct (os_mkdir E d v) as [v1 [e|]]; simpl in *; by rewrite Hg.
Qed.

Lemma preserves_count_and_mkdir n d : preserves I (count_and_mkdir E n d).
Proof.
  unfold count_and_mkdir, step. intros w Hw. cbv zeta.
  set (w1 := set_glob (count_rules n (glob w)) w).
  assert (Hw1 : J (glob w1)) by by apply Hcount.
  destruct (fs_isdir d w1); [done|].
  pose proof (os_mkdir_glob d w1) as Hg.
  destruct (os_mkdir E d w1) as [v1 [e|]]; simpl in *; by rewrite Hg.
Qed.

Lemma preserves_register_all yf rs dc :
  ok yf → preserves I (register_all yf rs dc).
Proof.
  intros Hyf. revert dc. induction rs as [|r rs IH]; intros dc; simpl; [done|].
  destruct (rulename r) as [name|] eqn:Hname; [|done].
  intros w Hw. split; [|apply IH]. simpl. by apply Hregister.
Qed.

Lemma preserves_merge_imports imports : preserves I (merge_imports imports).
Proof.
  unfold merge_imports. destruct (falsy imports); [done|].
  intros w Hw. split; [|done]. simpl. by apply Himports.
Qed.

Lemma preserves_write_commented out yf imports cs :
  preserves I (write_commented E out yf imports cs).
Proof.
  unfold write_commented. destruct (falsy cs); [done|].
  apply preserves_bind; [apply preserves_ensure_dir|]. intros _.
  apply preserves_write_file.
Qed.

Lemma preserves_dedupe_rules out yf rules dc :
  ok yf → preserves I (dedupe_rules E out yf rules dc).
Proof.
  intros Hyf. unfold dedupe_rules. destruct (falsy rules); [done|].
  apply preserves_bind; [apply preserves_count_and_mkdir|]. intros _.
  apply preserves_bind; [by apply preserves_register_all|]. intros dc'.
  apply preserves_write_file.
Qed.

Lemma preserves_dedupe_file out yf :
  ok yf → preserves I (dedupe_file E out yf).
Proof.
  intros Hyf. unfold dedupe_file.
  destruct (extract E yf) as [[[[imports rules] cs]|]|e]; [|done..].
  destruct (falsy imports && falsy rules && falsy cs); [done|].
  apply preserves_bind; [apply preserves_merge_imports|]. intros dc.
  apply preserves_bind; [apply preserves_write_commented|]. intros _.
  by apply preserves_dedupe_rules.
Qed.

Lemma preserves_dedupe yara_files out :
  Forall ok yara_files → preserves I (dedupe E yara_files out).
Proof.
  induction 1 as [|yf yara_files Hyf _ IH]; simpl; [done|].
  apply preserves_bind; [by apply preserves_dedupe_file|]. by intros _.
Qed.

End GlobalInvariant.

Section Registry.
Context (E : env) (P : string → Prop).

Lemma registry_ok_globals0 w : glob w = globals0 → registry_ok P w.
Proof.
  intros Hg. exists []. rewrite Hg. repeat split; simpl; constructor.
Qed.

Lemma register_keeps name yf r g l :
  rulename r = Some name → P yf →
  kept_blocks P g l →
  ∃ l', kept_blocks P (register name yf r g) l'.
Proof.
  intros Hname HP (Hnd & Hn & Hk & Hdom & Hall). unfold register.
  case_bool_decide as Hin.
  - exists l. split; [done|]. split; [done|]. split; [done|]. split; simpl.
    + rewrite dom_insert_L, Hdom. apply set_eq. intros x.
      rewrite elem_of_union, elem_of_singleton. split; [|auto].
      by intros [->|?].
    + eapply Forall_impl; [exact Hall|]. intros k (H1 & H2 & rest & H3).
      split; [done|]. split; [done|].
      destruct (decide (name = k.1)) as [->|Hne].
      * rewrite lookup_insert_eq, H3. simpl. eauto.
      * rewrite lookup_insert_ne by done. eauto.
  - exists ((name, (yf, r)) :: l).
    assert (Hfresh : name ∉ l.*1).
    { intros Hl. apply Hin. rewrite Hn. by apply elem_of_list_to_set. }
    repeat split; simpl.
    + by constructor.
    + by rewrite Hn.
    + by rewrite Hk.
    + by rewrite dom_insert_L, Hdom.
    + constructor.
      * simpl. split; [done|]. split; [done|].
        rewrite lookup_insert_eq.
        assert (rule_dict g !! name = None) as ->.
        { apply not_elem_of_dom. by rewrite Hdom. }
        simpl. eauto.
      * apply Forall_forall. intros k Hkl.
        rewrite Forall_forall in Hall.
        destruct (Hall k Hkl) as (H1 & H2 & rest & H3).
        split; [done|]. split; [done|].
        rewrite lookup_insert_ne; [eauto|].
        intros ->. apply Hfresh. apply list_elem_of_fmap. eauto.
Qed.

Lemma preserves_registry yara_files out :
  Forall P yara_files →
  preserves (registry_ok P) (dedupe E yara_files out).
Proof.
  intros Hfiles.
  apply (preserves_dedupe E (fun g => ∃ l, kept_blocks P g l) P); try done.
  intros name yf r g Hname Hyf [l Hl]. by eapply register_keeps.
Qed.

End Registry.

(** ** Entries of the kept set and the names they stand for *)

Section Entries.
Implicit Types (s t p x : string).

Lemma string_app_inv_tail s s' t : s +:+ t = s' +:+ t → s = s'.
Proof.
  revert s'. induction s as [|a s IH]; intros [|c s'] H; [done| | |].
  - apply (f_equal String.length) in H.
    rewrite string_app_nil_l, string_app_cons in H. simpl in H.
    rewrite string_app_length in H. lia.
  - apply (f_equal String.length) in H.
    rewrite string_app_nil_l, string_app_cons in H. simpl in H.
    rewrite string_app_length in H. lia.
  - rewrite !string_app_cons in H. injection H as -> H. by rewrite (IH s').
Qed.

(** Two texts cut at their first line feed. *)
Lemma split_at_newline p p' x x' :
  newline_free p → newline_free p' →
  p +:+ String LF x = p' +:+ String LF x' → p = p' ∧ x = x'.
Proof.
  unfold newline_free. revert p'.
  induction p as [|a p IH]; intros [|c p'] Hp Hp' H.
  - rewrite !string_app_nil_l in H. by injection H as ->.
  - rewrite string_app_nil_l, string_app_cons in H. injection H as <- _.
    cbn [chars list_ascii_of_string existsb] in Hp'.
    by rewrite Ascii.eqb_refl in Hp'.
  - rewrite string_app_nil_l, string_app_cons in H. injection H as -> _.
    cbn [chars list_ascii_of_string existsb] in Hp.
    by rewrite Ascii.eqb_refl in Hp.
  - rewrite !string_app_cons in H. injection H as -> H.
    cbn [chars list_ascii_of_string existsb] in Hp, Hp'.
    apply orb_false_iff in Hp as [_ Hp]. apply orb_false_iff in Hp' as [_ Hp'].
    destruct (IH p' Hp Hp' H) as [-> ->]. done.
Qed.

(** For paths without line feed, the entry determines the file and the
    trimmed block. *)
Lemma annotate_inj yf yf' r r' :
  newline_free yf → newline_free yf' →
  annotate yf r = annotate yf' r' → yf = yf' ∧ strip r = strip r'.
Proof.
  intros Hyf Hyf'. unfold annotate. intros H.
  apply (inj (String.app nl)) in H.
  apply (inj (String.app "// rule from: ")) in H.
  unfold nl in H. rewrite !(string_app_cons LF ""), !string_app_nil_l in H.
  destruct (split_at_newline _ _ _ _ Hyf Hyf' H) as [-> Hr].
  split; [done|]. by apply string_app_inv_tail in Hr.
Qed.

Lemma NoDup_fmap_via {A B C} (f : A → B) (g : A → C) (l : list A) :
  NoDup (f <$> l) →
  (∀ a b : A, a ∈ l → b ∈ l → g a = g b → f a = f b) →
  NoDup (g <$> l).
Proof.
  induction l as [|a l IH]; intros Hnd Hfg; [constructor|].
  rewrite fmap_cons in *. apply NoDup_cons in Hnd as [Ha Hnd].
  apply NoDup_cons. split.
  - intros (b & Hb & Hin)%list_elem_of_fmap. apply Ha.
    apply list_elem_of_fmap. exists b. split; [|done].
    apply Hfg; [left|by right|done].
  - apply IH; [done|]. intros b c Hb Hc. apply Hfg; by right.
Qed.

(** With paths free of line feeds, the kept set has as many entries as
    there are names. *)
Lemma kept_blocks_size g l :
  kept_blocks newline_free g l →
  size (all_yara_rules g) = size (rule_names g).
Proof.
  intros (Hnd & Hn & Hk & _ & Hall). rewrite Hn, Hk.
  rewrite !size_list_to_set, !length_fmap; [done..|].
  apply (NoDup_fmap_via fst); [done|].
  intros a b Ha Hb Hab. rewrite Forall_forall in Hall.
  destruct (Hall a Ha) as (Hna & Hpa & _), (Hall b Hb) as (Hnb & Hpb & _).
  destruct (annotate_inj _ _ _ _ Hpa Hpb Hab) as [_ Hr].
  assert (Some a.1 = Some b.1) as [= ->]; [|done].
  by rewrite <- Hna, <- Hnb, <- (rulename_strip a.2.2), Hr, rulename_strip.
Qed.

End Entries.

(** ** C1: one kept entry per name *)

Lemma kept_blocks_one_entry g l :
  kept_blocks newline_free g l → one_entry_per_name g.
Proof.
  intros Hl. split; [by eapply kept_blocks_size|].
  destruct Hl as (Hnd & Hn & Hk & _ & Hall). rewrite Forall_forall in Hall.
  split.
  - intros name Hname. rewrite Hn in Hname.
    apply elem_of_list_to_set, list_elem_of_fmap in Hname as (k & -> & Hkl).
    destruct (Hall k Hkl) as (H1 & _ & rest & H3).
    exists k.2.1, k.2.2, rest. split; [done|]. split; [done|].
    rewrite Hk. apply elem_of_list_to_set, list_elem_of_fmap. by exists k.
  - intros e He. rewrite Hk in He.
    apply elem_of_list_to_set, list_elem_of_fmap in He as (k & -> & Hkl).
    destruct (Hall k Hkl) as (H1 & _ & rest & H3).
    exists k.1, k.2.1, k.2.2, rest. split; [done|]. split; [done|].
    split; [|done]. rewrite Hn.
    apply elem_of_list_to_set, list_elem_of_fmap. by exists k.
Qed.

Lemma shards_Forall (P : string → Prop) spin yara_files shs :
  Forall P yara_files → shards spin yara_files = Some shs →
  Forall (Forall P) shs.
Proof.
  intros HP. unfold shards.
  destruct (if length yara_files <=? spin then length yara_files else spin);
    [done|].
  destruct (length yara_files / S n); [done|]. intros [= <-].
  apply Forall_forall. intros sh (i & -> & _)%list_elem_of_fmap.
  by apply Forall_take, Forall_drop.
Qed.

(** With empty globals at the start and paths without line feed, the
    globals of a single-threaded run and of every point of a threaded run
    have one entry per name. *)
Lemma registry_one_entry_per_name (E : env) (out : string) (w : world) :
  glob w = globals0 →
  (∀ yara_files,
     Forall newline_free yara_files →
     one_entry_per_name (glob (run (dedupe E yara_files out) w).1))
  ∧ (∀ spin yara_files threads schedule,
       Forall newline_free yara_files →
       dedupe_threads E spin yara_files out = Some threads →
       one_entry_per_name (glob (exec schedule w threads).1)).
Proof.
  intros Hw. split.
  - intros yara_files Hfiles.
    destruct (preserves_run (registry_ok newline_free)
                (dedupe E yara_files out) w) as [l Hl].
    + by apply preserves_registry.
    + by apply registry_ok_globals0.
    + by eapply kept_blocks_one_entry.
  - intros spin yara_files threads schedule Hfiles Hth.
    unfold dedupe_threads in Hth.
    destruct (shards spin yara_files) as [shs|] eqn:Hshs; [|done].
    injection Hth as <-.
    destruct (preserves_exec (registry_ok newline_free) schedule w
                (map (fun shard => dedupe E shard out) shs)) as [[l Hl] _].
    + apply Forall_fmap, Forall_forall. intros sh Hsh. simpl.
      apply preserves_registry.
      pose proof (shards_Forall newline_free spin yara_files shs Hfiles Hshs) as H.
      rewrite Forall_forall in H. auto.
    + by apply registry_ok_globals0.
    + by eapply kept_blocks_one_entry.
Qed.

(** *** The log of the registrations *)

Section Log.
Context (E : env).
Implicit Types (log l : list registration) (b : registration).

Lemma is_first_snoc log b i b' :
  is_first (log ++ [b]) i b'
  ↔ is_first log i b'
    ∨ (i = length log ∧ b' = b ∧ ∀ c, c ∈ log → c.1 ≠ b.1).
Proof.
  unfold is_first. split.
  - intros [Hi Hfirst].
    destruct (decide (i < length log)) as [Hlt|Hge].
    + left. rewrite lookup_app_l in Hi by lia. split; [done|].
      intros j c Hj Hc. apply (Hfirst j c Hj).
      by rewrite lookup_app_l by lia.
    + right. rewrite lookup_app_r in Hi by lia.
      destruct (i - length log) as [|k] eqn:Hk; [|by destruct k].
      injection Hi as <-. assert (i = length log) as -> by lia.
      split; [done|]. split; [done|].
      intros c (j & Hj)%list_elem_of_lookup.
      apply (Hfirst j c); [by eapply lookup_lt_Some|].
      by rewrite lookup_app_l by (by eapply lookup_lt_Some).
  - intros [[Hi Hfirst]|(-> & -> & Hfresh)].
    + assert (i < length log) by by eapply lookup_lt_Some.
      split; [by rewrite lookup_app_l|].
      intros j c Hj Hc. apply (Hfirst j c Hj).
      by rewrite lookup_app_l in Hc by lia.
    + split.
      * rewrite lookup_app_r, Nat.sub_diag by lia. done.
      * intros j c Hj Hc. rewrite lookup_app_l in Hc by lia.
        apply Hfresh. by eapply list_elem_of_lookup_2.
Qed.

Lemma logged_nil g : g = globals0 → logged [] g.
Proof.
  intros ->. split; [|split].
  - intros name. split; [set_solver|]. by intros (b & ?%elem_of_nil & _).
  - intros e. split; [set_solver|]. by intros (i & b & [? _] & _).
  - cbn [rule_names total_duplicate_rules globals0]. by rewrite size_empty.
Qed.

Lemma logged_same_registry log g g' :
  same_registry g g' → logged log g → logged log g'.
Proof.
  intros (Hn & Hk & Hd) (H1 & H2 & H3). unfold logged.
  rewrite Hn, Hk, Hd. done.
Qed.

(** The registration of one more block. *)
Lemma logged_register log b g :
  logged log g → logged (log ++ [b]) (register b.1 b.2.1 b.2.2 g).
Proof.
  intros (Hn & Hk & Hd). unfold register.
  case_bool_decide as Hin; unfold logged; simpl.
  - split; [|split].
    + intros name. rewrite Hn. split.
      * intros (c & Hc & <-). exists c. split; [|done].
        apply elem_of_app. by left.
      * intros (c & [Hc| ->%list_elem_of_singleton]%elem_of_app & <-);
          [by exists c|]. by apply Hn.
    + intros e. rewrite Hk. split.
      * intros (i & c & Hi & ->). exists i, c. split; [|done].
        apply is_first_snoc. by left.
      * intros (i & c & [Hi|(_ & _ & Hfresh)]%is_first_snoc & ->);
          [by exists i, c|].
        apply Hn in Hin as (c' & Hc' & Heq). by destruct (Hfresh c' Hc').
    + rewrite length_app. simpl. lia.
  - split; [|split].
    + intros name. rewrite elem_of_union, elem_of_singleton, Hn. split.
      * intros [->|(c & Hc & <-)].
        -- exists b. split; [|done]. apply elem_of_app. right. by left.
        -- exists c. split; [|done]. apply elem_of_app. by left.
      * intros (c & [Hc| ->%list_elem_of_singleton]%elem_of_app & <-);
          [right; by exists c|by left].
    + intros e. rewrite elem_of_union, elem_of_singleton, Hk. split.
      * intros [->|(i & c & Hi & ->)].
        -- exists (length log), b. split; [|done].
           apply is_first_snoc. right. split; [done|]. split; [done|].
           intros c Hc Heq. apply Hin, Hn. by exists c.
        -- exists i, c. split; [|done]. apply is_first_snoc. by left.
      * intros (i & c & [Hi|(_ & -> & _)]%is_first_snoc & ->);
          [right; by exists i, c|by left].
    + rewrite length_app, size_union, size_singleton; [simpl; lia|].
      by apply disjoint_singleton_l.
Qed.

Lemma registers_bind {A B} l1 l2 (p : prog A) (k : A → prog B) :
  registers l1 p → (∀ a, registers l2 (k a)) → registers (l1 ++ l2) (p ≫= k).
Proof.
  intros Hp Hk. revert l1 Hp.
  induction p as [a|e|lk effect next IH]; intros l1 Hp.
  - simpl in Hp. subst l1. apply Hk.
  - done.
  - intros w. destruct (Hp w) as [[Hs Hn]|(b & l' & -> & Hg & Hn)].
    + left. split; [done|]. by apply IH.
    + right. exists b, (l' ++ l2). split; [done|]. split; [done|].
      by apply IH.
Qed.

Lemma same_registry_refl g : same_registry g g.
Proof. done. Qed.

Lemma registers_write_file path c : registers [] (write_file E path c).
Proof.
  unfold write_file, step. intros w. simpl. left.
  destruct (fs_isdir path w || denied E path); [done|].
  by destruct (write_error E path), (close_error E path).
Qed.

Lemma registers_ensure_dir d : registers [] (ensure_dir E d).
Proof.
  unfold ensure_dir, step. intros w. simpl. left. split; [done|].
  destruct (fs_exists d w); [done|]. intros v. simpl. left.
  unfold os_mkdir. destruct (fs_exists d v); [done|].
  by destruct (denied E d).
Qed.

Lemma registers_count_and_mkdir n d : registers [] (count_and_mkdir E n d).
Proof.
  unfold count_and_mkdir, step. intros w. cbv zeta. left.
  set (w1 := set_glob (count_rules n (glob w)) w).
  destruct (fs_isdir d w1); [done|].
  unfold os_mkdir. destruct (fs_exists d w1); [done|].
  by destruct (denied E d).
Qed.

Lemma registers_merge_imports imports : registers [] (merge_imports imports).
Proof.
  unfold merge_imports. destruct (falsy imports); [done|].
  intros w. by left.
Qed.

Lemma registers_register_all yf rs dc :
  registers (omap (fun r => (fun name => (name, (yf, r))) <$> rulename r) rs)
    (register_all yf rs dc).
Proof.
  revert dc. induction rs as [|r rs IH]; intros dc; simpl; [done|].
  destruct (rulename r) as [name|]; simpl; [|done].
  intros w. right. eexists _, _. split; [done|]. split; [done|]. apply IH.
Qed.

Lemma registers_dedupe_file out yf :
  registers (file_blocks E yf) (dedupe_file E out yf).
Proof.
  unfold dedupe_file, file_blocks.
  destruct (extract E yf) as [[[[imports rules] cs]|]|e]; [|done..].
  destruct (falsy imports && falsy rules && falsy cs) eqn:Hf.
  { apply andb_true_iff in Hf as [[_ Hr]%andb_true_iff _].
    by destruct rules. }
  clear Hf.
  pose proof (registers_register_all yf rules) as Hreg.
  set (l := omap _ rules) in *.
  apply (registers_bind [] l); [apply registers_merge_imports|]. intros dc.
  apply (registers_bind [] l).
  { unfold write_commented. destruct (falsy cs); [done|].
    apply (registers_bind [] []); [apply registers_ensure_dir|]. intros _.
    apply registers_write_file. }
  intros _. unfold dedupe_rules.
  destruct (falsy rules) eqn:Hfr.
  { destruct rules; [done|discriminate]. }
  apply (registers_bind [] l); [apply registers_count_and_mkdir|]. intros _.
  pose proof (registers_bind l [] _
                (fun dc' => write_file E
                   (PosixPath.join2 (new_yf_rule_dir out yf) (yf_file_name yf))
                   (Text dc'))
                (Hreg dc) (fun dc' => registers_write_file _ _)) as Hb.
  by rewrite app_nil_r in Hb.
Qed.

Lemma registers_dedupe yara_files out :
  registers (blocks_of E yara_files) (dedupe E yara_files out).
Proof.
  induction yara_files as [|yf yara_files IH]; simpl; [done|].
  apply registers_bind; [apply registers_dedupe_file|]. by intros _.
Qed.

(** A run registers the blocks of a beginning of the list, all of them
    when it returns. *)
Lemma registers_run {A} l (p : prog A) log w :
  registers l p → logged log (glob w) →
  ∃ l1 l2, l = l1 ++ l2
           ∧ logged (log ++ l1) (glob (run p w).1)
           ∧ (∀ a, (run p w).2 = Returned a → l2 = []).
Proof.
  revert l log w. induction p as [a|e|lk effect next IH]; intros l log w Hp Hw.
  - simpl in Hp. subst l. exists [], []. rewrite (app_nil_r log). by split.
  - exists [], l. rewrite (app_nil_r log). by split.
  - simpl. destruct (lk && lock_held w).
    { exists [], l. rewrite (app_nil_r log). by split. }
    destruct (Hp w) as [[Hs Hn]|(b & l' & -> & Hg & Hn)].
    + apply IH; [done|]. by eapply logged_same_registry.
    + destruct (IH w l' (log ++ [b]) (effect w) Hn) as (l1 & l2 & -> & Hl & Hr).
      { rewrite Hg. by apply logged_register. }
      exists (b :: l1), l2. split; [done|]. split; [|done].
      by rewrite <- app_assoc in Hl.
Qed.

Lemma merges_Permutation {A} (ds : list (list A)) (order : list A) :
  merges ds order → order ≡ₚ concat ds.
Proof.
  induction 1 as [n|ds order i d a _ IH Hi].
  - induction n; simpl; [done|]. done.
  - rewrite <- (take_drop_middle _ _ _ Hi) in IH |- *.
    assert (Hlen : length (take i ds) = i).
    { rewrite length_take. apply lookup_lt_Some in Hi. lia. }
    rewrite insert_app_r_alt by lia. rewrite Hlen, Nat.sub_diag. simpl.
    rewrite !concat_app in *. simpl in *. rewrite IH.
    rewrite <- !app_assoc. by rewrite (Permutation_app_comm _ [a]).
Qed.

(** One step of a thread. *)
Lemma registers_thread_step l (p : prog unit) log w :
  registers l p → logged log (glob w) →
  (logged log (glob (thread_step w p).1) ∧ registers l (thread_step w p).2)
  ∨ ∃ b l', l = b :: l'
            ∧ logged (log ++ [b]) (glob (thread_step w p).1)
            ∧ registers l' (thread_step w p).2.
Proof.
  intros Hp Hw. destruct p as [a|e|lk effect next]; [by left..|].
  simpl. destruct (lk && lock_held w); [by left|]. simpl.
  destruct (Hp w) as [[Hs Hn]|(b & l' & -> & Hg & Hn)].
  - left. split; [|done]. by eapply logged_same_registry.
  - right. exists b, l'. split; [done|]. split; [|done].
    rewrite Hg. by apply logged_register.
Qed.

Lemma registers_exec schedule bs ds log w (threads : list (prog unit)) :
  threads_log bs ds threads → merges ds log → logged log (glob w) →
  ∃ ds' log',
    threads_log bs ds' (exec schedule w threads).2
    ∧ merges ds' log'
    ∧ logged log' (glob (exec schedule w threads).1).
Proof.
  revert ds log w threads.
  induction schedule as [|i schedule IH]; intros ds log w threads Hth Hm Hw.
  { by exists ds, log. }
  simpl. destruct (threads !! i) as [p|] eqn:Hp; [|by eapply IH].
  destruct Hth as (Hlen1 & Hlen2 & Hall).
  assert (Hi : i < length bs).
  { rewrite <- Hlen2. by eapply lookup_lt_Some. }
  destruct (lookup_lt_is_Some_2 bs i Hi) as [bsi Hbsi].
  destruct (Hall i bsi Hbsi) as (d & l & p' & Hd & Hp' & Hsplit & Hreg).
  rewrite Hp in Hp'. injection Hp' as <-.
  destruct (registers_thread_step l p log w Hreg Hw)
    as [[Hw' Hreg']|(b & l' & -> & Hw' & Hreg')].
  - apply (IH ds log); [|done|done].
    split; [done|]. split; [by rewrite length_insert|].
    intros j bsj Hj. destruct (decide (j = i)) as [->|Hne].
    + rewrite Hbsi in Hj. injection Hj as <-.
      exists d, l, (thread_step w p).2. split; [done|].
      split; [|done]. apply list_lookup_insert_eq. by eapply lookup_lt_Some.
    + destruct (Hall j bsj Hj) as (d' & l' & q & Hd' & Hq & Hs' & Hr').
      exists d', l', q. split; [done|]. split; [|done].
      by rewrite list_lookup_insert_ne.
  - apply (IH (<[i := d ++ [b]]> ds) (log ++ [b])); [|by constructor|done].
    split; [by rewrite length_insert|]. split; [by rewrite length_insert|].
    intros j bsj Hj. destruct (decide (j = i)) as [->|Hne].
    + rewrite Hbsi in Hj. injection Hj as <-.
      exists (d ++ [b]), l', (thread_step w p).2.
      split; [apply list_lookup_insert_eq; by eapply lookup_lt_Some|].
      split; [apply list_lookup_insert_eq; by eapply lookup_lt_Some|].
      split; [by rewrite <- app_assoc|done].
    + destruct (Hall j bsj Hj) as (d' & l'' & q & Hd' & Hq & Hs' & Hr').
      exists d', l'', q. split; [by rewrite list_lookup_insert_ne|].
      split; [by rewrite list_lookup_insert_ne|done].
Qed.

Lemma threads_log_start (shs : list (list string)) out :
  threads_log (map (blocks_of E) shs) (replicate (length shs) [])
    (map (fun sh => dedupe E sh out) shs).
Proof.
  split; [by rewrite length_replicate, length_map|].
  split; [by rewrite !length_map|].
  intros i bsi Hi. rewrite list_lookup_fmap in Hi.
  destruct (shs !! i) as [sh|] eqn:Hsh; [|done]. injection Hi as <-.
  exists [], (blocks_of E sh), (dedupe E sh out).
  split; [apply lookup_replicate_2; by eapply lookup_lt_Some|].
  split; [by rewrite list_lookup_fmap, Hsh|].
  split; [done|]. apply registers_dedupe.
Qed.

Lemma threads_log_prefix bs ds threads :
  threads_log bs ds threads → Forall2 (fun d bsi => d `prefix_of` bsi) ds bs.
Proof.
  intros (Hlen & _ & Hall). apply Forall2_same_length_lookup.
  split; [done|]. intros i d bsi Hd Hbsi.
  destruct (Hall i bsi Hbsi) as (d' & l & p & Hd' & _ & -> & _).
  rewrite Hd in Hd'. injection Hd' as <-. by exists l.
Qed.

Lemma threads_log_returned bs ds threads :
  threads_log bs ds threads → forallb returned threads = true → ds = bs.
Proof.
  intros (Hlen & _ & Hall) Hret. apply list_eq_same_length with (length bs);
    [done..|].
  intros i d bsi _ Hd Hbsi.
  destruct (Hall i bsi Hbsi) as (d' & l & p & Hd' & Hp & -> & Hreg).
  rewrite Hd in Hd'. injection Hd' as <-.
  rewrite forallb_forall in Hret.
  specialize (Hret p ltac:(apply list_elem_of_In; by eapply list_elem_of_lookup_2)).
  destruct p; [|done..]. simpl in Hreg. subst l. by rewrite app_nil_r.
Qed.

Lemma blocks_of_concat (shs : list (list string)) :
  concat (map (blocks_of E) shs) = blocks_of E (concat shs).
Proof.
  unfold blocks_of. induction shs as [|sh shs IH]; simpl; [done|].
  by rewrite map_app, concat_app, IH.
Qed.

End Log.

Lemma shards_concat spin (files : list string) shs :
  shards spin files = Some shs → concat shs = files.
Proof.
  intros H. destruct (decide (spin = 0)) as [->|Hs].
  { unfold shards in H. by destruct files. }
  destruct files as [|f files]; [done|].
  destruct (shards_slices spin (f :: files)) as [Heq Hpos]; [lia|done|].
  rewrite H in Heq. injection Heq as ->. by apply slices_concat.
Qed.

(** C1, as the code has it. Started with empty globals. Single-threaded,
    the blocks are registered in the order of the files and, within a file,
    of the text: however the pass ends, the blocks registered are a
    beginning of this list, all of it when the pass returns; the names are
    the names of the blocks registered, the kept set holds the entry of the
    first block registered under each name and no other entry, and every
    other block registered was counted as a duplicate. At every point of a
    threaded run the same holds of the order in which the threads have
    registered, which merges what each thread has registered so far, a
    beginning of the blocks of its shard in their order; when every thread
    has returned, all blocks of all files have been registered. And when
    no path has a line feed in it, the kept set has as many entries as
    there are names. *)
Theorem C1_one_kept_entry_per_name (E : env) (out : string) (w : world) :
  glob w = globals0 →
  (∀ yara_files,
     let r := run (dedupe E yara_files out) w in
     (∃ log, log `prefix_of` blocks_of E yara_files
             ∧ logged log (glob r.1)
             ∧ (r.2 = Returned tt → log = blocks_of E yara_files))
     ∧ (Forall newline_free yara_files →
        size (all_yara_rules (glob r.1)) = size (rule_names (glob r.1))))
  ∧ (∀ spin yara_files shs schedule,
       shards spin yara_files = Some shs →
       let r := exec schedule w (map (fun sh => dedupe E sh out) shs) in
       (∃ ds log,
          merges ds log
          ∧ Forall2 (fun d sh => d `prefix_of` blocks_of E sh) ds shs
          ∧ logged log (glob r.1)
          ∧ (forallb returned r.2 = true →
             ds = map (blocks_of E) shs ∧ log ≡ₚ blocks_of E yara_files))
     ∧ (Forall newline_free yara_files →
        size (all_yara_rules (glob r.1)) = size (rule_names (glob r.1)))).
Proof.
  intros Hw.
  destruct (registry_one_entry_per_name E out w Hw) as [Hserial Hthreaded].
  split.
  - intros yara_files r. split.
    + destruct (registers_run (blocks_of E yara_files)
                  (dedupe E yara_files out) [] w)
        as (l1 & l2 & Heq & Hl & Hret).
      { apply registers_dedupe. }
      { by apply logged_nil. }
      exists l1. split; [by exists l2|]. split; [done|].
      intros Hr. rewrite (Hret tt Hr), app_nil_r in Heq. done.
    + intros Hfiles. by destruct (Hserial yara_files Hfiles) as [Hsize _].
  - intros spin yara_files shs schedule Hshs r. split.
    + destruct (registers_exec schedule (map (blocks_of E) shs)
                  (replicate (length shs) []) [] w
                  (map (fun sh => dedupe E sh out) shs))
        as (ds & log & Hth & Hm & Hl).
      { apply threads_log_start. }
      { constructor. }
      { by apply logged_nil. }
      exists ds, log. split; [done|]. split.
      { pose proof (threads_log_prefix _ _ _ Hth) as Hpre.
        change (map (blocks_of E) shs) with (blocks_of E <$> shs) in Hpre.
        rewrite Forall2_fmap_r in Hpre. exact Hpre. }
      split; [done|]. intros Hret.
      pose proof (threads_log_returned _ _ _ Hth Hret) as ->.
      split; [done|].
      rewrite (merges_Permutation _ _ Hm), blocks_of_concat.
      by rewrite (shards_concat _ _ _ Hshs).
    + intros Hfiles. subst r.
      destruct (Hthreaded spin yara_files
                  (map (fun sh => dedupe E sh out) shs) schedule Hfiles)
        as [Hsize _]; [|done].
      unfold dedupe_threads. by rewrite Hshs.
Qed.

Lemma C1_one_kept_entry_per_name_witness :
  let r := run (dedupe (plain_env two_files) ["a/x.yar"; "b/y.yar"] "out")
             (start "out") in
  logged [("rule Foo", ("a/x.yar", "rule Foo { condition: true }"));
          ("rule Foo", ("b/y.yar", "rule Foo { condition: false }"));
          ("rule Bar", ("b/y.yar", "rule Bar { condition: true }"))]
    (glob r.1)
  ∧ elements (all_yara_rules (glob r.1))
    = [annotate "a/x.yar" "rule Foo { condition: true }";
       annotate "b/y.yar" "rule Bar { condition: true }"].
Proof.
  destruct (C1_one_kept_entry_per_name (plain_env two_files) "out" (start "out"))
    as [H _].
  - reflexivity.
  - destruct (H ["a/x.yar"; "b/y.yar"]) as [(log & _ & Hl & Heq) _].
    rewrite Heq in Hl by (vm_compute; reflexivity).
    split; [exact Hl|]. vm_compute. reflexivity.
Defined.

(** Both blocks are registered first under their names, [rule a] and
    [rule b], and their entries in the kept set are the same text: two
    names, one entry. *)
Lemma C1_colliding_entries_counterexample :
  let r := run (dedupe (plain_env colliding_files) ["d/x.yar"; colliding_path] "out")
             (start "out") in
  r.2 = Returned tt
  ∧ elements (rule_names (glob r.1)) = ["rule a"; "rule b"]
  ∧ total_duplicate_rules (glob r.1) = 0
  ∧ size (all_yara_rules (glob r.1)) = 1
  ∧ annotate "d/x.yar" ("rule a {.yar" +:+ nl +:+ "rule b { condition: true }")
    = annotate colliding_path "rule b { condition: true }".
Proof. vm_compute. done. Qed.

(** ** C3: the counters *)

Section Counters.
Context (E : env).

Lemma owes_bind {A B} (Q : A → nat → Prop) (Q' : B → nat → Prop) d
    (p : prog A) (k : A → prog B) :
  owes Q d p → (∀ a d1, Q a d1 → owes Q' d1 (k a)) → owes Q' d (p ≫= k).
Proof.
  intros Hp Hk. revert d Hp.
  induction p as [a|e|l effect next IH]; intros d Hp; [by apply Hk|done|].
  intros w. destruct (Hp w) as (d' & Heq & Hnext). exists d'.
  split; [done|]. by apply IH.
Qed.

Lemma owes_run {A} (Q : A → nat → Prop) d (p : prog A) w a :
  owes Q d p → (run p w).2 = Returned a →
  ∃ d', Q a d'
        ∧ total_rules (glob (run p w).1) + registered (glob w) + d
          = total_rules (glob w) + registered (glob (run p w).1) + d'.
Proof.
  revert d w. induction p as [a'|e|l effect next IH]; intros d w Hp; simpl.
  - intros [= ->]. by exists d.
  - done.
  - destruct (l && lock_held w); [done|]. intros Hret.
    destruct (Hp w) as (d1 & Heq & Hnext).
    destruct (IH w d1 (effect w) Hnext Hret) as (d' & HQ & Heq').
    exists d'. split; [done|]. lia.
Qed.

Lemma registered_register name yf r g :
  registered (register name yf r g) = S (registered g).
Proof.
  unfold registered, register. case_bool_decide as Hin; simpl; [lia|].
  rewrite size_union, size_singleton; [done|].
  by apply disjoint_singleton_l.
Qed.

Lemma registered_globals0 : registered globals0 = 0.
Proof. unfold registered. cbn [rule_names total_duplicate_rules globals0]. by rewrite size_empty. Qed.

Lemma total_rules_register name yf r g :
  total_rules (register name yf r g) = total_rules g.
Proof. unfold register. by case_bool_decide. Qed.

Lemma owes_write_file path c d :
  owes (fun _ d' => d' = d) d (write_file E path c).
Proof.
  unfold write_file, step. intros w. exists d. simpl.
  destruct (fs_isdir path w || denied E path); [done|].
  by destruct (write_error E path), (close_error E path).
Qed.

Lemma owes_ensure_dir dir d :
  owes (fun _ d' => d' = d) d (ensure_dir E dir).
Proof.
  unfold ensure_dir, step. intros w. exists d. simpl. split; [done|].
  destruct (fs_exists dir w); [done|]. intros v. exists d. simpl.
  pose proof (os_mkdir_glob E dir v) as Hg.
  destruct (os_mkdir E dir v) as [v1 [e|]]; simpl in *; by rewrite Hg.
Qed.

Lemma owes_count_and_mkdir n dir d :
  owes (fun _ d' => d' = d + n) d (count_and_mkdir E n dir).
Proof.
  unfold count_and_mkdir, step. intros w. exists (d + n). cbv zeta.
  set (w1 := set_glob (count_rules n (glob w)) w).
  destruct (fs_isdir dir w1); [simpl; split; [unfold registered; simpl; lia|done]|].
  pose proof (os_mkdir_glob E dir w1) as Hg.
  destruct (os_mkdir E dir w1) as [v1 [e|]]; simpl in *; rewrite Hg;
    (split; [unfold registered; simpl; lia|done]).
Qed.

Lemma owes_register_all yf rs dc d :
  owes (fun _ d' => d' = d) (d + length rs) (register_all yf rs dc).
Proof.
  revert dc. induction rs as [|r rs IH]; intros dc; simpl.
  - lia.
  - destruct (rulename r) as [name|]; [|done].
    intros w. exists (d + length rs). simpl.
    rewrite registered_register, total_rules_register. split; [lia|apply IH].
Qed.

Lemma owes_merge_imports imports d :
  owes (fun _ d' => d' = d) d (merge_imports imports).
Proof.
  unfold merge_imports. destruct (falsy imports); [done|].
  intros w. by exists d.
Qed.

Lemma owes_dedupe_file out yf :
  owes (fun _ d' => d' = 0) 0 (dedupe_file E out yf).
Proof.
  unfold dedupe_file.
  destruct (extract E yf) as [[[[imports rules] cs]|]|e]; [|done..].
  destruct (falsy imports && falsy rules && falsy cs); [done|].
  eapply owes_bind; [apply owes_merge_imports|]. intros dc _ ->.
  eapply (owes_bind (fun _ d' => d' = 0)).
  - unfold write_commented. destruct (falsy cs); [done|].
    eapply owes_bind; [apply owes_ensure_dir|]. intros _ _ ->.
    apply owes_write_file.
  - intros _ _ ->. unfold dedupe_rules. destruct (falsy rules); [done|].
    eapply owes_bind; [apply owes_count_and_mkdir|]. intros _ _ ->.
    eapply owes_bind; [apply (owes_register_all yf rules dc 0)|].
    intros dc' _ ->. apply owes_write_file.
Qed.

Lemma owes_dedupe yara_files out :
  owes (fun _ d' => d' = 0) 0 (dedupe E yara_files out).
Proof.
  induction yara_files as [|yf yara_files IH]; simpl; [done|].
  eapply owes_bind; [apply owes_dedupe_file|]. by intros _ _ ->.
Qed.

End Counters.

Section CountersThreads.
Context (E : env).

Lemma sum_list_insert (ds : list nat) i d d' :
  ds !! i = Some d → sum_list (<[i:=d']> ds) + d = sum_list ds + d'.
Proof.
  revert i. induction ds as [|x ds IH]; intros [|i]; simpl; try done.
  - intros [= ->]. lia.
  - intros H. specialize (IH i H). lia.
Qed.

Lemma owes_thread_step d (p : prog unit) w :
  owes settled d p →
  ∃ d', owes settled d' (thread_step w p).2
        ∧ total_rules (glob (thread_step w p).1) + registered (glob w) + d
          = total_rules (glob w) + registered (glob (thread_step w p).1) + d'.
Proof.
  destruct p as [a|e|l effect next]; try (by exists d).
  intros Hp. simpl. destruct (l && lock_held w); [by exists d|].
  destruct (Hp w) as (d' & Heq & Hnext). by exists d'.
Qed.

(** The counters at any point of a threaded run: [total_rules] is the
    number of registrations plus the debts of the threads. *)
Lemma owes_exec schedule w (threads : list (prog unit)) ds :
  Forall2 (owes settled) ds threads →
  total_rules (glob w) = registered (glob w) + sum_list ds →
  ∃ ds', Forall2 (owes settled) ds' (exec schedule w threads).2
         ∧ total_rules (glob (exec schedule w threads).1)
           = registered (glob (exec schedule w threads).1) + sum_list ds'.
Proof.
  revert w threads ds.
  induction schedule as [|i schedule IH]; intros w threads ds Hth Hw.
  { by exists ds. }
  simpl. destruct (threads !! i) as [p|] eqn:Hp; [|by apply (IH _ _ ds)].
  destruct (Forall2_lookup_r _ _ _ _ _ Hth Hp) as (d & Hd & Hdp).
  destruct (owes_thread_step d p w Hdp) as (d' & Hd' & Heq).
  apply (IH _ _ (<[i:=d']> ds)).
  - by apply Forall2_insert.
  - pose proof (sum_list_insert ds i d d' Hd). lia.
Qed.

Lemma owes_returned ds (threads : list (prog unit)) :
  Forall2 (owes settled) ds threads →
  forallb returned threads = true → sum_list ds = 0.
Proof.
  induction 1 as [|d p ds threads Hdp _ IH]; [done|]. simpl.
  intros [Hp Hrest]%andb_true_iff. specialize (IH Hrest). rewrite IH.
  destruct p; [|done..]. simpl in Hdp. unfold settled in Hdp. lia.
Qed.

End CountersThreads.

(** C3, as the code has it. Started with empty globals: after a pass of
    [dedupe] that returned, single-threaded, or after a threaded run in
    which every thread returned, [total_rules] is the number of names plus
    [total_duplicate_rules]; and when no path has a line feed in it, this
    is the accounting of the final report: total rules = rules after
    dedupe + duplicate rules. *)
Theorem C3_total_is_kept_plus_duplicates (E : env) (out : string) (w : world) :
  glob w = globals0 →
  (∀ yara_files,
     (run (dedupe E yara_files out) w).2 = Returned tt →
     let g := glob (run (dedupe E yara_files out) w).1 in
     total_rules g = size (rule_names g) + total_duplicate_rules g
     ∧ (Forall newline_free yara_files →
        (report g).1.1 = (report g).1.2 + (report g).2))
  ∧ (∀ spin yara_files threads schedule,
       dedupe_threads E spin yara_files out = Some threads →
       forallb returned (exec schedule w threads).2 = true →
       let g := glob (exec schedule w threads).1 in
       total_rules g = size (rule_names g) + total_duplicate_rules g
       ∧ (Forall newline_free yara_files →
          (report g).1.1 = (report g).1.2 + (report g).2)).
Proof.
  intros Hw.
  destruct (registry_one_entry_per_name E out w Hw) as [Hserial Hthreaded].
  split.
  - intros yara_files Hret g.
    destruct (owes_run (fun _ d' => d' = 0) 0 (dedupe E yara_files out) w tt)
      as (d' & -> & Heq); [apply owes_dedupe|done|].
    fold g in Heq. rewrite Hw, registered_globals0 in Heq.
    unfold registered in Heq. simpl in Heq.
    split; [lia|]. intros Hfiles. unfold report. simpl.
    destruct (Hserial yara_files Hfiles) as [Hsize _]. fold g in Hsize. lia.
  - intros spin yara_files threads schedule Hth Hret g.
    destruct (owes_exec schedule w threads (replicate (length threads) 0))
      as (ds & Hds & Heq).
    + unfold dedupe_threads in Hth.
      destruct (shards spin yara_files) as [shs|]; [|done]. injection Hth as <-.
      rewrite length_fmap. clear. induction shs as [|sh shs IH]; simpl.
      * constructor.
      * constructor; [apply owes_dedupe|apply IH].
    + rewrite Hw, registered_globals0, sum_list_replicate. simpl. lia.
    + rewrite (owes_returned ds _ Hds Hret) in Heq. fold g in Heq.
      unfold registered in Heq. split; [lia|]. intros Hfiles.
      unfold report. simpl.
      destruct (Hthreaded spin yara_files threads schedule Hfiles Hth)
        as [Hsize _].
      fold g in Hsize. lia.
Qed.

Lemma C3_total_is_kept_plus_duplicates_witness :
  let g := glob (run (dedupe (plain_env two_files) ["a/x.yar"; "b/y.yar"] "out")
                   (start "out")).1 in
  total_rules g = size (rule_names g) + total_duplicate_rules g
  ∧ (report g).1.1 = (report g).1.2 + (report g).2.
Proof.
  destruct (C3_total_is_kept_plus_duplicates (plain_env two_files) "out" (start "out"))
    as [H _].
  - reflexivity.
  - destruct (H ["a/x.yar"; "b/y.yar"]) as [H1 H2].
    + vm_compute. reflexivity.
    + split; [exact H1|]. apply H2. repeat constructor.
Defined.

(** The run over the two files with colliding entries ends with the
    report: total rules 2, rules after dedupe 1, duplicate rules 0. *)
Lemma C3_report_counterexample :
  (main (plain_env colliding_files) None ["d/x.yar"; colliding_path] "out"
     (start "out")).2 = Returned (2, 1, 0).
Proof. vm_compute. done. Qed.

(** A threaded run in which [os.mkdir] raises in the region that has just
    counted the rule of [a/x.yar]: the thread dies with the lock held, the
    other thread had finished, and the report is: total rules 3, rules
    after dedupe 2, duplicate rules 0. *)
Lemma report_after_mkdir_error_in_thread :
  (main no_mkdir_env (Some [1; 1; 1; 1; 0]) ["a/x.yar"; "b/y.yar"] "out"
     (start "out")).2 = Returned (3, 2, 0).
Proof. vm_compute. done. Qed.

(** ** C8: the imports of a file *)

Section Imports.
Context (E : env).




Lemma imports_stay (S : gset string) yara_files out w :
  S ⊆ all_imports (glob w) →
  S ⊆ all_imports (glob (run (dedupe E yara_files out) w).1).
Proof.
  intros Hw.
  apply (preserves_run (fun w => S ⊆ all_imports (glob w))); [|done].
  apply (preserves_dedupe E (fun g => S ⊆ all_imports g) (fun _ => True)).
  - intros name yf r g _ _ Hg. unfold register. by case_bool_decide.
  - intros imports g Hg. simpl. by apply union_subseteq_r'.
  - done.
  - by apply Forall_true.
Qed.

End Imports.




(** Two lines that begin with the keyword give one match when the first
    line holds the keyword alone, and a line on which no white space
    follows the keyword gives none. *)
Lemma import_lines_and_matches :
  findall1 import_re ("import" +:+ nl +:+ import_math +:+ nl)
    = ["import" +:+ nl +:+ import_math]
  ∧ findall1 import_re (("import" +:+ dquote +:+ "pe" +:+ dquote) +:+ nl) = [].
Proof. vm_compute. done. Qed.

(** ** C7: the global index *)

(** C7, on the code. The filter of line 379 leaves out the names that
    contain [all_in_one_rules.yar]; the merged file is written, at line
    364, under the name [all_in_one.yar], which the filter lets through:
    whenever the listing of the tree has it, the index has its include
    line. In the run over the two files of the scenario, [index.yar] lists
    the merged file before the two per-file outputs. *)
Theorem C7_index_lists_the_merged_file :
  index_eligible "all_in_one.yar" = true
  ∧ (∀ listing root names,
       (root, names) ∈ listing → "all_in_one.yar" ∈ names →
       include_line (PosixPath.join2 root "all_in_one.yar")
         ∈ map include_line (index_paths listing))
  ∧ files (fs (main (plain_env two_files) None ["a/x.yar"; "b/y.yar"] "out"
                 (start "out")).1) !! "out/deduped_rules/index.yar"
    = Some (header (plain_env two_files) +:+
            index_files ["out/deduped_rules/all_in_one.yar";
                         "out/deduped_rules/a/x.yar";
                         "out/deduped_rules/b/y.yar"]).
Proof.
  split; [by vm_compute|]. split; [|by vm_compute].
  intros listing root names Hin Hname.
  apply list_elem_of_fmap_2. unfold index_paths.
  apply list_elem_of_In, in_flat_map. exists (root, names).
  split; [by apply list_elem_of_In|]. simpl.
  apply in_map, list_elem_of_In, list_elem_of_filter. split; [|done].
  by vm_compute.
Qed.

(** ** C6: the merged file *)

Section Merged.
Context (E : env).

Lemma sorted_spec (S : gset string) :
  set_order E S ≡ₚ elements S →
  sorted E S ≡ₚ elements S ∧ StronglySorted String.le (sorted E S).
Proof.
  intros HS. unfold sorted. split.
  - by rewrite merge_sort_Permutation.
  - apply StronglySorted_merge_sort; apply _.
Qed.

(** The sorted list does not depend on the order of iteration. *)
Lemma sorted_unique (E' : env) (S : gset string) :
  set_order E S ≡ₚ elements S → set_order E' S ≡ₚ elements S →
  sorted E' S = sorted E S.
Proof.
  intros HS HS'.
  destruct (sorted_spec S HS) as [Hp Hs].
  assert (Hp' : sorted E' S ≡ₚ elements S).
  { unfold sorted. by rewrite merge_sort_Permutation. }
  assert (Hs' : StronglySorted String.le (sorted E' S)).
  { apply StronglySorted_merge_sort; apply _. }
  apply (StronglySorted_unique String.le); [done..|]. by rewrite Hp, Hp'.
Qed.

End Merged.

(** C6, as the code has it. When the iteration over a set goes through
    its elements, in whatever order: the merged text is the imports in the
    order of iteration, one per line, an empty line, and the kept entries
    in ascending order of their text, separated by empty lines; the list of
    entries is sorted and does not depend on the order of iteration; and
    two single-threaded passes over the same sources, in processes that
    iterate over sets differently, end with the same globals and so with
    the same list of entries. *)
Theorem C6_merged_text_layout
    (E E' : env) (yara_files : list string) (out : string) (w : world) :
  (∀ S, set_order E S ≡ₚ elements S) →
  (∀ S, set_order E' S ≡ₚ elements S) →
  same_inputs E E' →
  (∀ g,
     all_in_one E g
     = PyStr.join nl (set_order E (all_imports g)) +:+ nl +:+ nl +:+
       PyStr.join (nl +:+ nl) (sorted E (all_yara_rules g))
     ∧ set_order E (all_imports g) ≡ₚ elements (all_imports g)
     ∧ sorted E (all_yara_rules g) ≡ₚ elements (all_yara_rules g)
     ∧ StronglySorted String.le (sorted E (all_yara_rules g))
     ∧ sorted E' (all_yara_rules g) = sorted E (all_yara_rules g))
  ∧ (let g := glob (run (dedupe E yara_files out) w).1 in
     let g' := glob (run (dedupe E' yara_files out) w).1 in
     g' = g ∧ sorted E' (all_yara_rules g') = sorted E (all_yara_rules g)).
Proof.
  intros HE HE' Hsame. split.
  - intros g. split; [done|]. split; [done|].
    destruct (sorted_spec E (all_yara_rules g) (HE _)) as [Hp Hs].
    split; [done|]. split; [done|]. by apply sorted_unique.
  - intros g g'.
    destruct (alike_run (dedupe E yara_files out) (dedupe E' yara_files out) w w)
      as [(Hg & _) _]; [by apply alike_dedupe|done|].
    assert (g' = g) as -> by done. split; [done|]. by apply sorted_unique.
Qed.

Lemma C6_merged_text_layout_witness :
  let E := ordered_env elements two_imports in
  let E' := ordered_env (reverse ∘ elements) two_imports in
  let g := glob (run (dedupe E ["a/x.yar"] "out") (start "out")).1 in
  let g' := glob (run (dedupe E' ["a/x.yar"] "out") (start "out")).1 in
  g' = g ∧ sorted E' (all_yara_rules g') = sorted E (all_yara_rules g).
Proof.
  destruct (C6_merged_text_layout (ordered_env elements two_imports)
              (ordered_env (reverse ∘ elements) two_imports)
              ["a/x.yar"] "out" (start "out")) as [_ H].
  - intros S. reflexivity.
  - intros S. apply reverse_Permutation.
  - repeat split; intros; reflexivity.
  - exact H.
Defined.

(** In a process that iterates over the set of the two imports with
    [import "pe"] first, the merged text starts with [import "pe"], then
    [import "math"]: the imports are not sorted, and the text is not the
    same as in a process that iterates the other way round. *)
Lemma C6_imports_unsorted_counterexample :
  let E := ordered_env (reverse ∘ elements) two_imports in
  let g := glob (run (dedupe E ["a/x.yar"] "out") (start "out")).1 in
  set_order E (all_imports g) ≡ₚ elements (all_imports g)
  ∧ all_in_one E g
    = import_pe +:+ nl +:+ import_math +:+ nl +:+ nl +:+ nl
      +:+ "// rule from: a/x.yar" +:+ nl +:+ "rule Foo { condition: true }" +:+ nl
  ∧ merge_sort String.le (elements (all_imports g))
    = [import_math; import_pe]
  ∧ all_in_one (ordered_env elements two_imports) g ≠ all_in_one E g.
Proof.
  split; [apply reverse_Permutation|]. by vm_compute.
Qed.

(** Three files in threaded mode, each with a thread of its own: when the
    thread of [a/x.yar] runs first, the merged file has the rule [Foo] of
    [a/x.yar] before the rule [Bar]; when the thread of [c/z.yar] runs
    first, it has the rule [Bar] before the rule [Foo] of [c/z.yar]. *)
Lemma merged_rules_depend_on_schedule :
  let yara_files := ["a/x.yar"; "b/y.yar"; "c/z.yar"] in
  let run_with schedule :=
    main (plain_env three_files) (Some schedule) yara_files "out" (start "out") in
  let merged schedule :=
    files (fs (run_with schedule).1) !! "out/deduped_rules/all_in_one.yar" in
  merged [0; 0; 0; 1; 1; 1; 2; 2; 2]
  = Some (header (plain_env three_files) +:+ nl +:+ nl +:+
          PyStr.join (nl +:+ nl)
            [annotate "a/x.yar" "rule Foo { condition: true }";
             annotate "b/y.yar" "rule Bar { condition: true }"])
  ∧ merged [2; 2; 2; 1; 1; 1; 0; 0; 0]
    = Some (header (plain_env three_files) +:+ nl +:+ nl +:+
            PyStr.join (nl +:+ nl)
              [annotate "b/y.yar" "rule Bar { condition: true }";
               annotate "c/z.yar" "rule Foo { condition: false }"]).
Proof. by vm_compute. Qed.

(** * Further properties of the code *)

Section RaisesOnly.
Context (Q : exn → Prop).

Lemma raises_only_bind {A B} (p : prog A) (k : A → prog B) :
  raises_only Q p → (∀ a, raises_only Q (k a)) → raises_only Q (p ≫= k).
Proof.
  intros Hp Hk. induction p as [a|e|l effect next IH]; [apply Hk|done|].
  intros w. apply IH, Hp.
Qed.

Lemma raises_only_run {A} (p : prog A) w e :
  raises_only Q p → (run p w).2 = Raised e → Q e.
Proof.
  revert w. induction p as [a|e'|l effect next IH]; intros w Hp; simpl.
  - done.
  - by intros [= <-].
  - destruct (l && lock_held w); [done|]. apply IH, Hp.
Qed.

Lemma raises_only_thread_step (p : prog unit) w :
  raises_only Q p → raises_only Q (thread_step w p).2.
Proof.
  destruct p as [a|e|l effect next]; try done.
  intros Hp. simpl. destruct (l && lock_held w); [done|]. apply Hp.
Qed.

Lemma raises_only_exec schedule w (threads : list (prog unit)) :
  Forall (raises_only Q) threads →
  Forall (raises_only Q) (exec schedule w threads).2.
Proof.
  revert w threads.
  induction schedule as [|i schedule IH]; intros w threads Hth; [done|].
  simpl. destruct (threads !! i) as [p|] eqn:Hp; [|by apply IH].
  apply IH, Forall_insert; [done|].
  apply raises_only_thread_step. by eapply Forall_lookup_1.
Qed.

End RaisesOnly.

Section OsErrors.
Context (E : env).

Lemma raises_only_write_file path c :
  raises_only is_os_error (write_file E path c).
Proof.
  unfold write_file, step. intros w. simpl.
  destruct (fs_isdir path w || denied E path); [done|].
  by destruct (write_error E path), (close_error E path).
Qed.

Lemma os_mkdir_error d w e :
  (os_mkdir E d w).2 = Some e → is_os_error e.
Proof.
  unfold os_mkdir. destruct (fs_exists d w); [by intros [= <-]|].
  destruct (denied E d); [by intros [= <-]|done].
Qed.

Lemma raises_only_ensure_dir d : raises_only is_os_error (ensure_dir E d).
Proof.
  unfold ensure_dir, step. intros w. simpl.
  destruct (fs_exists d w); [done|]. intros v. simpl.
  pose proof (os_mkdir_error d v) as He.
  destruct (os_mkdir E d v) as [v1 [e|]]; simpl in *; [by apply He|done].
Qed.

Lemma raises_only_count_and_mkdir n d :
  raises_only is_os_error (count_and_mkdir E n d).
Proof.
  unfold count_and_mkdir, step. intros w. cbv zeta.
  set (w1 := set_glob (count_rules n (glob w)) w).
  destruct (fs_isdir d w1); [done|].
  pose proof (os_mkdir_error d w1) as He.
  destruct (os_mkdir E d w1) as [v1 [e|]]; simpl in *; [by apply He|done].
Qed.

Lemma raises_only_register_all Q yf rs dc :
  Forall (fun r => is_Some (rulename r)) rs →
  raises_only Q (register_all yf rs dc).
Proof.
  intros Hrs. revert dc. induction Hrs as [|r rs [name Hr] _ IH]; intros dc; [done|].
  simpl. rewrite Hr. intros w. apply IH.
Qed.

Lemma raises_only_merge_imports Q imports :
  raises_only Q (merge_imports imports).
Proof. unfold merge_imports. by destruct (falsy imports). Qed.

(** The rule blocks [extract] returns are among the rule blocks of the
    text of the file. *)
Lemma extract_rules yf imports rules cs :
  extract E yf = Ok (Some (imports, rules, cs)) →
  ∃ content, read_content E yf encodings = Ok (Some content) ∧ content ≠ ""
             ∧ ∀ r, r ∈ rules → r ∈ rule_blocks content.
Proof.
  intros Hx.
  destruct (read_content E yf encodings) as [[content|]|e] eqn:Hread;
    [|unfold extract in Hx; by rewrite Hread in Hx..].
  destruct (decide (content = "")) as [->|Hne];
    [unfold extract in Hx; by rewrite Hread in Hx|].
  exists content. split; [done|]. split; [done|].
  rewrite (extract_spec E yf content Hread Hne) in Hx.
  destruct (findall1 rules_re content) eqn:Hf.
  - injection Hx as <- <- <-. by intros r ?%elem_of_nil.
  - injection Hx as <- <- <-. intros r Hr. unfold live_blocks in Hr.
    by apply list_elem_of_filter in Hr as [_ Hr].
Qed.

Lemma extract_rules_named yf imports rules cs :
  extract E yf = Ok (Some (imports, rules, cs)) →
  Forall (fun r => is_Some (rulename r)) rules.
Proof.
  intros (content & _ & _ & Hsub)%extract_rules.
  apply Forall_forall. intros r Hr.
  by destruct (rule_block_named content r (Hsub r Hr)) as (_ & _ & ?).
Qed.

(** [extract] raises nothing but the [OSError] of [io.open]. *)
Lemma read_content_error yf es e :
  read_content E yf es = Error e → e = OSError yf.
Proof.
  induction es as [|c es IH]; simpl; [done|].
  destruct (decode E yf c); [by intros [= <-]|done..].
Qed.

Lemma extract_error yf e : extract E yf = Error e → e = OSError yf.
Proof.
  unfold extract.
  destruct (read_content E yf encodings) as [[content|]|e'] eqn:Hread.
  - destruct content; [done|].
    destruct (findall1 rules_re _); [done|].
    by destruct (findall 4 comments_re _).
  - done.
  - intros [= <-]. by eapply read_content_error.
Qed.

Lemma raises_only_dedupe_file out yf :
  raises_only is_os_error (dedupe_file E out yf).
Proof.
  unfold dedupe_file.
  destruct (extract E yf) as [[[[imports rules] cs]|]|e] eqn:Hx;
    [|done|by rewrite (extract_error yf e Hx)].
  destruct (falsy imports && falsy rules && falsy cs); [done|].
  apply raises_only_bind; [apply raises_only_merge_imports|]. intros dc.
  apply raises_only_bind.
  { unfold write_commented. destruct (falsy cs); [done|].
    apply raises_only_bind; [apply raises_only_ensure_dir|]. intros _.
    apply raises_only_write_file. }
  intros _. unfold dedupe_rules. destruct (falsy rules); [done|].
  apply raises_only_bind; [apply raises_only_count_and_mkdir|]. intros _.
  apply raises_only_bind.
  { apply raises_only_register_all. by eapply extract_rules_named. }
  intros dc'. apply raises_only_write_file.
Qed.

Lemma raises_only_dedupe yara_files out :
  raises_only is_os_error (dedupe E yara_files out).
Proof.
  induction yara_files as [|yf yara_files IH]; simpl; [done|].
  apply raises_only_bind; [apply raises_only_dedupe_file|]. by intros _.
Qed.

End OsErrors.

(** X1. Whatever the files hold, a pass of [dedupe] can only end with an
    error of [os.mkdir], of [io.open] or of closing a file: the
    [splitlines()[0]] of line 231 never fails, because every block
    [extract] returns is non-empty. The same holds for every thread of a
    threaded run, at every point of it. *)
Theorem X1_dedupe_raises_only_os_errors
    (E : env) (yara_files : list string) (out : string) (w : world) (e : exn) :
  ((run (dedupe E yara_files out) w).2 = Raised e → is_os_error e)
  ∧ ∀ schedule (shs : list (list string)) i,
      (exec schedule w (map (fun sh => dedupe E sh out) shs)).2 !! i
        = Some (Raise e) →
      is_os_error e.
Proof.
  split.
  - apply raises_only_run, raises_only_dedupe.
  - intros schedule shs i Hi.
    assert (Hall : Forall (raises_only is_os_error)
                     (map (fun sh => dedupe E sh out) shs)).
    { apply Forall_forall. intros p (sh & -> & _)%list_elem_of_fmap.
      apply raises_only_dedupe. }
    pose proof (raises_only_exec is_os_error schedule w _ Hall) as Hex.
    rewrite Forall_lookup in Hex. apply (Hex i _ Hi).
Qed.

Lemma X1_dedupe_raises_only_os_errors_witness :
  (run (dedupe no_mkdir_env ["a/x.yar"; "b/y.yar"] "out") (start "out")).2
    = Raised (OSError "out/deduped_rules/a")
  ∧ is_os_error (OSError "out/deduped_rules/a").
Proof.
  assert (H : (run (dedupe no_mkdir_env ["a/x.yar"; "b/y.yar"] "out")
                 (start "out")).2 = Raised (OSError "out/deduped_rules/a")).
  { vm_compute. reflexivity. }
  split; [exact H|].
  exact (proj1 (X1_dedupe_raises_only_os_errors no_mkdir_env
                  ["a/x.yar"; "b/y.yar"] "out" (start "out")
                  (OSError "out/deduped_rules/a")) H).
Defined.

(** When the first file of the list cannot be opened for reading, the
    [OSError] of [io.open] leaves [extract] and ends the pass before
    anything is registered or written. *)
Lemma unreadable_file_ends_the_pass :
  extract no_read_env "a/x.yar" = Error (OSError "a/x.yar")
  ∧ run (dedupe no_read_env ["a/x.yar"; "b/y.yar"] "out") (start "out")
    = (start "out", Raised (OSError "a/x.yar")).
Proof. vm_compute. split; reflexivity. Qed.



(** ** The lock *)

(** A schedule in two parts. *)
Lemma exec_app s1 s2 w (threads : list (prog unit)) :
  exec (s1 ++ s2) w threads =
    exec s2 (exec s1 w threads).1 (exec s1 w threads).2.
Proof.
  revert w threads. induction s1 as [|i s1 IH]; intros w threads; [done|].
  simpl. destruct (threads !! i); apply IH.
Qed.

Section Lock.
Context (E : env).

Lemma lock_kept_up l w w' e : lock_kept l w w' None → lock_kept l w w' (Some e).
Proof. intros [H|H]; [by left|by right]. Qed.

Lemma dedupe_step_lock_kept out yf l w w' r :
  dedupe_step E out yf l w w' r → lock_kept l w w' r.
Proof. inversion 1; subst; by (left + right). Qed.

(** The steps outside the lock leave the globals and the lock alone. *)
Lemma dedupe_step_unlocked out yf w w' r :
  dedupe_step E out yf false w w' r →
  glob w' = glob w ∧ lock_held w' = lock_held w.
Proof. by inversion 1; subst. Qed.

Lemma lock_kept_dedupe yara_files out :
  every_step lock_kept (dedupe E yara_files out).
Proof.
  eapply every_step_mono; [|apply every_step_dedupe].
  intros l w w' r (yf & _ & H). by eapply dedupe_step_lock_kept.
Qed.

Lemma lock_kept_write_file path c : every_step lock_kept (write_file E path c).
Proof.
  unfold write_file, step. intros w. simpl.
  destruct (fs_isdir path w || denied E path); simpl.
  { split; [by right|done]. }
  destruct (write_error E path), (close_error E path); simpl;
    (split; [by left|done]).
Qed.

Lemma lock_kept_write_dir_indexes deduped groups :
  every_step lock_kept (write_dir_indexes E deduped groups).
Proof.
  induction groups as [|[key group] groups IH]; [done|].
  cbn [write_dir_indexes].
  apply every_step_bind; [apply lock_kept_up|apply lock_kept_write_file|].
  by intros _.
Qed.

Lemma lock_kept_post_dedupe out : every_step lock_kept (post_dedupe E out).
Proof.
  unfold post_dedupe. intros w. split; [by left|].
  apply every_step_bind; [apply lock_kept_up|apply lock_kept_write_file|].
  intros _ w'. split; [by left|].
  apply every_step_bind; [apply lock_kept_up|apply lock_kept_write_file|].
  intros _.
  apply every_step_bind; [apply lock_kept_up|apply lock_kept_write_dir_indexes|].
  by intros _.
Qed.

(** Run alone from a world in which the lock is free, a program that
    keeps the lock is never blocked, and the lock is free when it returns. *)
Lemma lock_kept_run {A} (p : prog A) w :
  every_step lock_kept p → lock_held w = false →
  match (run p w).2 with
  | Blocked => False
  | Returned _ => lock_held (run p w).1 = false
  | Raised _ => True
  end.
Proof.
  revert w. induction p as [a|e|l effect next IH]; intros w Hp Hw; try done.
  simpl. rewrite Hw, andb_false_r.
  destruct (Hp w) as [[Hl|Hr] Hnext].
  - apply IH; [done|congruence].
  - destruct (next w); done.
Qed.

(** The lock is held between two steps of a threaded run only when one
    of the threads has ended with an exception. *)
Lemma lock_kept_exec schedule w (threads : list (prog unit)) :
  Forall (every_step lock_kept) threads →
  (lock_held w = true → ∃ i e, threads !! i = Some (Raise e)) →
  lock_held (exec schedule w threads).1 = true →
  ∃ i e, (exec schedule w threads).2 !! i = Some (Raise e).
Proof.
  revert w threads.
  induction schedule as [|i schedule IH]; intros w threads Hth Hw; [done|].
  simpl. destruct (threads !! i) as [p|] eqn:Hp; [|by apply IH].
  assert (Hstep : every_step lock_kept p) by by eapply Forall_lookup_1.
  assert (Hi : i < length threads) by by eapply lookup_lt_Some.
  apply IH.
  - apply Forall_insert; [done|]. by apply every_step_thread_step.
  - destruct p as [a|e|l effect next]; simpl.
    + by rewrite list_insert_id.
    + by rewrite list_insert_id.
    + destruct (l && lock_held w) eqn:Hl; simpl.
      { by rewrite list_insert_id. }
      destruct (Hstep w) as [[Hk|Hr] _].
      * rewrite Hk. intros Hheld.
        destruct (Hw Hheld) as (j & e & Hj). exists j, e.
        rewrite list_lookup_insert_ne; [done|]. intros ->. congruence.
      * intros _. destruct (next w) as [a|e|l' effect' next'] eqn:Hn; try done.
        exists i, e. by rewrite list_lookup_insert_eq.
Qed.

(** While the lock is held, the steps of [dedupe] that can still be taken
    leave the globals and the lock alone, and a thread that waits for the
    lock stays where it is. *)
Lemma held_lock_exec out schedule w (yara_files : list string)
    (threads : list (prog unit)) :
  Forall (every_step (pass_step E out yara_files)) threads →
  lock_held w = true →
  glob (exec schedule w threads).1 = glob w
  ∧ lock_held (exec schedule w threads).1 = true
  ∧ ∀ i effect next,
      threads !! i = Some (Act true effect next) →
      (exec schedule w threads).2 !! i = Some (Act true effect next).
Proof.
  revert w threads.
  induction schedule as [|i schedule IH]; intros w threads Hth Hw; [done|].
  simpl. destruct (threads !! i) as [p|] eqn:Hp; [|by apply IH].
  assert (Hstep : every_step (pass_step E out yara_files) p)
    by by eapply Forall_lookup_1.
  assert (Hsame : glob (thread_step w p).1 = glob w
                  ∧ lock_held (thread_step w p).1 = true
                  ∧ ∀ effect next, p = Act true effect next →
                      (thread_step w p).2 = p).
  { destruct p as [a|e|l effect next]; simpl; try done.
    rewrite Hw, andb_true_r. destruct l; simpl.
    { done. }
    destruct (Hstep w) as [(yf & _ & Hs) _].
    apply dedupe_step_unlocked in Hs as [-> ->]. by repeat split. }
  destruct Hsame as (Hg & Hl & Hp').
  destruct (IH (thread_step w p).1 (<[i:=(thread_step w p).2]> threads))
    as (IHg & IHl & IHt).
  { apply Forall_insert; [done|].
    by apply every_step_thread_step. }
  { done. }
  split; [by rewrite IHg|]. split; [done|].
  intros j effect next Hj. apply IHt.
  destruct (decide (i = j)) as [->|Hne].
  - rewrite list_lookup_insert_eq by by eapply lookup_lt_Some.
    assert (p = Act true effect next) as Hpj by congruence.
    f_equal. rewrite (Hp' effect next Hpj). exact Hpj.
  - by rewrite list_lookup_insert_ne.
Qed.

End Lock.

(** X2. Single-threaded, from a world in which the lock is free, the
    script never waits for its own lock: the pass of [dedupe] and the code
    after it end by returning or with an exception, and when the pass
    returns the lock is free. *)
Theorem X2_serial_run_never_blocks
    (E : env) (yara_files : list string) (out : string) (w : world) :
  lock_held w = false →
  (run (dedupe E yara_files out) w).2 ≠ Blocked
  ∧ ((run (dedupe E yara_files out) w).2 = Returned tt →
     lock_held (run (dedupe E yara_files out) w).1 = false)
  ∧ (main E None yara_files out w).2 ≠ Blocked.
Proof.
  intros Hw.
  pose proof (lock_kept_run _ w (lock_kept_dedupe E yara_files out) Hw) as H1.
  split; [|split].
  - intros Hb. by rewrite Hb in H1.
  - intros Hr. by rewrite Hr in H1.
  - unfold main. destruct (falsy yara_files); [done|].
    assert (Hall : every_step lock_kept
                     (dedupe E yara_files out ≫= fun _ => post_dedupe E out)).
    { apply every_step_bind; [apply lock_kept_up|apply lock_kept_dedupe|].
      intros _. apply lock_kept_post_dedupe. }
    pose proof (lock_kept_run _ w Hall Hw) as H2.
    intros Hb. by rewrite Hb in H2.
Qed.

Lemma X2_serial_run_never_blocks_witness :
  (run (dedupe (plain_env two_files) ["a/x.yar"; "b/y.yar"] "out")
     (start "out")).2 ≠ Blocked
  ∧ (main (plain_env two_files) None ["a/x.yar"; "b/y.yar"] "out"
       (start "out")).2 ≠ Blocked.
Proof.
  destruct (X2_serial_run_never_blocks (plain_env two_files)
              ["a/x.yar"; "b/y.yar"] "out" (start "out")) as (H1 & _ & H3).
  - reflexivity.
  - split; assumption.
Defined.

(** X3. In a threaded run started with the lock free, the lock is found
    held between two steps only when a thread has ended with an exception,
    which is then an error of [os.mkdir] or [io.open]: as long as no thread
    has died, no thread is kept waiting by a lock that nobody holds. *)
Theorem X3_lock_held_only_after_a_thread_died
    (E : env) (out : string) (w : world) (schedule : list nat)
    (shs : list (list string)) :
  lock_held w = false →
  lock_held (exec schedule w (map (fun sh => dedupe E sh out) shs)).1 = true →
  ∃ i e,
    (exec schedule w (map (fun sh => dedupe E sh out) shs)).2 !! i
      = Some (Raise e)
    ∧ is_os_error e.
Proof.
  intros Hw Hheld.
  destruct (lock_kept_exec schedule w (map (fun sh => dedupe E sh out) shs))
    as (i & e & Hi); [| |done|].
  { apply Forall_forall. intros p (sh & -> & _)%list_elem_of_fmap.
    apply lock_kept_dedupe. }
  { congruence. }
  exists i, e. split; [done|].
  assert (Hall : Forall (raises_only is_os_error)
                   (map (fun sh => dedupe E sh out) shs)).
  { apply Forall_forall. intros p (sh & -> & _)%list_elem_of_fmap.
    apply raises_only_dedupe. }
  pose proof (raises_only_exec is_os_error schedule w _ Hall) as Hex.
  rewrite Forall_lookup in Hex. apply (Hex i _ Hi).
Qed.

Lemma X3_lock_held_only_after_a_thread_died_witness :
  ∃ i e,
    (exec [0] (start "out")
       (map (fun sh => dedupe no_mkdir_env sh "out")
          [["a/x.yar"]; ["b/y.yar"]])).2 !! i = Some (Raise e)
    ∧ is_os_error e.
Proof.
  apply X3_lock_held_only_after_a_thread_died.
  - reflexivity.
  - vm_compute. reflexivity.
Defined.

(** X4. At whatever point of a threaded run the lock is found held (by
    X3, a thread has then died in the region of the lines 224-228), it is
    never released: whatever steps the threads take from there, the globals
    stay as they are at that point, and a thread that is at a
    [lock.acquire()] at that point stays there, so that [join()] never
    returns for it. *)
Theorem X4_leaked_lock_freezes_the_registry
    (E : env) (out : string) (w : world) (before after : list nat)
    (shs : list (list string)) :
  let threads := map (fun sh => dedupe E sh out) shs in
  let mid := exec before w threads in
  let fin := exec (before ++ after) w threads in
  lock_held mid.1 = true →
  glob fin.1 = glob mid.1
  ∧ lock_held fin.1 = true
  ∧ ∀ i effect next,
      mid.2 !! i = Some (Act true effect next) →
      fin.2 !! i = Some (Act true effect next).
Proof.
  intros threads mid fin Hheld. subst fin. rewrite exec_app. fold mid.
  apply (held_lock_exec E out after mid.1 (concat shs)); [|done].
  apply every_step_exec_threads, every_step_threads.
Qed.

Lemma X4_leaked_lock_freezes_the_registry_witness :
  let threads := map (fun sh => dedupe no_mkdir_env sh "out")
                   [["a/x.yar"]; ["b/y.yar"]] in
  (exec [0] (start "out") threads).2 !! 0
    = Some (Raise (OSError "out/deduped_rules/a"))
  ∧ glob (exec ([0] ++ [1; 1; 1]) (start "out") threads).1
    = glob (exec [0] (start "out") threads).1
  ∧ forallb finished (exec ([0] ++ [1; 1; 1]) (start "out") threads).2 = false.
Proof.
  destruct (X4_leaked_lock_freezes_the_registry no_mkdir_env "out"
              (start "out") [0] [1; 1; 1] [["a/x.yar"]; ["b/y.yar"]])
    as (H1 & _ & _).
  - vm_compute. reflexivity.
  - split; [vm_compute; reflexivity|]. split; [exact H1|].
    vm_compute. reflexivity.
Defined.

(** ** What a pass changes *)

Section Changes.
Context (E : env) (out : string).

(** A step of [dedupe] changes the globals by one of the three updates, or
    not at all. *)
Lemma dedupe_step_glob yf l w w' r :
  dedupe_step E out yf l w w' r →
  glob w' = glob w
  ∨ (∃ imports, glob w' = update_imports imports (glob w))
  ∨ (∃ n, glob w' = count_rules n (glob w))
  ∨ (∃ name b, rulename b = Some name
               ∧ glob w' = register name yf b (glob w)).
Proof. inversion 1; subst; simpl; eauto 8. Qed.

(** A step of [dedupe] changes the tree by making one of the directories
    of the file, by writing one of its files, or not at all. *)
Lemma dedupe_step_fs yf l w w' r :
  dedupe_step E out yf l w w' r →
  fs w' = fs w
  ∨ (∃ d, d ∈ out_dirs out yf
          ∧ dirs (fs w') = {[PosixPath.normpath d]} ∪ dirs (fs w)
          ∧ files (fs w') = files (fs w))
  ∨ (∃ p c, p ∈ out_files out yf
            ∧ dirs (fs w') = dirs (fs w)
            ∧ files (fs w') = <[PosixPath.normpath p := c]> (files (fs w))).
Proof. inversion 1; subst; simpl; eauto 8. Qed.

Lemma grows_refl g : grows g g.
Proof.
  repeat split; try done. intros name l Hl. exists []. by rewrite app_nil_r.
Qed.

Lemma grows_step g0 yf l w w' r :
  dedupe_step E out yf l w w' r →
  grows g0 (glob w) → grows g0 (glob w').
Proof.
  intros Hs (H1 & H2 & H3 & H4 & H5 & H6).
  destruct (dedupe_step_glob _ _ _ _ _ Hs)
    as [->|[[imports ->]|[[n ->]|(name & b & _ & ->)]]].
  - done.
  - repeat split; simpl; try done. set_solver.
  - repeat split; simpl; try done. lia.
  - assert (Hd : ∀ name' l0, rule_dict g0 !! name' = Some l0 →
              ∃ l', <[name:=default [] (rule_dict (glob w) !! name) ++ [yf]]>
                      (rule_dict (glob w)) !! name' = Some (l0 ++ l')).
    { intros name' l0 Hl0. destruct (H6 name' l0 Hl0) as [l' Hl'].
      destruct (decide (name = name')) as [->|Hne].
      - rewrite lookup_insert_eq, Hl'. simpl. exists (l' ++ [yf]).
        by rewrite app_assoc.
      - rewrite lookup_insert_ne by done. eauto. }
    unfold register. case_bool_decide; repeat split; simpl; try done.
    + lia.
    + set_solver.
    + set_solver.
Qed.

Lemma tree_extends_refl yara_files t : tree_extends out yara_files t t.
Proof. repeat split; auto. Qed.

Lemma tree_extends_step yara_files t0 yf l w w' r :
  yf ∈ yara_files →
  dedupe_step E out yf l w w' r →
  tree_extends out yara_files t0 (fs w) →
  tree_extends out yara_files t0 (fs w').
Proof.
  intros Hyf Hs (H1 & H2 & H3 & H4).
  destruct (dedupe_step_fs _ _ _ _ _ Hs)
    as [->|[(d & Hd & Hdirs & Hfiles)|(p & c & Hp & Hdirs & Hfiles)]].
  - done.
  - unfold tree_extends. rewrite Hdirs, Hfiles.
    split; [etrans; [exact H1|apply union_subseteq_r]|].
    split; [done|]. split; [|done].
    intros d' [->%elem_of_singleton|Hd']%elem_of_union; [|by apply H3].
    right. by exists yf, d.
  - unfold tree_extends. rewrite Hdirs, Hfiles. split; [done|]. split.
    { rewrite dom_insert. etrans; [exact H2|apply union_subseteq_r]. }
    split; [done|]. intros q.
    destruct (decide (q = PosixPath.normpath p)) as [->|Hne].
    + right. by exists yf, p.
    + rewrite lookup_insert_ne by done. apply H4.
Qed.

End Changes.

(** X5. A pass of [dedupe], and a threaded run at every point of it,
    only adds to what the globals hold: no import, kept rule or name is
    ever removed, the counters never go down, and the list of files that
    [rule_dict] has for a name is only extended at its end. *)
Theorem X5_registry_only_grows
    (E : env) (out : string) (w : world) :
  (∀ yara_files, grows (glob w) (glob (run (dedupe E yara_files out) w).1))
  ∧ ∀ schedule (shs : list (list string)),
      grows (glob w)
        (glob (exec schedule w (map (fun sh => dedupe E sh out) shs)).1).
Proof.
  split.
  - intros yara_files.
    apply (every_step_run (pass_step E out yara_files)
             (fun v => grows (glob w) (glob v))).
    + intros l v v' r (yf & _ & Hs) _. by eapply grows_step.
    + apply every_step_dedupe.
    + apply grows_refl.
  - intros schedule shs.
    apply (every_step_exec (pass_step E out (concat shs))
             (fun v => grows (glob w) (glob v))).
    + intros l v v' r (yf & _ & Hs) _. by eapply grows_step.
    + apply every_step_threads.
    + apply grows_refl.
Qed.

(** X6. A pass of [dedupe], and a threaded run at every point of it,
    touches the tree only at the places that belong to its input files: the
    directories it makes are [commented_rules/<dir>] and
    [deduped_rules/<dir>], the files it writes are the files of the name of
    an input file in these directories; every other file is left as it was
    and nothing is removed. *)
Theorem X6_only_the_artifacts_are_written
    (E : env) (out : string) (w : world) :
  (∀ yara_files,
     tree_extends out yara_files (fs w)
       (fs (run (dedupe E yara_files out) w).1))
  ∧ ∀ schedule (shs : list (list string)),
      tree_extends out (concat shs) (fs w)
        (fs (exec schedule w (map (fun sh => dedupe E sh out) shs)).1).
Proof.
  split.
  - intros yara_files.
    apply (every_step_run (pass_step E out yara_files)
             (fun v => tree_extends out yara_files (fs w) (fs v))).
    + intros l v v' r (yf & Hyf & Hs) _. by eapply tree_extends_step.
    + apply every_step_dedupe.
    + apply tree_extends_refl.
  - intros schedule shs.
    apply (every_step_exec (pass_step E out (concat shs))
             (fun v => tree_extends out (concat shs) (fs w) (fs v))).
    + intros l v v' r (yf & Hyf & Hs) _. by eapply tree_extends_step.
    + apply every_step_threads.
    + apply tree_extends_refl.
Qed.

(** ** The books of the registry *)

Section Ledger.
Context (E : env) (out : string).

Lemma sum_map_insert_new (f : string * list string → nat)
    (m : gmap string (list string)) k v :
  m !! k = None →
  sum_list_with f (map_to_list (<[k:=v]> m))
  = f (k, v) + sum_list_with f (map_to_list m).
Proof. intros Hk. by rewrite (map_to_list_insert m k v Hk). Qed.

Lemma sum_map_insert_old (f : string * list string → nat)
    (m : gmap string (list string)) k v0 v :
  m !! k = Some v0 →
  sum_list_with f (map_to_list (<[k:=v]> m)) + f (k, v0)
  = sum_list_with f (map_to_list m) + f (k, v).
Proof.
  intros Hk. rewrite <- (insert_delete_eq m k v).
  rewrite sum_map_insert_new by apply lookup_delete_eq.
  rewrite <- (map_to_list_delete m k v0 Hk). simpl. lia.
Qed.

Lemma ledger_ok_globals0 : ledger_ok globals0.
Proof.
  split; [|split]; simpl.
  - apply dom_empty_L.
  - intros name l Hl. by rewrite lookup_empty in Hl.
  - unfold surplus. simpl. by rewrite map_to_list_empty.
Qed.

Lemma ledger_ok_register name yf b g :
  ledger_ok g → ledger_ok (register name yf b g).
Proof.
  intros (Hdom & Hne & Hsum). unfold register, ledger_ok, surplus in *.
  case_bool_decide as Hin; simpl.
  - assert (is_Some (rule_dict g !! name)) as [l Hl].
    { apply elem_of_dom. by rewrite Hdom. }
    rewrite Hl. simpl. split; [|split].
    + rewrite dom_insert_L, Hdom. apply set_eq. intros x.
      rewrite elem_of_union, elem_of_singleton. split; [|auto].
      by intros [->|?].
    + intros name' l'. destruct (decide (name = name')) as [->|Hneq].
      * rewrite lookup_insert_eq. intros [= <-]. by destruct l.
      * rewrite lookup_insert_ne by done. apply Hne.
    + pose proof (sum_map_insert_old
                    (fun kv : string * list string => length kv.2 - 1)
                    (rule_dict g) name l (l ++ [yf]) Hl) as Hs.
      simpl in Hs. rewrite length_app in Hs. simpl in Hs.
      specialize (Hne name l Hl). destruct l; [done|]. simpl in *. lia.
  - assert (rule_dict g !! name = None) as Hl.
    { apply not_elem_of_dom. by rewrite Hdom. }
    rewrite Hl. simpl. split; [|split].
    + by rewrite dom_insert_L, Hdom.
    + intros name' l'. destruct (decide (name = name')) as [->|Hneq].
      * rewrite lookup_insert_eq. by intros [= <-].
      * rewrite lookup_insert_ne by done. apply Hne.
    + rewrite sum_map_insert_new by done. simpl. lia.
Qed.

Lemma ledger_ok_step yf l w w' r :
  dedupe_step E out yf l w w' r →
  ledger_ok (glob w) → ledger_ok (glob w').
Proof.
  intros Hs Hg.
  destruct (dedupe_step_glob _ _ _ _ _ _ _ Hs)
    as [->|[[imports ->]|[[n ->]|(name & b & _ & ->)]]]; try done.
  by apply ledger_ok_register.
Qed.

(** The kept set never has more entries than there are names. *)
Lemma kept_le_names_step yf l w w' r :
  dedupe_step E out yf l w w' r →
  size (all_yara_rules (glob w)) ≤ size (rule_names (glob w)) →
  size (all_yara_rules (glob w')) ≤ size (rule_names (glob w')).
Proof.
  intros Hs Hg.
  destruct (dedupe_step_glob _ _ _ _ _ _ _ Hs)
    as [->|[[imports ->]|[[n ->]|(name & b & _ & ->)]]]; try done.
  unfold register. case_bool_decide as Hin; simpl; [done|].
  rewrite (size_union {[name]}) by by apply disjoint_singleton_l.
  rewrite size_union_alt, !size_singleton.
  pose proof (subseteq_size (all_yara_rules (glob w) ∖ {[annotate yf b]})
                (all_yara_rules (glob w))) as Hle.
  specialize (Hle ltac:(apply subseteq_difference_l; reflexivity)). lia.
Qed.

(** [total_rules] is never behind the registrations when a pass is run
    alone, however it ends. *)
Lemma owes_run_any {A} (Q : A → nat → Prop) d (p : prog A) w :
  owes Q d p →
  ∃ d', total_rules (glob (run p w).1) + registered (glob w) + d
        = total_rules (glob w) + registered (glob (run p w).1) + d'.
Proof.
  revert d w. induction p as [a'|e|l effect next IH]; intros d w Hp; simpl.
  - by exists d.
  - by exists d.
  - destruct (l && lock_held w); [by exists d|].
    destruct (Hp w) as (d1 & Heq & Hnext).
    destruct (IH w d1 (effect w) Hnext) as (d' & Heq').
    exists d'. lia.
Qed.

Lemma owes_threads (shs : list (list string)) :
  Forall2 (owes settled) (replicate (length shs) 0)
    (map (fun sh => dedupe E sh out) shs).
Proof.
  induction shs as [|sh shs IH]; simpl; constructor; [|done].
  apply owes_dedupe.
Qed.

End Ledger.

(** X7. Started with empty globals, the books of the registry agree
    after a pass of [dedupe] however it ends, and at every point of a
    threaded run: the keys of [rule_dict] are exactly the registered names,
    every name has at least one file, and the files beyond the first of each
    name (what the report lists under "Duplicate rules") are as many as
    [total_duplicate_rules]. *)
Theorem X7_rule_dict_accounts_for_the_duplicates
    (E : env) (out : string) (w : world) :
  glob w = globals0 →
  (∀ yara_files, ledger_ok (glob (run (dedupe E yara_files out) w).1))
  ∧ ∀ schedule (shs : list (list string)),
      ledger_ok (glob (exec schedule w (map (fun sh => dedupe E sh out) shs)).1).
Proof.
  intros Hw.
  assert (H0 : ledger_ok (glob w)) by (rewrite Hw; apply ledger_ok_globals0).
  split.
  - intros yara_files.
    apply (every_step_run (pass_step E out yara_files)
             (fun v => ledger_ok (glob v))); [|apply every_step_dedupe|done].
    intros l v v' r (yf & _ & Hs) _. by eapply ledger_ok_step.
  - intros schedule shs.
    apply (every_step_exec (pass_step E out (concat shs))
             (fun v => ledger_ok (glob v))); [|apply every_step_threads|done].
    intros l v v' r (yf & _ & Hs) _. by eapply ledger_ok_step.
Qed.

Lemma X7_rule_dict_accounts_for_the_duplicates_witness :
  ledger_ok
    (glob (run (dedupe (plain_env two_files) ["a/x.yar"; "b/y.yar"] "out")
             (start "out")).1).
Proof.
  destruct (X7_rule_dict_accounts_for_the_duplicates (plain_env two_files)
              "out" (start "out")) as [H _].
  - reflexivity.
  - apply H.
Defined.

(** X8. Started with empty globals, the numbers of the final report
    satisfy: rules after dedupe + duplicate rules <= total rules, after a
    pass of [dedupe] however it ends and at every point of a threaded run,
    whatever the paths and the order of the steps. *)
Theorem X8_report_never_exceeds_the_total
    (E : env) (out : string) (w : world) :
  glob w = globals0 →
  (∀ yara_files,
     let g := glob (run (dedupe E yara_files out) w).1 in
     (report g).1.2 + (report g).2 ≤ (report g).1.1)
  ∧ ∀ schedule (shs : list (list string)),
      let g := glob (exec schedule w (map (fun sh => dedupe E sh out) shs)).1 in
      (report g).1.2 + (report g).2 ≤ (report g).1.1.
Proof.
  intros Hw.
  assert (H0 : size (all_yara_rules (glob w)) ≤ size (rule_names (glob w)))
    by by rewrite Hw.
  split.
  - intros yara_files g. unfold report. simpl.
    assert (Hk : size (all_yara_rules g) ≤ size (rule_names g)).
    { apply (every_step_run (pass_step E out yara_files)
               (fun v => size (all_yara_rules (glob v))
                         ≤ size (rule_names (glob v))));
        [|apply every_step_dedupe|done].
      intros l v v' r (yf & _ & Hs) _. by eapply kept_le_names_step. }
    destruct (owes_run_any (fun _ d' => d' = 0) 0 (dedupe E yara_files out) w)
      as (d' & Heq); [apply owes_dedupe|].
    fold g in Heq. rewrite Hw, registered_globals0 in Heq.
    unfold registered in Heq. simpl in Heq. lia.
  - intros schedule shs g. unfold report. simpl.
    assert (Hk : size (all_yara_rules g) ≤ size (rule_names g)).
    { apply (every_step_exec (pass_step E out (concat shs))
               (fun v => size (all_yara_rules (glob v))
                         ≤ size (rule_names (glob v))));
        [|apply every_step_threads|done].
      intros l v v' r (yf & _ & Hs) _. by eapply kept_le_names_step. }
    destruct (owes_exec schedule w (map (fun sh => dedupe E sh out) shs)
                (replicate (length shs) 0)) as (ds & _ & Heq).
    + apply owes_threads.
    + rewrite Hw, registered_globals0, sum_list_replicate. simpl. lia.
    + fold g in Heq. unfold registered in Heq. lia.
Qed.

Lemma X8_report_never_exceeds_the_total_witness :
  let g := glob (run (dedupe (plain_env two_files) ["a/x.yar"; "b/y.yar"]
                        "out") (start "out")).1 in
  (report g).1.2 + (report g).2 ≤ (report g).1.1.
Proof.
  destruct (X8_report_never_exceeds_the_total (plain_env two_files)
              "out" (start "out")) as [H _].
  - reflexivity.
  - apply H.
Defined.

(** ** The threads of [dedupe_threaded] *)

Section PostDedupe.
Context (E : env).

Lemma raises_only_write_dir_indexes deduped groups :
  raises_only is_os_error (write_dir_indexes E deduped groups).
Proof.
  induction groups as [|[key group] groups IH]; [done|].
  cbn [write_dir_indexes].
  apply raises_only_bind; [apply raises_only_write_file|]. by intros _.
Qed.

Lemma raises_only_post_dedupe out :
  raises_only is_os_error (post_dedupe E out).
Proof.
  unfold post_dedupe. intros w.
  apply raises_only_bind; [apply raises_only_write_file|].
  intros _ w'.
  apply raises_only_bind; [apply raises_only_write_file|]. intros _.
  apply raises_only_bind; [apply raises_only_write_dir_indexes|].
  by intros _.
Qed.

End PostDedupe.

Lemma shards_None (spin : nat) (yara_files : list string) :
  shards spin yara_files = None ↔ spin = 0 ∨ yara_files = [].
Proof.
  split.
  - intros Hnone.
    destruct (decide (spin = 0)) as [|Hs]; [by left|].
    destruct yara_files as [|yf yara_files]; [by right|].
    destruct (shards_slices spin (yf :: yara_files)) as [Hsome _];
      [lia|done|]. congruence.
  - unfold shards. intros [->| ->]; simpl.
    + by destruct (length yara_files).
    + done.
Qed.

(** X9. The division of line 261 fails exactly when there is no file or
    no thread to start; run as a script, with its ten threads and after the
    check of line 333, [dedupe_threaded] never divides by zero, and no
    [IndexError] or [ZeroDivisionError] ever ends the run. *)
Theorem X9_no_division_by_zero
    (E : env) (threaded : option (list nat)) (yara_files : list string)
    (out : string) (w : world) (spin : nat) :
  (shards spin yara_files = None ↔ spin = 0 ∨ yara_files = [])
  ∧ (main E threaded yara_files out w).2 ≠ Raised ZeroDivisionError
  ∧ (main E threaded yara_files out w).2 ≠ Raised IndexError.
Proof.
  split; [apply shards_None|].
  assert (Hmain : ∀ e, (main E threaded yara_files out w).2 = Raised e →
            e = SystemExit ∨ is_os_error e).
  { intros e. unfold main. destruct (falsy yara_files) eqn:Hf.
    { intros [= <-]. by left. }
    destruct threaded as [schedule|].
    - unfold dedupe_threads.
      destruct (shards spin_threads yara_files) as [shs|] eqn:Hsh; simpl.
      + destruct (forallb finished _); [|done]. intros He. right.
        eapply raises_only_run; [apply raises_only_post_dedupe|exact He].
      + apply shards_None in Hsh as [?| ->]; done.
    - intros He. right.
      eapply raises_only_run; [|exact He].
      apply raises_only_bind; [apply raises_only_dedupe|].
      intros _. apply raises_only_post_dedupe. }
  split; intros He; by destruct (Hmain _ He).
Qed.

(** X10. With a positive thread count [spin] and a non-empty list of
    files, [dedupe_threaded] starts at least [min(len(files), spin)] threads
    and fewer than twice as many, and no thread gets an empty shard. *)
Theorem X10_thread_count_bounds
    (spin : nat) (yara_files : list string) (shs : list (list string)) :
  0 < spin → yara_files ≠ [] →
  shards spin yara_files = Some shs →
  length yara_files `min` spin ≤ length shs
  ∧ length shs < 2 * (length yara_files `min` spin)
  ∧ Forall (fun sh => sh ≠ []) shs.
Proof.
  intros Hs Hf Hsh.
  destruct (shards_slices spin yara_files Hs Hf) as [Heq Hpos].
  rewrite Heq in Hsh. injection Hsh as <-.
  set (n := length yara_files) in *.
  set (t := n `min` spin) in *.
  set (each := n / t) in *.
  assert (Hn : 0 < n) by (subst n; destruct yara_files; [done|simpl; lia]).
  assert (Ht : 0 < t) by lia.
  assert (Hlo : t * each ≤ n) by apply Nat.Div0.mul_div_le.
  assert (Hhi : n < t * S each) by (apply Nat.mul_succ_div_gt; lia).
  rewrite slices_length. fold n. split; [|split].
  - transitivity (t * each / each).
    + rewrite Nat.div_mul by lia. done.
    + apply Nat.Div0.div_le_mono. lia.
  - apply Nat.Div0.div_lt_upper_bound. nia.
  - apply Forall_forall. intros sh Hin.
    apply list_elem_of_lookup in Hin as [i Hi].
    destruct (slices_lookup_length each yara_files i sh Hpos Hi) as [Hlen _].
    destruct sh; [simpl in Hlen; lia|done].
Qed.

Lemma X10_thread_count_bounds_witness :
  let shs := map (fun f => [f]) eleven_files in
  length eleven_files `min` 10 ≤ length shs
  ∧ length shs < 2 * (length eleven_files `min` 10)
  ∧ Forall (fun sh => sh ≠ []) shs.
Proof.
  cbv zeta. apply (X10_thread_count_bounds 10 eleven_files).
  - lia.
  - discriminate.
  - vm_compute. reflexivity.
Defined.

(** ** The groups of a match *)

Section Captures.
Implicit Types (s : cursor) (w : string) (r : regex).

(** The groups a match records are texts matched by groups of the
    pattern. *)
Lemma matches_caps r s w s' :
  matches r s w s' →
  ∃ new, caps s' = new ++ caps s
         ∧ Forall (fun nw : nat * string => captures r nw.1 nw.2) new.
Proof.
  induction 1 as [s|c t s|p a t s| | |r1 r2 s w1 s1 w2 s2 _ IH1 _ IH2
                  |r1 r2 s w s' _ IH|r1 r2 s w s' _ IH|g r s
                  |g r s w1 s1 w2 s2 _ IH1 _ _ IH2|n r s w s' Hm IH];
    try (by exists []).
  - destruct IH1 as (n1 & H1 & F1), IH2 as (n2 & H2 & F2).
    exists (n2 ++ n1). split; [by rewrite H2, H1, app_assoc|].
    apply Forall_app. split.
    + eapply Forall_impl; [exact F2|]. intros; simpl; auto.
    + eapply Forall_impl; [exact F1|]. intros; simpl; auto.
  - destruct IH as (n1 & H1 & F1). exists n1. split; [done|].
    eapply Forall_impl; [exact F1|]. intros; simpl; auto.
  - destruct IH as (n1 & H1 & F1). exists n1. split; [done|].
    eapply Forall_impl; [exact F1|]. intros; simpl; auto.
  - destruct IH1 as (n1 & H1 & F1), IH2 as (n2 & H2 & F2).
    exists (n2 ++ n1). split; [by rewrite H2, H1, app_assoc|].
    apply Forall_app. split; [done|].
    eapply Forall_impl; [exact F1|]. intros; simpl; auto.
  - destruct IH as (n1 & H1 & F1). exists ((n, w) :: n1). split.
    + simpl. by rewrite H1.
    + constructor.
      * simpl. left. split; [done|]. by exists s, s'.
      * eapply Forall_impl; [exact F1|]. intros; simpl; auto.
Qed.

Lemma group_captures r n (cs : list (nat * string)) :
  Forall (fun nw : nat * string => captures r nw.1 nw.2) cs →
  group n cs = "" ∨ captures r n (group n cs).
Proof.
  induction 1 as [|[m w] cs Hw _ IH]; [by left|]. simpl.
  destruct (Nat.eqb_spec m n) as [->|Hne]; [by right|done].
Qed.

(** What [m.group(n)] is for a match found by the scan: the group took no
    part, or it holds a text matched by a group of this number. *)
Lemma hit_group r n p w c (txt : string) :
  matches r {| prev := p; rest := txt; caps := [] |} w c →
  group n (caps c) = "" ∨ captures r n (group n (caps c)).
Proof.
  intros (new & Hc & Hall)%matches_caps. simpl in Hc.
  rewrite app_nil_r in Hc. rewrite Hc. by apply group_captures.
Qed.

End Captures.

(** ** The comments [extract] returns *)

Section Comments.
Context (E : env).
Implicit Types (g w content : string).

Ltac invert_matches :=
  repeat match goal with
    | H : matches Eps _ _ _ |- _ => inversion H; subst; clear H
    | H : matches (Chr _) _ _ _ |- _ => inversion H; subst; clear H
    | H : matches (Cls _) _ _ _ |- _ => inversion H; subst; clear H
    | H : matches Bol _ _ _ |- _ => inversion H; subst; clear H
    | H : matches Eol _ _ _ |- _ => inversion H; subst; clear H
    | H : matches (Seq _ _) _ _ _ |- _ => inversion H; subst; clear H
    | H : matches (Alt _ _) _ _ _ |- _ => inversion H; subst; clear H
    | H : matches (Grp _ _) _ _ _ |- _ => inversion H; subst; clear H
    end.

Lemma is_comment_char (a : ascii) : is_comment (String a "") = false.
Proof.
  unfold is_comment, strip, strip_by. cbn [rstrip_by].
  destruct (isspace a) eqn:Ha; cbn [lstrip_by]; rewrite ?Ha;
    cbn [startswith]; by rewrite ?andb_false_r.
Qed.

Lemma is_comment_star (t : string) : is_comment (String "*" t) = false.
Proof.
  unfold is_comment, strip, strip_by. by rewrite rstrip_by_keep.
Qed.

(** The inner groups of [comments_re] hold one character or a text
    that begins with a star: none of them looks like a comment. *)
Lemma comments_re_inner_group n g :
  n ≠ 1 → captures comments_re n g → is_comment g = false.
Proof.
  intros Hn. cbv [comments_re Plus Lit Any captures].
  intros H.
  repeat match goal with
    | H : _ ∨ _ |- _ => destruct H as [H|H]
    | H : _ ∧ _ |- _ => destruct H as [? H]
    | H : ∃ _, _ |- _ => destruct H as [? H]
    | H : False |- _ => destruct H
    end; try congruence; invert_matches;
    rewrite ?string_app_cons, ?string_app_nil_l;
    first [apply is_comment_char | apply is_comment_star].
Qed.

(** Of the four groups of a match of [comments_re], the filter of the
    lines 164-165 keeps the first, which is the comment. *)
Lemma comment_groups_filtered (h : hit) content :
  h ∈ finditer comments_re content →
  filter (fun c => c ≠ "")
    (filter (fun c => is_comment c = true)
       (map (fun i => group i (snd h)) (seq 1 4)))
  = [group 1 (snd h)].
Proof.
  intros (p & txt & c & Hm & Hc)%finditer_hits. rewrite Hc.
  assert (Hin : ∀ n, n ≠ 1 → is_comment (group n (caps c)) = false).
  { intros n Hn. destruct (hit_group _ n _ _ _ _ Hm) as [->|Hcap]; [done|].
    by apply comments_re_inner_group in Hcap. }
  pose proof Hm as Hm'.
  apply comments_re_match in Hm' as [Hg Hopen].
  apply is_comment_opener in Hopen as [Hcom Hne]. rewrite <- Hg in Hcom, Hne.
  simpl. rewrite !filter_cons, filter_nil.
  rewrite (decide_True _ _ Hcom).
  rewrite !decide_False by (rewrite Hin; done).
  by rewrite filter_cons, decide_True, filter_nil.
Qed.

Lemma comment_groups_concat content (hs : list hit) :
  (∀ h, h ∈ hs → h ∈ finditer comments_re content) →
  filter (fun c => c ≠ "")
    (filter (fun c => is_comment c = true)
       (concat (map (fun h : hit => map (fun i => group i (snd h)) (seq 1 4))
                  hs)))
  = map (fun h : hit => group 1 (snd h)) hs.
Proof.
  induction hs as [|h hs IH]; intros Hall; [done|].
  cbn [map concat]. rewrite !filter_app.
  rewrite (comment_groups_filtered h content) by (apply Hall; left).
  simpl. f_equal. apply IH. intros h' Hh'. apply Hall. by right.
Qed.

(** The comments [extract] keeps are the comment blocks of the text. *)
Lemma commented_of_comment_blocks content :
  commented_of content = comment_blocks content.
Proof.
  unfold commented_of, comment_blocks, findall, findall1.
  by apply (comment_groups_concat content).
Qed.

End Comments.

(** X11. When [extract] finds a rule block in a file, the list of
    commented rules it returns is the list of the comments of the text, in
    text order, one entry per comment: of the four groups [findall] reports
    for every comment, the flattening and the filter of the lines 164-165
    keep the first, the comment itself, and never an inner group. *)
Theorem X11_commented_rules_are_the_comments
    (E : env) (yf content : string) :
  read_content E yf encodings = Ok (Some content) →
  findall1 rules_re content ≠ [] →
  ∃ imports yar_rules,
    extract E yf = Ok (Some (imports, yar_rules, findall1 comments_re content))
    ∧ Forall (fun c => c ≠ "" ∧ (startswith "/*" c || startswith "//" c) = true)
        (findall1 comments_re content).
Proof.
  intros Hread Hrules.
  assert (Hne : content ≠ "").
  { intros ->. apply Hrules. vm_compute. reflexivity. }
  rewrite (extract_spec E yf content Hread Hne).
  destruct (findall1 rules_re content) as [|b bs] eqn:Hb; [done|].
  exists (findall1 import_re content), (live_blocks content).
  rewrite commented_of_comment_blocks. split; [done|].
  apply Forall_forall. intros c Hc.
  apply findall1_matches in Hc as (h & p' & s' & c' & _ & -> & Hm & Hcaps).
  apply comments_re_match in Hm as [Hg Hopen]. rewrite Hcaps, Hg.
  split; [|done]. by apply is_comment_opener in Hopen as [_ ?].
Qed.

Lemma X11_commented_rules_are_the_comments_witness :
  ∃ imports yar_rules,
    extract comment_and_rule_env "rules/n.yar"
    = Ok (Some (imports, yar_rules, findall1 comments_re comment_and_rule_text))
    ∧ Forall (fun c => c ≠ "" ∧ (startswith "/*" c || startswith "//" c) = true)
        (findall1 comments_re comment_and_rule_text).
Proof.
  apply X11_commented_rules_are_the_comments.
  - reflexivity.
  - intros H. vm_compute in H. discriminate.
Defined.

(** ** Where the contents of the globals come from *)

Section Provenance.
Context (E : env) (out : string).

Lemma found_in_refl yara_files g : found_in E yara_files g g.
Proof. repeat split; auto. Qed.

Lemma found_in_step yara_files g0 yf l w w' r :
  yf ∈ yara_files →
  dedupe_step E out yf l w w' r →
  found_in E yara_files g0 (glob w) → found_in E yara_files g0 (glob w').
Proof.
  intros Hyf Hs (H1 & H2 & H3). inversion Hs; subst; simpl; try done.
  - split; [|done]. intros i [Hi|Hi]%elem_of_union; [|by apply H1].
    right. exists yf, imports, yar_rules, commented.
    split; [done|]. split; [done|]. by apply elem_of_list_to_set in Hi.
  - unfold register. case_bool_decide; simpl; [done|].
    split; [done|]. split.
    + intros e [->%elem_of_singleton|He]%elem_of_union; [|by apply H2].
      right. by exists yf, imports, yar_rules, commented, r0.
    + intros n [->%elem_of_singleton|Hn]%elem_of_union; [|by apply H3].
      right. by exists yf, imports, yar_rules, commented, r0.
Qed.

End Provenance.

(** X13. Nothing is invented: whatever a pass of [dedupe] or a threaded
    run adds to the globals was found in an input file. An added import is
    one of the imports [extract] returns for an input file, an added entry
    of the kept set is the annotated text of a rule block [extract] returns
    for the input file it names, and an added name is the name of such a
    block. *)
Theorem X13_globals_come_from_the_input_files
    (E : env) (out : string) (w : world) :
  (∀ yara_files,
     found_in E yara_files (glob w)
       (glob (run (dedupe E yara_files out) w).1))
  ∧ ∀ schedule (shs : list (list string)),
      found_in E (concat shs) (glob w)
        (glob (exec schedule w (map (fun sh => dedupe E sh out) shs)).1).
Proof.
  split.
  - intros yara_files.
    apply (every_step_run (pass_step E out yara_files)
             (fun v => found_in E yara_files (glob w) (glob v))).
    + intros l v v' r (yf & Hyf & Hs) _. by eapply found_in_step.
    + apply every_step_dedupe.
    + apply found_in_refl.
  - intros schedule shs.
    apply (every_step_exec (pass_step E out (concat shs))
             (fun v => found_in E (concat shs) (glob w) (glob v))).
    + intros l v v' r (yf & Hyf & Hs) _. by eapply found_in_step.
    + apply every_step_threads.
    + apply found_in_refl.
Qed.

(** ** The indexes per directory *)

Section Groupby.
Context {A : Type} (key : A → string).

Lemma groupby_concat (l : list A) : concat (map snd (groupby key l)) = l.
Proof.
  induction l as [|x l IH]; [done|]. simpl.
  destruct (groupby key l) as [|[k g] gs]; simpl in *.
  - by rewrite <- IH.
  - destruct (String.eqb (key x) k); simpl; by rewrite <- IH.
Qed.

Lemma groupby_groups (l : list A) :
  Forall (fun kg : string * list A =>
            kg.2 ≠ [] ∧ Forall (fun x => key x = kg.1) kg.2)
    (groupby key l).
Proof.
  induction l as [|x l IH]; [constructor|]. simpl.
  destruct (groupby key l) as [|[k g] gs].
  - repeat constructor; done.
  - inversion IH as [|? ? [Hne Hk] Hgs]; subst.
    destruct (String.eqb_spec (key x) k) as [Hx|Hx].
    + constructor; [|done]. split; [done|]. by constructor.
    + constructor; [by repeat constructor|]. by constructor.
Qed.

Lemma groupby_adjacent (l : list A) i kg kg' :
  groupby key l !! i = Some kg → groupby key l !! S i = Some kg' →
  kg.1 ≠ kg'.1.
Proof.
  revert i kg kg'. induction l as [|x l IH]; intros i kg kg'; [done|]. simpl.
  destruct (groupby key l) as [|[k g] gs] eqn:Hg; [done|].
  destruct (String.eqb_spec (key x) k) as [Hx|Hx].
  - destruct i as [|i]; simpl.
    + intros [= <-] H2. simpl. apply (IH 0 (k, g) kg'); done.
    + intros H1 H2. apply (IH (S i) kg kg'); done.
  - destruct i as [|i]; simpl.
    + by intros [= <-] [= <-].
    + intros H1 H2. apply (IH i kg kg'); done.
Qed.

End Groupby.

(** X14. The indexes per directory of the lines 384-389 split the list
    of indexed files into runs: every file is in exactly one group and the
    groups, one after the other, give the list back in its order; no group
    is empty, the files of a group have the directory of the group, and two
    groups that follow each other have different directories. *)
Theorem X14_directory_indexes_partition_the_list (yara_files : list string) :
  let index_files :=
    map (fun fp => (PosixPath.dirname fp, PosixPath.basename fp)) yara_files in
  let groups := groupby fst index_files in
  concat (map snd groups) = index_files
  ∧ Forall (fun kg : string * list (string * string) =>
              kg.2 ≠ [] ∧ Forall (fun file => file.1 = kg.1) kg.2) groups
  ∧ ∀ i kg kg', groups !! i = Some kg → groups !! S i = Some kg' →
                kg.1 ≠ kg'.1.
Proof.
  intros index_files groups. split; [apply groupby_concat|].
  split; [apply groupby_groups|]. apply groupby_adjacent.
Qed.

(** ** Passes one after the other *)

Section Sequence.
Context (E : env) (out : string).

Lemma dedupe_app (l1 l2 : list string) w :
  run (dedupe E (l1 ++ l2) out) w =
    match run (dedupe E l1 out) w with
    | (w1, Returned _) => run (dedupe E l2 out) w1
    | r => r
    end.
Proof.
  revert w. induction l1 as [|yf l1 IH]; intros w; [done|].
  cbn [app dedupe]. rewrite !run_bind.
  destruct (run (dedupe_file E out yf) w) as [w1 [[]|e|]]; [apply IH|done..].
Qed.

(** The number of steps a program takes when it is run alone. *)
Lemma rest_of_returned {A} (p : prog A) w a :
  (run p w).2 = Returned a → rest_of p w = Ret a.
Proof.
  revert w. induction p as [a'|e|l effect next IH]; intros w; simpl.
  - by intros [= ->].
  - done.
  - destruct (l && lock_held w); [done|]. apply IH.
Qed.

(** A thread that is given the steps it takes alone does what it does
    alone. *)
Lemma exec_solo i (p : prog unit) w (threads : list (prog unit)) :
  threads !! i = Some p →
  exec (replicate (steps p w) i) w threads
  = ((run p w).1, <[i := rest_of p w]> threads).
Proof.
  revert w threads. induction p as [a|e|l effect next IH];
    intros w threads Hi; simpl.
  - by rewrite list_insert_id.
  - by rewrite list_insert_id.
  - destruct (l && lock_held w) eqn:Hl; simpl.
    { by rewrite list_insert_id. }
    rewrite Hi. simpl. rewrite Hl. simpl.
    rewrite IH.
    + by rewrite list_insert_insert_eq.
    + apply list_lookup_insert_eq. by eapply lookup_lt_Some.
Qed.

Lemma exec_one_by_one (shs : list (list string)) (ended : list (prog unit)) w :
  (run (dedupe E (concat shs) out) w).2 = Returned tt →
  exec (one_by_one (length ended) (map (fun sh => dedupe E sh out) shs) w) w
    (ended ++ map (fun sh => dedupe E sh out) shs)
  = ((run (dedupe E (concat shs) out) w).1,
     ended ++ map (fun _ => Ret tt) shs).
Proof.
  revert ended w. induction shs as [|sh shs IH]; intros ended w; [done|].
  cbn [concat map one_by_one]. rewrite dedupe_app, exec_app.
  rewrite (exec_solo (length ended) (dedupe E sh out) w).
  2:{ by rewrite lookup_app_r, Nat.sub_diag by lia. }
  destruct (run (dedupe E sh out) w) as [w1 [[]|e|]] eqn:Hsh; try done.
  intros Hrest. cbn [fst snd].
  rewrite (rest_of_returned (dedupe E sh out) w tt) by by rewrite Hsh.
  assert (Hins : <[length ended := Ret tt]>
                   (ended ++ dedupe E sh out :: map (fun sh => dedupe E sh out) shs)
                 = (ended ++ [Ret tt]) ++ map (fun sh => dedupe E sh out) shs).
  { rewrite insert_app_r_alt, Nat.sub_diag by lia. simpl.
    by rewrite <- app_assoc. }
  rewrite Hins.
  replace (S (length ended)) with (length (ended ++ [Ret tt : prog unit]))
    by (rewrite length_app; simpl; lia).
  rewrite (IH (ended ++ [Ret tt]) w1 Hrest). by rewrite <- app_assoc.
Qed.

End Sequence.

(** X16. Whenever the single-threaded pass over the files returns, the
    threaded run can end in the same way: under the schedule in which each
    thread runs to its end before the next one starts, the script run with
    [-t] leaves the same world and the same report as the script run without
    it. *)
Theorem X16_threads_one_by_one_give_the_serial_result
    (E : env) (yara_files : list string) (out : string) (w : world) :
  (run (dedupe E yara_files out) w).2 = Returned tt →
  ∃ schedule,
    main E (Some schedule) yara_files out w = main E None yara_files out w.
Proof.
  intros Hret. destruct yara_files as [|yf yara_files]; [by exists []|].
  set (l := yf :: yara_files) in *.
  destruct (shards_slices spin_threads l) as [Hsh Hpos];
    [unfold spin_threads; lia|done|].
  set (each := length l / (length l `min` spin_threads)) in *.
  set (shs := slices each l) in *.
  assert (Hcat : concat shs = l) by by apply slices_concat.
  exists (one_by_one 0 (map (fun sh => dedupe E sh out) shs) w).
  unfold main. simpl falsy. cbv iota.
  unfold dedupe_threads. rewrite Hsh. simpl fmap. cbv iota.
  rewrite <- Hcat in Hret.
  pose proof (exec_one_by_one E out shs [] w Hret) as Hex.
  simpl in Hex. rewrite Hex. cbn [fst snd].
  assert (forallb finished (map (fun _ : list string => Ret tt) shs) = true)
    as ->.
  { clear. induction shs; [done|]. simpl. done. }
  rewrite run_bind. rewrite Hcat in *.
  by destruct (run (dedupe E l out) w) as [w1 [[]|e|]].
Qed.

Lemma X16_threads_one_by_one_give_the_serial_result_witness :
  ∃ schedule,
    main (plain_env two_files) (Some schedule) ["a/x.yar"; "b/y.yar"] "out"
      (start "out")
    = main (plain_env two_files) None ["a/x.yar"; "b/y.yar"] "out"
        (start "out").
Proof.
  apply X16_threads_one_by_one_give_the_serial_result.
  vm_compute. reflexivity.
Defined.

Section RuleShape.
Context (E : env).



Implicit Types (u v w : string) (p : ascii → bool).

Ltac invert_matches :=
  repeat match goal with
    | H : matches Eps _ _ _ |- _ => inversion H; subst; clear H
    | H : matches (Chr _) _ _ _ |- _ => inversion H; subst; clear H
    | H : matches (Cls _) _ _ _ |- _ => inversion H; subst; clear H
    | H : matches Bol _ _ _ |- _ => inversion H; subst; clear H
    | H : matches Eol _ _ _ |- _ => inversion H; subst; clear H
    | H : matches (Seq _ _) _ _ _ |- _ => inversion H; subst; clear H
    | H : matches (Alt _ _) _ _ _ |- _ => inversion H; subst; clear H
    | H : matches (Grp _ _) _ _ _ |- _ => inversion H; subst; clear H
    end.

Lemma chars_app u v : chars (u +:+ v) = chars u ++ chars v.
Proof.
  induction u as [|c u IH]; [by rewrite string_app_nil_l|].
  rewrite string_app_cons. unfold chars in *. simpl. by rewrite IH.
Qed.

(** A starred class matches characters of the class only. *)
Lemma matches_star_class g p (s s' : cursor) w :
  matches (Star g (Cls p)) s w s' → forallb p (chars w) = true.
Proof.
  intros H. remember (Star g (Cls p)) as r eqn:Hr.
  induction H as [| | | | | | | | |g' r' s w1 s1 w2 s2 H1 _ Hne _ IH2|];
    try done.
  injection Hr as -> ->. rewrite chars_app, forallb_app, IH2 by done.
  inversion H1 as [| |? ? ? ? _ Hpa| | | | | | | |]; subst.
  unfold chars. simpl. by rewrite Hpa.
Qed.

(** Stripping on the left stops at a character that is not stripped. *)
Lemma lstrip_by_stop p u c v :
  p c = false →
  ∃ u0 u', u = u0 +:+ u'
           ∧ lstrip_by p (u +:+ String c v) = u' +:+ String c v.
Proof.
  intros Hc. induction u as [|a u (u0 & u' & Hu & IH)].
  - exists "", "". rewrite !string_app_nil_l. simpl. by rewrite Hc.
  - rewrite string_app_cons. simpl. destruct (p a).
    + exists (String a u0), u'. by rewrite string_app_cons, <- Hu.
    + exists "", (String a u). by rewrite string_app_nil_l, string_app_cons.
Qed.

Lemma strip_by_between p u c v d :
  p c = false → p d = false →
  ∃ u0 u', u = u0 +:+ u'
           ∧ strip_by p (u +:+ String c (v +:+ String d ""))
             = u' +:+ String c (v +:+ String d "").
Proof.
  intros Hc Hd. unfold strip_by.
  assert (rstrip_by p (u +:+ String c (v +:+ String d ""))
          = u +:+ String c (v +:+ String d "")) as ->.
  { rewrite <- (string_app_cons c v), <- string_app_assoc.
    by apply rstrip_by_last. }
  by apply lstrip_by_stop.
Qed.

Lemma forallb_chars_suffix p u u0 u' :
  u = u0 +:+ u' → forallb p (chars u) = true → forallb p (chars u') = true.
Proof.
  intros ->. rewrite chars_app, forallb_app. by intros [_ ?]%andb_true_iff.
Qed.

(** Cleaning a match removes a part of its qualifier text at most. *)
Lemma clean_between p u v :
  forallb p (chars u) = true →
  ∃ u', forallb p (chars u') = true
        ∧ clean (u +:+ String "r" (v +:+ "}")) = u' +:+ String "r" (v +:+ "}").
Proof.
  intros Hu. unfold clean, strip, strip_chars.
  destruct (strip_by_between isspace u "r" v "}") as (? & u1 & E1 & ->);
    [done..|].
  destruct (strip_by_between (fun c => mem_char c "*/") u1 "r" v "}")
    as (? & u2 & E2 & ->); [done..|].
  destruct (strip_by_between isspace u2 "r" v "}") as (? & u3 & E3 & ->);
    [done..|].
  destruct (strip_by_between (fun c => mem_char c "/*") u3 "r" v "}")
    as (? & u4 & E4 & ->); [done..|].
  destruct (strip_by_between isspace u4 "r" v "}") as (? & u5 & E5 & ->);
    [done..|].
  exists u5. split; [|done].
  pose proof (forallb_chars_suffix p _ _ _ E1 Hu) as H1.
  pose proof (forallb_chars_suffix p _ _ _ E2 H1) as H2.
  pose proof (forallb_chars_suffix p _ _ _ E3 H2) as H3.
  pose proof (forallb_chars_suffix p _ _ _ E4 H3) as H4.
  exact (forallb_chars_suffix p _ _ _ E5 H4).
Qed.

Lemma matches_seq_inv r1 r2 (s s' : cursor) w :
  matches (Seq r1 r2) s w s' →
  ∃ w1 s1 w2, matches r1 s w1 s1 ∧ matches r2 s1 w2 s' ∧ w = w1 +:+ w2.
Proof. inversion 1; subst. eauto 6. Qed.

Lemma matches_grp_inv n r (s s' : cursor) w :
  matches (Grp n r) s w s' → ∃ s1, matches r s w s1.
Proof. inversion 1; subst. eauto. Qed.

Lemma matches_chr_inv c (s s' : cursor) w :
  matches (Chr c) s w s' → w = String c "".
Proof. by inversion 1. Qed.

Lemma matches_cls_inv p (s s' : cursor) w :
  matches (Cls p) s w s' → ∃ a, w = String a "" ∧ p a = true.
Proof. inversion 1; subst. eauto. Qed.

Lemma matches_bol_inv (s s' : cursor) w : matches Bol s w s' → w = "".
Proof. by inversion 1. Qed.

Lemma matches_lit_inv lit (s s' : cursor) w :
  matches (Lit lit) s w s' → w = lit.
Proof.
  revert s w. induction lit as [|c lit IH]; intros s w; simpl.
  - by inversion 1.
  - intros (w1 & s1 & w2 & ->%matches_chr_inv & ->%IH & ->)%matches_seq_inv.
    done.
Qed.

Lemma rules_re_shape (s0 c : cursor) w :
  matches rules_re s0 w c →
  ∃ pre a hdr body tail b,
    w = pre +:+ String "r" (("ule" +:+ String a hdr +:+ "{" +:+ body
          +:+ "condition" +:+ tail +:+ String b "") +:+ "}")
    ∧ forallb rule_prefix_class (chars pre) = true
    ∧ isspace a = true
    ∧ hdr ≠ ""
    ∧ forallb rule_header_class (chars hdr) = true
    ∧ isspace b = true.
Proof.
  unfold rules_re, Plus, Any.
  intros [c1 H]%matches_grp_inv.
  apply matches_seq_inv in H as (? & ? & ? & ->%matches_bol_inv & H & ->).
  apply matches_seq_inv in H as (pre & ? & ? & Hpre%matches_star_class & H & ->).
  apply matches_seq_inv in H as (? & ? & ? & ->%matches_lit_inv & H & ->).
  apply matches_seq_inv in H as (? & ? & ? & (a & -> & Ha)%matches_cls_inv & H & ->).
  apply matches_seq_inv in H as (? & ? & ? & Hhdr & H & ->).
  apply matches_seq_inv in Hhdr
    as (? & ? & hdr & (h0 & -> & Hh0)%matches_cls_inv & Hh%matches_star_class & ->).
  apply matches_seq_inv in H as (? & ? & ? & ->%matches_chr_inv & H & ->).
  apply matches_seq_inv in H as (body & ? & ? & _ & H & ->).
  apply matches_seq_inv in H as (? & ? & ? & ->%matches_lit_inv & H & ->).
  apply matches_seq_inv in H as (tail & ? & ? & _ & H & ->).
  apply matches_seq_inv in H
    as (? & ? & ? & (b & -> & Hb)%matches_cls_inv & ->%matches_chr_inv & ->).
  exists pre, a, (String h0 hdr), body, tail, b.
  split; [|split; [done|split; [done|split; [done|split; [|done]]]]].
  - repeat first [rewrite string_app_assoc | rewrite string_app_cons
                 | rewrite string_app_nil_l].
    reflexivity.
  - unfold chars in *. simpl. by rewrite Hh0.
Qed.

Lemma rule_blocks_shaped content r :
  r ∈ rule_blocks content → rule_shaped r.
Proof.
  unfold rule_blocks. intros (w & -> & Hw)%list_elem_of_fmap.
  apply findall1_matches in Hw as (h & p' & s' & c & _ & -> & Hm & Hc).
  pose proof Hm as Hm'. apply rules_re_match in Hm' as [Hg _].
  rewrite Hc, Hg.
  apply rules_re_shape in Hm
    as (pre & a & hdr & body & tail & b & Hw & Hpre & Ha & Hhdr & Hh & Hb).
  rewrite Hw.
  destruct (clean_between rule_prefix_class pre
              ("ule" +:+ String a hdr +:+ "{" +:+ body +:+ "condition"
               +:+ tail +:+ String b "") Hpre) as (pre' & Hpre' & ->).
  exists pre', a, hdr, body, tail, b. split; [|done].
  repeat first [rewrite string_app_assoc | rewrite string_app_cons
               | rewrite string_app_nil_l].
  reflexivity.
Qed.

End RuleShape.

(** X12. Every rule block [extract] returns has the shape the pattern of
    line 48 asks for, also after the cleaning of line 156: qualifier
    characters, the keyword [rule], a white space, a non-empty header of
    header characters, an opening brace, a body that holds the word
    [condition], and a white space before the closing brace that ends the
    block. *)
Theorem X12_extracted_rules_are_rule_shaped
    (E : env) (yf : string) (imports yar_rules commented : list string)
    (r : string) :
  extract E yf = Ok (Some (imports, yar_rules, commented)) →
  r ∈ yar_rules →
  rule_shaped r.
Proof.
  intros (content & _ & _ & Hsub)%extract_rules Hr.
  by apply (rule_blocks_shaped content), Hsub.
Qed.

Lemma X12_extracted_rules_are_rule_shaped_witness :
  rule_shaped "rule Foo { condition: true }".
Proof.
  apply (X12_extracted_rules_are_rule_shaped comment_and_rule_env
           "rules/n.yar" [] ["rule Foo { condition: true }"] ["/* note */"]).
  - vm_compute. reflexivity.
  - left.
Defined.

Section Layout.
Import PosixPath.
Implicit Types (x y d f pre : string) (p : ascii → bool).

Lemma has_slash_cons c x :
  has_slash (String c x) = Ascii.eqb "/" c || has_slash x.
Proof. done. Qed.

Lemma has_slash_app x y : has_slash (x +:+ y) = has_slash x || has_slash y.
Proof.
  induction x as [|c x IH]; [by rewrite string_app_nil_l|].
  by rewrite string_app_cons, !has_slash_cons, IH, orb_assoc.
Qed.

Lemma rsplit_plain f : has_slash f = false → rsplit f = ("", f).
Proof.
  destruct f as [|c f]; [done|]. rewrite has_slash_cons.
  intros [Hc Hf]%orb_false_iff. simpl. rewrite Hf.
  rewrite Ascii.eqb_sym, Hc. done.
Qed.

Lemma slash_app f : "/" +:+ f = String "/" f.
Proof. done. Qed.

Lemma rsplit_app x f :
  has_slash f = false → rsplit (x +:+ "/" +:+ f) = (x +:+ "/", f).
Proof.
  intros Hf. rewrite slash_app. induction x as [|c x IH].
  - rewrite !string_app_nil_l. simpl. by rewrite Hf.
  - rewrite !(string_app_cons c x). cbn [rsplit].
    assert (has_slash (x +:+ String "/" f) = true) as ->.
    { rewrite has_slash_app, has_slash_cons. simpl. by rewrite orb_true_r. }
    by rewrite IH.
Qed.

Lemma string_last d : d ≠ "" → ∃ d' c, d = d' +:+ String c "".
Proof.
  induction d as [|a d IH]; [done|]. intros _.
  destruct d as [|b d].
  - by exists "", a.
  - destruct IH as (d' & c & ->); [done|].
    exists (String a d'), c. by rewrite string_app_cons.
Qed.

Lemma rstrip_by_snoc p x c :
  p c = true → rstrip_by p (x +:+ String c "") = rstrip_by p x.
Proof.
  intros Hc. induction x as [|a x IH].
  - rewrite string_app_nil_l. simpl. by rewrite Hc.
  - rewrite string_app_cons, !rstrip_by_cons, IH. done.
Qed.

Lemma lstrip_by_keep p u c v :
  p c = false → lstrip_by p (u +:+ String c v) ≠ "".
Proof.
  intros Hc. induction u as [|a u IH].
  - rewrite string_app_nil_l. simpl. by rewrite Hc.
  - rewrite string_app_cons. simpl. by destruct (p a).
Qed.

(** [os.path.basename] and [os.path.dirname] of [pre d/f]. *)
Lemma basename_dir_file x f :
  has_slash f = false → basename (x +:+ "/" +:+ f) = f.
Proof. intros Hf. unfold basename. by rewrite rsplit_app. Qed.

Lemma dirname_dir_file pre d f :
  has_slash d = false → d ≠ "" → has_slash f = false →
  dirname (pre +:+ d +:+ "/" +:+ f) = pre +:+ d.
Proof.
  intros Hd Hne Hf. unfold dirname.
  assert (Hre : pre +:+ d +:+ "/" +:+ f = (pre +:+ d) +:+ "/" +:+ f)
    by by rewrite string_app_assoc.
  rewrite Hre, rsplit_app by done. clear Hre. cbn [fst].
  destruct (string_last d Hne) as (d' & c & ->).
  assert (Hc : is_slash c = false).
  { rewrite has_slash_app, has_slash_cons in Hd.
    apply orb_false_iff in Hd as [_ [Hc _]%orb_false_iff].
    unfold is_slash. by rewrite Ascii.eqb_sym. }
  assert (Hkeep : lstrip_by is_slash ((pre +:+ d' +:+ String c "") +:+ "/") ≠ "").
  { assert ((pre +:+ d' +:+ String c "") +:+ "/"
            = (pre +:+ d') +:+ String c "/") as ->
      by by rewrite !string_app_assoc.
    by apply lstrip_by_keep. }
  destruct (lstrip_by is_slash ((pre +:+ d' +:+ String c "") +:+ "/"));
    [done|].
  rewrite rstrip_by_snoc by done.
  rewrite <- string_app_assoc. by apply rstrip_by_last.
Qed.

Lemma split_slash_plain d : has_slash d = false → split_slash d = [d].
Proof.
  induction d as [|c d IH]; [done|]. rewrite has_slash_cons.
  intros [Hc Hd]%orb_false_iff. simpl.
  rewrite Ascii.eqb_sym, Hc, IH by done. done.
Qed.

Lemma split_slash_ne x : split_slash x ≠ [].
Proof.
  induction x as [|c x IH]; [done|]. simpl.
  destruct (Ascii.eqb c "/"); [done|]. by destruct (split_slash x).
Qed.

Lemma split_slash_app x y :
  split_slash (x +:+ "/" +:+ y) = split_slash x ++ split_slash y.
Proof.
  rewrite slash_app. induction x as [|c x IH].
  - by rewrite !string_app_nil_l.
  - rewrite !(string_app_cons c x). cbn [split_slash].
    destruct (Ascii.eqb c "/"); [by rewrite IH|].
    rewrite IH. pose proof (split_slash_ne x). by destruct (split_slash x).
Qed.

(** The last component of a path, when it is a plain name, is the last
    component of the normalised path. *)
Lemma norm_comps_snoc abs acc comps d :
  plain_name d →
  norm_comps abs acc (comps ++ [d]) = norm_comps abs acc comps ++ [d].
Proof.
  intros (_ & H1 & H2 & H3).
  assert (Hd : String.eqb d "" || String.eqb d "." = false).
  { apply orb_false_iff. split; by apply String.eqb_neq. }
  assert (Hdd : String.eqb d ".." = false) by by apply String.eqb_neq.
  revert acc. induction comps as [|c comps IH]; intros acc.
  - simpl. by rewrite Hd, Hdd.
  - cbn [app norm_comps]. destruct (String.eqb c "" || String.eqb c ".");
      [apply IH|].
    destruct (negb (String.eqb c "..")); [apply IH|].
    destruct acc as [|top acc]; [destruct abs; apply IH|].
    destruct (String.eqb top ".."); apply IH.
Qed.

Lemma join_snoc sep xs d :
  PyStr.join sep (xs ++ [d]) =
    match xs with
    | [] => d
    | _ => PyStr.join sep xs +:+ sep +:+ d
    end.
Proof.
  induction xs as [|x xs IH]; [done|].
  destruct xs as [|y xs]; [done|].
  change ((x :: y :: xs) ++ [d]) with (x :: (y :: xs) ++ [d]).
  cbn [app]. rewrite !join_cons. cbn [app] in IH. rewrite IH.
  by rewrite !string_app_assoc.
Qed.

Lemma repeat_char_snoc c n :
  repeat_char c (S n) = repeat_char c n +:+ String c "".
Proof.
  induction n as [|n IH]; [done|].
  change (repeat_char c (S (S n))) with (String c (repeat_char c (S n))).
  rewrite IH at 1. rewrite <- string_app_cons. done.
Qed.

Lemma basename_normpath pre d :
  plain_name d → (pre = "" ∨ ∃ a, pre = a +:+ "/") →
  basename (normpath (pre +:+ d)) = d.
Proof.
  intros Hd Hpre. pose proof Hd as (Hs & Hne & _).
  assert (Hcomps : ∃ comps, split_slash (pre +:+ d) = comps ++ [d]).
  { destruct Hpre as [->|[a ->]].
    - exists []. by rewrite string_app_nil_l, split_slash_plain.
    - exists (split_slash a).
      by rewrite string_app_assoc, split_slash_app, (split_slash_plain d). }
  destruct Hcomps as [comps Hcomps].
  unfold normpath.
  destruct (pre +:+ d) as [|c t] eqn:Hp.
  { destruct pre; [by rewrite string_app_nil_l in Hp|done]. }
  rewrite Hcomps. cbv zeta.
  generalize (if startswith "/" (String c t)
              then if startswith "//" (String c t)
                      && negb (startswith "///" (String c t))
                   then 2 else 1
              else 0); intros n.
  rewrite norm_comps_snoc by done.
  set (xs := norm_comps (negb (n =? 0)) [] comps).
  assert (Hform : repeat_char "/" n +:+ PyStr.join "/" (xs ++ [d]) = d
                  ∨ ∃ x, repeat_char "/" n +:+ PyStr.join "/" (xs ++ [d])
                         = x +:+ "/" +:+ d).
  { rewrite join_snoc. destruct xs as [|x xs].
    - destruct n as [|n]; [left; by rewrite string_app_nil_l|].
      right. exists (repeat_char "/" n).
      by rewrite repeat_char_snoc, string_app_assoc.
    - right. exists (repeat_char "/" n +:+ PyStr.join "/" (x :: xs)).
      by rewrite !string_app_assoc. }
  destruct Hform as [->|[x ->]].
  - destruct d; [done|]. unfold basename. by rewrite rsplit_plain.
  - assert (x +:+ "/" +:+ d ≠ "") as Hq by by destruct x.
    destruct (x +:+ "/" +:+ d) eqn:Hq'; [done|]. rewrite <- Hq'.
    by apply basename_dir_file.
Qed.

Lemma yf_rule_dir_dir_file pre d f :
  plain_name d → (pre = "" ∨ ∃ a, pre = a +:+ "/") →
  has_slash f = false →
  yf_rule_dir (pre +:+ d +:+ "/" +:+ f) = d
  ∧ yf_file_name (pre +:+ d +:+ "/" +:+ f) = f.
Proof.
  intros Hd Hpre Hf. pose proof Hd as (Hs & Hne & _).
  unfold yf_rule_dir, yf_file_name. split.
  - rewrite dirname_dir_file by done. by apply basename_normpath.
  - assert (Hre : pre +:+ d +:+ "/" +:+ f = (pre +:+ d) +:+ "/" +:+ f)
      by by rewrite string_app_assoc.
    rewrite Hre. by apply basename_dir_file.
Qed.

End Layout.

(** X17. The output tree is flat: the places of a file [.../d/f] of the
    input tree ([d] a directory name, [f] a file name) in the output tree are
    [commented_rules/d/f] and [deduped_rules/d/f], whatever lies above [d];
    so two input files with the same name in directories of the same name
    share these places, and the one processed later overwrites what the
    other left there. *)
Theorem X17_output_places_depend_on_the_last_directory
    (out pre d f : string) :
  plain_name d → (pre = "" ∨ ∃ a, pre = a +:+ "/") →
  PosixPath.has_slash f = false →
  yf_rule_dir (pre +:+ d +:+ "/" +:+ f) = d
  ∧ yf_file_name (pre +:+ d +:+ "/" +:+ f) = f
  ∧ new_yf_rule_dir out (pre +:+ d +:+ "/" +:+ f)
    = PosixPath.join2 (yara_deduped_rules_path out) d
  ∧ new_yf_commented_rule_dir out (pre +:+ d +:+ "/" +:+ f)
    = PosixPath.join2 (yara_commeted_rules_path out) d.
Proof.
  intros Hd Hpre Hf.
  destruct (yf_rule_dir_dir_file pre d f Hd Hpre Hf) as [H1 H2].
  unfold new_yf_rule_dir, new_yf_commented_rule_dir. by rewrite H1.
Qed.

Lemma X17_output_places_depend_on_the_last_directory_witness :
  yf_rule_dir "a/rules/x.yar" = "rules"
  ∧ yf_file_name "a/rules/x.yar" = "x.yar"
  ∧ new_yf_rule_dir "out" "a/rules/x.yar" = "out/deduped_rules/rules"
  ∧ new_yf_commented_rule_dir "out" "a/rules/x.yar"
    = "out/commented_rules/rules".
Proof.
  apply (X17_output_places_depend_on_the_last_directory
           "out" "a/" "rules" "x.yar").
  - repeat split; discriminate.
  - right. exists "a". reflexivity.
  - reflexivity.
Defined.

Section Artifact.
Context (E : env) (out : string).

Lemma run_returned_bind {A B} (p : prog A) (k : A → prog B) w b :
  (run (p ≫= k) w).2 = Returned b →
  ∃ a, (run p w).2 = Returned a
       ∧ run (p ≫= k) w = run (k a) (run p w).1
       ∧ (run (k a) (run p w).1).2 = Returned b.
Proof.
  rewrite run_bind. destruct (run p w) as [w1 [a|e|]]; try done.
  intros Hb. by exists a.
Qed.

(** What the loop of the lines 230-243 returns when it returns. *)
Lemma run_register_all yf yar_rules dc w dc' :
  (run (register_all yf yar_rules dc) w).2 = Returned dc' →
  dc' = dc +:+ blocks_text (first_registered (rule_names (glob w)) yar_rules)
  ∧ fs (run (register_all yf yar_rules dc) w).1 = fs w.
Proof.
  revert dc w. induction yar_rules as [|r rs IH]; intros dc w; simpl.
  { intros [= <-]. by rewrite string_app_nil_r. }
  destruct (rulename r) as [name|] eqn:Hname; [|done]. simpl.
  destruct (lock_held w); [done|]. intros Hret.
  destruct (IH _ _ Hret) as [-> Hfs]. split; [|by rewrite Hfs].
  unfold register at 1. case_bool_decide; simpl; [done|].
  by rewrite !string_app_assoc.
Qed.

(** The deduped artifact is the last thing the pass over a file writes. *)
Lemma run_dedupe_rules yf yar_rules dc w :
  yar_rules ≠ [] →
  (∀ v, rule_names (glob v) = rule_names (glob w) →
        rule_names (glob (run (count_and_mkdir E (length yar_rules)
                                 (new_yf_rule_dir out yf)) v).1)
        = rule_names (glob w)) →
  (run (dedupe_rules E out yf yar_rules dc) w).2 = Returned tt →
  write_error E (PosixPath.join2 (new_yf_rule_dir out yf) (yf_file_name yf))
    = None →
  files (fs (run (dedupe_rules E out yf yar_rules dc) w).1)
    !! PosixPath.normpath
         (PosixPath.join2 (new_yf_rule_dir out yf) (yf_file_name yf))
  = Some (header E +:+ dc
          +:+ blocks_text (first_registered (rule_names (glob w)) yar_rules)).
Proof.
  intros Hne Hnames. unfold dedupe_rules.
  destruct yar_rules as [|r0 rs0] eqn:Hrules; [done|]. simpl falsy. cbv iota.
  rewrite <- Hrules in *. clear Hrules r0 rs0 Hne.
  intros Hret Hwe.
  apply run_returned_bind in Hret as ([] & H1 & -> & Hret).
  specialize (Hnames w eq_refl).
  set (w1 := (run (count_and_mkdir E (length yar_rules)
                     (new_yf_rule_dir out yf)) w).1) in *.
  apply run_returned_bind in Hret as (dc' & H2 & -> & Hret).
  destruct (run_register_all _ _ _ _ _ H2) as [-> _].
  rewrite run_write_file, Hwe in *.
  destruct (fs_isdir _ _ || denied E _); [done|].
  destruct (close_error E _); [done|]. simpl.
  unfold file_text. by rewrite lookup_insert_eq, Hnames.
Qed.

Lemma rule_names_count_and_mkdir n d N v :
  rule_names (glob v) = N →
  rule_names (glob (run (count_and_mkdir E n d) v).1) = N.
Proof.
  intros Hv.
  apply (preserves_run (fun v => rule_names (glob v) = N)); [|done].
  by apply (preserves_count_and_mkdir E (fun g => rule_names g = N)).
Qed.

End Artifact.

(** X18. The artifact of a file in [deduped_rules]: when the pass over
    a file with rule blocks returns and the write did not fail, the file
    [deduped_rules/<dir>/<name>] holds the header line, the imports of the
    file glued together and followed by three line feeds (if there are any),
    and then, each trimmed and followed by an empty line, exactly the blocks
    of the file that were registered first: those whose name was not yet
    registered, neither before the pass nor by an earlier block of the
    file. *)
Theorem X18_deduped_artifact_holds_the_first_registered_blocks
    (E : env) (out yf : string) (imports yar_rules commented : list string)
    (w : world) :
  extract E yf = Ok (Some (imports, yar_rules, commented)) →
  yar_rules ≠ [] →
  (run (dedupe_file E out yf) w).2 = Returned tt →
  write_error E (PosixPath.join2 (new_yf_rule_dir out yf) (yf_file_name yf))
    = None →
  files (fs (run (dedupe_file E out yf) w).1)
    !! PosixPath.normpath
         (PosixPath.join2 (new_yf_rule_dir out yf) (yf_file_name yf))
  = Some (header E
          +:+ (if falsy imports then ""
               else PyStr.join "" imports +:+ nl +:+ nl +:+ nl)
          +:+ blocks_text
                (first_registered (rule_names (glob w)) yar_rules)).
Proof.
  intros Hx Hne. unfold dedupe_file. rewrite Hx.
  destruct yar_rules as [|r0 rs0] eqn:Hrules; [done|].
  rewrite andb_false_r, andb_false_l. rewrite <- Hrules in *.
  assert (Hne' : yar_rules ≠ []) by by rewrite Hrules.
  clear Hrules r0 rs0 Hne. intros Hret Hwe.
  apply run_returned_bind in Hret as (dc & H1 & -> & Hret).
  assert (Hdc : dc = (if falsy imports then ""
                      else PyStr.join "" imports +:+ nl +:+ nl +:+ nl)
                ∧ rule_names (glob (run (merge_imports imports) w).1)
                  = rule_names (glob w)).
  { unfold merge_imports in *. destruct (falsy imports); simpl in *.
    - by injection H1 as <-.
    - destruct (lock_held w); simpl in *; [done|]. by injection H1 as <-. }
  destruct Hdc as [Hdc Hn1].
  set (w1 := (run (merge_imports imports) w).1) in *.
  apply run_returned_bind in Hret as ([] & H2 & -> & Hret).
  assert (Hn2 : rule_names (glob (run (write_commented E out yf imports
                                         commented) w1).1)
                = rule_names (glob w)).
  { apply (preserves_run (fun v => rule_names (glob v) = rule_names (glob w)));
      [|done].
    apply (preserves_write_commented E
             (fun g => rule_names g = rule_names (glob w))). }
  set (w2 := (run (write_commented E out yf imports commented) w1).1) in *.
  rewrite (run_dedupe_rules E out yf yar_rules dc w2); try done.
  - by rewrite Hn2, Hdc.
  - intros v Hv. by apply rule_names_count_and_mkdir.
Qed.

Lemma X18_deduped_artifact_holds_the_first_registered_blocks_witness :
  files (fs (run (dedupe_file (plain_env two_files) "out" "b/y.yar")
               (start "out")).1) !! "out/deduped_rules/b/y.yar"
  = Some (header (plain_env two_files)
          +:+ "rule Foo { condition: false }" +:+ nl +:+ nl
          +:+ "rule Bar { condition: true }" +:+ nl +:+ nl).
Proof.
  apply (X18_deduped_artifact_holds_the_first_registered_blocks
           (plain_env two_files) "out" "b/y.yar" []
           ["rule Foo { condition: false }"; "rule Bar { condition: true }"]
           []).
  - vm_compute. reflexivity.
  - discriminate.
  - vm_compute. reflexivity.
  - reflexivity.
Defined.

(** ** Files that are skipped, and the other artifacts *)

(** X19. A file in which no rule block is found is skipped altogether,
    whatever else it holds: [extract] returns three empty lists (or three
    times [None] for an empty text), its imports are not merged, its comments
    are not written to [commented_rules], and the pass over it leaves the
    globals, the tree and the output as they were. *)
Theorem X19_file_without_rule_block_is_skipped
    (E : env) (yf out content : string) :
  read_content E yf encodings = Ok (Some content) →
  findall1 rules_re content = [] →
  extract E yf = (if String.eqb content "" then Ok None else Ok (Some ([], [], [])))
  ∧ dedupe_file E out yf = Ret tt
  ∧ ∀ w, run (dedupe E [yf] out) w = (w, Returned tt).
Proof.
  intros Hread Hnone.
  assert (Hx : extract E yf
               = (if String.eqb content "" then Ok None else Ok (Some ([], [], [])))).
  { unfold extract. rewrite Hread. destruct content as [|a content']; [done|].
    by rewrite Hnone. }
  assert (Hd : dedupe_file E out yf = Ret tt).
  { unfold dedupe_file. rewrite Hx. by destruct (String.eqb content ""). }
  split; [done|]. split; [done|]. intros w. simpl. by rewrite Hd.
Qed.

Lemma X19_file_without_rule_block_is_skipped_witness :
  extract note_only_env "rules/note.yar" = Ok (Some ([], [], []))
  ∧ run (dedupe note_only_env ["rules/note.yar"] "out") (start "out")
    = (start "out", Returned tt).
Proof.
  destruct (X19_file_without_rule_block_is_skipped note_only_env
              "rules/note.yar" "out" note_only_text) as (H1 & _ & H3).
  - reflexivity.
  - vm_compute. reflexivity.
  - split; [exact H1|apply H3].
Defined.

Section CommentedArtifact.
Context (E : env) (out : string).

Lemma fs_print m v : fs (print m v) = fs v.
Proof. done. Qed.

Lemma files_put_file p c v :
  files (fs (put_file p c v)) = <[PosixPath.normpath p := c]> (files (fs v)).
Proof. done. Qed.

Lemma files_count_and_mkdir n d v :
  files (fs (run (count_and_mkdir E n d) v).1) = files (fs v).
Proof.
  unfold count_and_mkdir, step. simpl.
  destruct (lock_held v); [done|]. simpl.
  set (w1 := set_glob (count_rules n (glob v)) v).
  destruct (fs_isdir d w1); [done|].
  unfold os_mkdir. destruct (fs_exists d w1); [done|].
  by destruct (denied E d).
Qed.

(** The lines 223-246 write one file and leave the others alone. *)
Lemma files_dedupe_rules yf yar_rules dc w q :
  (run (dedupe_rules E out yf yar_rules dc) w).2 = Returned tt →
  q ≠ PosixPath.normpath
        (PosixPath.join2 (new_yf_rule_dir out yf) (yf_file_name yf)) →
  files (fs (run (dedupe_rules E out yf yar_rules dc) w).1) !! q
  = files (fs w) !! q.
Proof.
  unfold dedupe_rules. destruct (falsy yar_rules); [done|].
  intros Hret Hq.
  apply run_returned_bind in Hret as ([] & H1 & -> & Hret).
  apply run_returned_bind in Hret as (dc' & H2 & -> & Hret).
  destruct (run_register_all _ _ _ _ _ H2) as [_ Hfs].
  rewrite run_write_file in *.
  destruct (fs_isdir _ _ || denied E _); [done|].
  destruct (write_error E _), (close_error E _); try done; cbn [fst];
    by rewrite ?fs_print, files_put_file, lookup_insert_ne, Hfs,
      files_count_and_mkdir.
Qed.

(** What the lines 214-221 leave in the tree of commented rules. *)
Lemma files_write_commented yf imports commented w :
  commented ≠ [] →
  (run (write_commented E out yf imports commented) w).2 = Returned tt →
  write_error E (PosixPath.join2 (new_yf_commented_rule_dir out yf)
                   (yf_file_name yf)) = None →
  files (fs (run (write_commented E out yf imports commented) w).1)
    !! PosixPath.normpath
         (PosixPath.join2 (new_yf_commented_rule_dir out yf) (yf_file_name yf))
  = Some (header E
          +:+ PyStr.join (nl +:+ nl)
                (filter (fun x => x ≠ "") (map strip (imports ++ commented)))).
Proof.
  intros Hne. rewrite run_write_commented by done.
  rewrite run_ensure_dir.
  assert (Hl : (if falsy imports then commented else imports ++ commented)
               = imports ++ commented) by by destruct imports.
  rewrite Hl. intros Hret Hwe.
  destruct (fs_exists _ w); [|destruct (denied E _); [done|]];
    rewrite run_write_file, Hwe in *;
    (destruct (fs_isdir _ _ || denied E _); [done|]);
    (destruct (close_error E _); [done|]);
    cbn [fst]; by rewrite files_put_file, lookup_insert_eq.
Qed.

End CommentedArtifact.

(** X20. The artifact of a file in [commented_rules]: when the pass
    over a file for which [extract] returns comments has returned, the write
    did not fail and the file is not the one the deduped rules go to, the
    file [commented_rules/<dir>/<name>] holds the header line and then the
    imports of the file followed by its comments, each trimmed, the empty
    ones left out, with an empty line between two of them. *)
Theorem X20_commented_artifact_holds_imports_and_comments
    (E : env) (out yf : string) (imports yar_rules commented : list string)
    (w : world) :
  extract E yf = Ok (Some (imports, yar_rules, commented)) →
  commented ≠ [] →
  (run (dedupe_file E out yf) w).2 = Returned tt →
  write_error E (PosixPath.join2 (new_yf_commented_rule_dir out yf)
                   (yf_file_name yf)) = None →
  PosixPath.normpath
    (PosixPath.join2 (new_yf_commented_rule_dir out yf) (yf_file_name yf))
  ≠ PosixPath.normpath
      (PosixPath.join2 (new_yf_rule_dir out yf) (yf_file_name yf)) →
  files (fs (run (dedupe_file E out yf) w).1)
    !! PosixPath.normpath
         (PosixPath.join2 (new_yf_commented_rule_dir out yf) (yf_file_name yf))
  = Some (header E
          +:+ PyStr.join (nl +:+ nl)
                (filter (fun x => x ≠ "") (map strip (imports ++ commented)))).
Proof.
  intros Hx Hne. unfold dedupe_file. rewrite Hx.
  destruct commented as [|c0 cs0] eqn:Hcs; [done|].
  rewrite andb_false_r. rewrite <- Hcs in *.
  assert (Hne' : commented ≠ []) by by rewrite Hcs.
  clear Hcs c0 cs0 Hne. intros Hret Hwe Hpaths.
  apply run_returned_bind in Hret as (dc & H1 & -> & Hret).
  apply run_returned_bind in Hret as ([] & H2 & -> & Hret).
  rewrite (files_dedupe_rules E out yf yar_rules dc _ _ Hret Hpaths).
  by apply files_write_commented.
Qed.

Lemma X20_commented_artifact_holds_imports_and_comments_witness :
  files (fs (run (dedupe_file comment_and_rule_env "out" "rules/n.yar")
               (start "out")).1) !! "out/commented_rules/rules/n.yar"
  = Some (header comment_and_rule_env +:+ "/* note */").
Proof.
  apply (X20_commented_artifact_holds_imports_and_comments
           comment_and_rule_env "out" "rules/n.yar" []
           ["rule Foo { condition: true }"] ["/* note */"]).
  - vm_compute. reflexivity.
  - discriminate.
  - vm_compute. reflexivity.
  - reflexivity.
  - vm_compute. discriminate.
Defined.

(** ** What the filter of the indexes lets through *)

Section IndexFilter.
Implicit Types (x s t p acc : string).

Lemma rev_app_app x s acc :
  String.rev_app (x +:+ s) acc = String.rev_app s (String.rev_app x acc).
Proof.
  revert acc. induction x as [|c x IH]; intros acc.
  - by rewrite string_app_nil_l.
  - rewrite string_app_cons. simpl. apply IH.
Qed.

Lemma rev_app_acc s acc : String.rev_app s acc = String.rev_app s "" +:+ acc.
Proof.
  revert acc. induction s as [|c s IH]; intros acc; simpl.
  - by rewrite string_app_nil_l.
  - rewrite (IH (String c acc)), (IH (String c "")).
    by rewrite string_app_assoc, string_app_cons, string_app_nil_l.
Qed.

(** A text ends with what its last part ends with. *)
Lemma endswith_app p x s : endswith p s = true → endswith p (x +:+ s) = true.
Proof.
  unfold endswith, String.rev. intros Hs.
  rewrite rev_app_app, (rev_app_acc s (String.rev_app x "")).
  by apply startswith_app.
Qed.

Lemma index_paths_elem (listing : list (string * list string)) root names f :
  (root, names) ∈ listing → f ∈ names → index_eligible f = true →
  PosixPath.join2 root f ∈ index_paths listing.
Proof.
  intros Hl Hf He. unfold index_paths.
  apply list_elem_of_In, in_flat_map. exists (root, names).
  split; [by apply list_elem_of_In|]. simpl.
  apply in_map, list_elem_of_In, list_elem_of_filter. by split.
Qed.

End IndexFilter.

(** X21. The filter of the lines 378-379 lets the indexes of the script
    through: a file [index.yar], and a file [<dir>_index.yar] whose name does
    not hold the text [all_in_one_rules.yar], found by the walk in a
    directory of the tree of deduped rules is listed in the new [index.yar]
    (and in the index of its directory); so a run over an output directory
    that holds the indexes of an earlier run includes them in its own. *)
Theorem X21_indexes_of_an_earlier_run_are_indexed
    (listing : list (string * list string)) (root d f : string)
    (names : list string) :
  (root, names) ∈ listing → f ∈ names →
  f = "index.yar"
  ∨ (f = d +:+ "_index.yar" ∧ contains "all_in_one_rules.yar" f = false) →
  index_eligible f = true
  ∧ PosixPath.join2 root f ∈ index_paths listing.
Proof.
  intros Hl Hf Hname.
  assert (He : index_eligible f = true).
  { destruct Hname as [->|[-> Hc]]; [done|].
    unfold index_eligible. rewrite Hc. simpl.
    by rewrite (endswith_app ".yar" d "_index.yar"). }
  split; [done|]. by eapply index_paths_elem.
Qed.

Lemma X21_indexes_of_an_earlier_run_are_indexed_witness :
  index_eligible "rules_index.yar" = true
  ∧ "out/deduped_rules/rules_index.yar"
    ∈ index_paths [("out/deduped_rules", ["index.yar"; "rules_index.yar"])].
Proof.
  apply (X21_indexes_of_an_earlier_run_are_indexed
           [("out/deduped_rules", ["index.yar"; "rules_index.yar"])]
           "out/deduped_rules" "rules" "rules_index.yar"
           ["index.yar"; "rules_index.yar"]).
  - left.
  - right. left.
  - right. split; reflexivity.
Defined.
